(** * zaw: host/module interop — Conduit codec, channel lifecycle, bootstrap

    A shallow embedding of
    - [implementations/host-typescript/src/conduit.ts]  (Channel, Writer, Reader),
    - [implementations/host-typescript/src/interop.ts]  (createInstance),
    - [implementations/wasm-zig/src/interop.zig]        (allocate / get channels),
    followed by the properties stated about them. *)

From Stdlib Require Import ZArith Lia Bool.
From stdpp Require Import base option list gmap strings.

Local Open Scope Z_scope.

(* ===================================================================== *)
(** * JavaScript numbers as used by the codec *)
(* ===================================================================== *)

(** Cursors, lengths and integer payloads are JavaScript numbers holding
    integers; they are carried as [Z].  The bitwise operators of JavaScript
    work on 32-bit integers: [&] and [~] convert their operands with
    [ToInt32], [>>>] with [ToUint32]. *)

Definition ToUint32 (x : Z) : Z := x mod 2 ^ 32.

Definition ToInt32 (x : Z) : Z := (x + 2 ^ 31) mod 2 ^ 32 - 2 ^ 31.

(** [a & b] *)
Definition js_and (a b : Z) : Z := Z.land (ToInt32 a) (ToInt32 b).

(** [~a] *)
Definition js_not (a : Z) : Z := Z.lnot (ToInt32 a).

(** [a >>> n] *)
Definition js_ushr (a n : Z) : Z := Z.shiftr (ToUint32 a) n.

(** conduit.ts, [alignUp]:
<<
  const mask = bytes - 1
  return (x + mask) & ~mask
>> *)
Definition alignUp (x bytes : Z) : Z :=
  let mask := bytes - 1 in
  js_and (x + mask) (js_not mask).

(* ===================================================================== *)
(** * Exceptions and the state monad of a channel method *)
(* ===================================================================== *)

Inductive Exn : Type :=
  | ReachedEndOfChannel      (* Error('Reached end of channel') *)
  | AssertionFailed          (* Error('Assertion failed'), from [assert] *)
  | RangeError               (* raised by the typed-array primitives *)
  | NaNCursor.               (* an [undefined] length was added to the cursor;
                                the embedding stops there *)

Inductive Res (A : Type) : Type :=
  | Ok (a : A)
  | Throw (e : Exn).
Arguments Ok {A} a.
Arguments Throw {A} e.

#[global] Instance Exn_eq_dec : EqDecision Exn.
Proof. solve_decision. Defined.

(** The elements a typed-array view can have. *)
Inductive ElemType : Type := Uint8 | Uint32 | Int32 | Float32 | Float64.

#[global] Instance ElemType_eq_dec : EqDecision ElemType.
Proof. solve_decision. Defined.

Definition BYTES_PER_ELEMENT (ty : ElemType) : Z :=
  match ty with
  | Uint8 => 1
  | Uint32 | Int32 | Float32 => 4
  | Float64 => 8
  end.

(** [class Channel]: the private cursor [offset] and the five typed views
    [storageUint8 .. storageFloat64].  All five views are created over the
    same [(buffer, offset, sizeInBytes)] window, so the object is described
    by the window ([byteOffset], [sizeInBytes]) and the cursor. *)
Record Channel : Type := mkChannel {
  byteOffset  : Z;      (* second constructor argument *)
  sizeInBytes : Z;      (* third constructor argument  *)
  offset      : Z       (* private offset = 0          *)
}.

(** A method runs on a channel object ([this]) and on the ArrayBuffer the
    views alias ([buffer], one byte per entry).  A thrown error leaves the
    state as it was at the [throw]. *)
Record State : Type := mkState {
  this   : Channel;
  buffer : list Z
}.

Definition M (A : Type) : Type := State -> Res A * State.

Definition ret {A} (a : A) : M A := fun st => (Ok a, st).

Definition throw {A} (e : Exn) : M A := fun st => (Throw e, st).

Definition bind {A B} (m : M A) (k : A -> M B) : M B :=
  fun st =>
    match m st with
    | (Ok a, st') => k a st'
    | (Throw e, st') => (Throw e, st')
    end.

(** [try { m } catch (e) { h e }] *)
Definition try_catch {A} (m : M A) (h : Exn -> M A) : M A :=
  fun st =>
    match m st with
    | (Ok a, st') => (Ok a, st')
    | (Throw e, st') => h e st'
    end.

Notation "x <- m ;; k" := (bind m (fun x => k))
  (at level 100, m at next level, right associativity).
Notation "m ;; k" := (bind m (fun _ => k))
  (at level 100, right associativity).

Definition get_offset : M Z := fun st => (Ok (offset (this st)), st).

Definition set_offset (o : Z) : M unit :=
  fun st =>
    (Ok tt,
     mkState (mkChannel (byteOffset (this st)) (sizeInBytes (this st)) o)
             (buffer st)).

(* ===================================================================== *)
(** * Typed-array views *)
(* ===================================================================== *)

(** Little-endian bytes of the low [8 * n] bits of [v]. *)
Fixpoint le_bytes (n : nat) (v : Z) : list Z :=
  match n with
  | O => []
  | S n' => (v mod 256) :: le_bytes n' (v / 256)
  end.

Fixpoint le_value (bs : list Z) : Z :=
  match bs with
  | [] => 0
  | b :: bs' => b + 256 * le_value bs'
  end.

Definition width (ty : ElemType) : nat := Z.to_nat (BYTES_PER_ELEMENT ty).

(** What a view stores for a number.  The integer views wrap modulo their
    width.  A float is carried by its IEEE-754 bit pattern (binary32 for
    Float32Array, binary64 for Float64Array): the pattern is what the store
    puts in memory, the conversion between a number and its pattern is the
    engine's. *)
Definition encode (ty : ElemType) (v : Z) : list Z := le_bytes (width ty) v.

Definition decode (ty : ElemType) (bs : list Z) : Z :=
  match ty with
  | Int32 => ToInt32 (le_value bs)
  | _ => le_value bs
  end.

(** The values a view holds exactly. *)
Definition in_range (ty : ElemType) (v : Z) : Prop :=
  match ty with
  | Uint8 => 0 <= v < 2 ^ 8
  | Uint32 | Float32 => 0 <= v < 2 ^ 32
  | Int32 => - 2 ^ 31 <= v < 2 ^ 31
  | Float64 => 0 <= v < 2 ^ 64
  end.

(** [view.length] of the view of type [ty] of a channel. *)
Definition view_length (ty : ElemType) (c : Channel) : Z :=
  sizeInBytes c / BYTES_PER_ELEMENT ty.

Definition load_bytes (a : Z) (n : nat) (b : list Z) : list Z :=
  take n (drop (Z.to_nat a) b).

Definition store_bytes (a : Z) (bs : list Z) (b : list Z) : list Z :=
  list_inserts (Z.to_nat a) bs b.

(** [this.storageT[i] = value]: an index outside the view is ignored. *)
Definition storage_set (ty : ElemType) (i value : Z) : M unit :=
  fun st =>
    let c := this st in
    if (0 <=? i) && (i <? view_length ty c) then
      (Ok tt,
       mkState c (store_bytes (byteOffset c + i * BYTES_PER_ELEMENT ty)
                              (encode ty value) (buffer st)))
    else (Ok tt, st).

(** [this.storageT[i]]: [None] is [undefined]. *)
Definition storage_get (ty : ElemType) (i : Z) : M (option Z) :=
  fun st =>
    let c := this st in
    if (0 <=? i) && (i <? view_length ty c) then
      (Ok (Some (decode ty (load_bytes (byteOffset c + i * BYTES_PER_ELEMENT ty)
                                       (width ty) (buffer st)))), st)
    else (Ok None, st).

(** [this.storageT.set(arr, start)]: RangeError when the source does not fit. *)
Definition storage_set_all (ty : ElemType) (arr : list Z) (start : Z) : M unit :=
  fun st =>
    let c := this st in
    if (start <? 0) || (view_length ty c <? start + Z.of_nat (length arr)) then
      (Throw RangeError, st)
    else
      (Ok tt,
       mkState c (store_bytes (byteOffset c + start * BYTES_PER_ELEMENT ty)
                              (mjoin (encode ty <$> arr)) (buffer st))).

(** A typed array obtained with [subarray]: a window into the same buffer. *)
Record View : Type := mkView {
  view_type   : ElemType;
  view_offset : Z;       (* byteOffset inside the ArrayBuffer *)
  view_len    : Z        (* length in elements *)
}.

(** Relative index of [subarray]/[slice]: negative counts from the end,
    everything is clamped to [0, len]. *)
Definition relative_index (len i : Z) : Z :=
  if i <? 0 then Z.max (len + i) 0 else Z.min i len.

(** [this.storageT.subarray(begin, end)] *)
Definition storage_subarray (ty : ElemType) (begin_ end_ : Z) : M View :=
  fun st =>
    let c := this st in
    let len := view_length ty c in
    let b := relative_index len begin_ in
    let e := relative_index len end_ in
    (Ok (mkView ty (byteOffset c + b * BYTES_PER_ELEMENT ty) (Z.max (e - b) 0)), st).

Fixpoint chunks (w : nat) (n : nat) (bs : list Z) : list (list Z) :=
  match n with
  | O => []
  | S n' => take w bs :: chunks w n' (drop w bs)
  end.

(** The elements seen through a view, [Array.from(view)]. *)
Definition view_elements (v : View) (b : list Z) : list Z :=
  decode (view_type v) <$>
    chunks (width (view_type v)) (Z.to_nat (view_len v))
           (drop (Z.to_nat (view_offset v)) b).

(** [view[i] = value] on a view returned by [subarray]. *)
Definition view_set (v : View) (i value : Z) : M unit :=
  fun st =>
    if (0 <=? i) && (i <? view_len v) then
      (Ok tt,
       mkState (this st)
               (store_bytes (view_offset v + i * BYTES_PER_ELEMENT (view_type v))
                            (encode (view_type v) value) (buffer st)))
    else (Ok tt, st).

(* ===================================================================== *)
(** * class Channel *)
(* ===================================================================== *)

(** [assert(condition)] *)
Definition assert (condition : bool) : Res unit :=
  if condition then Ok tt else Throw AssertionFailed.

(** [constructor(buffer, offset = 0, sizeInBytes = buffer.byteLength)].
    After the three assertions, creating the views can still fail with a
    RangeError when [offset] or [sizeInBytes] is negative. *)
Definition Channel_new (buf : list Z) (offset_ sizeInBytes_ : option Z) : Res Channel :=
  let o := default 0 offset_ in
  let s := default (Z.of_nat (length buf)) sizeInBytes_ in
  match assert (Z.rem o 8 =? 0) with
  | Throw e => Throw e
  | Ok _ =>
    match assert (Z.rem s 8 =? 0) with
    | Throw e => Throw e
    | Ok _ =>
      match assert (o + s <=? Z.of_nat (length buf)) with
      | Throw e => Throw e
      | Ok _ =>
        if (o <? 0) || (s <? 0) then Throw RangeError
        else Ok (mkChannel o s 0)
      end
    end
  end.

Definition reset : M unit := set_offset 0.

Definition offset8 : M Z := get_offset.

Definition offset32 : M Z :=
  o <- get_offset ;;
  set_offset (alignUp o 4) ;;
  o' <- get_offset ;;
  ret (js_ushr o' 2).

Definition offset64 : M Z :=
  o <- get_offset ;;
  set_offset (alignUp o 8) ;;
  o' <- get_offset ;;
  ret (js_ushr o' 3).

Definition advance8 (count : Z) : M unit :=
  fun st =>
    let next := offset (this st) + count in
    if sizeInBytes (this st) <? next          (* next > this.storageUint8.length *)
    then (Throw ReachedEndOfChannel, st)
    else set_offset next st.

Definition advance32 (count : Z) : M unit := advance8 (count * 4).

Definition advance64 (count : Z) : M unit := advance8 (count * 8).

(** The five families of methods differ only in the view they use:
    [offset8]/[advance8] with [storageUint8], [offset32]/[advance32] with
    [storageUint32], [storageInt32] and [storageFloat32],
    [offset64]/[advance64] with [storageFloat64]. *)
Definition offsetOf (ty : ElemType) : M Z :=
  match ty with
  | Uint8 => offset8
  | Uint32 | Int32 | Float32 => offset32
  | Float64 => offset64
  end.

Definition advanceOf (ty : ElemType) (count : Z) : M unit :=
  match ty with
  | Uint8 => advance8 count
  | Uint32 | Int32 | Float32 => advance32 count
  | Float64 => advance64 count
  end.

(* ===================================================================== *)
(** * class Writer extends Channel *)
(* ===================================================================== *)

Module Writer.

(** [writeUint8 .. writeFloat64]:
<<
  const offset = this.offsetN()
  this.advanceN(1)
  this.storageT[offset] = value
>> *)
Definition write (ty : ElemType) (value : Z) : M unit :=
  offset <- offsetOf ty ;;
  advanceOf ty 1 ;;
  storage_set ty offset value.

Definition writeUint8   : Z -> M unit := write Uint8.
Definition writeUint32  : Z -> M unit := write Uint32.
Definition writeInt32   : Z -> M unit := write Int32.
Definition writeFloat32 : Z -> M unit := write Float32.
Definition writeFloat64 : Z -> M unit := write Float64.

(** [initUint8 .. initFloat64]: reserve one element and hand back the
    closure [value => { this.storageT[offset] = value }]. *)
Definition init (ty : ElemType) : M (Z -> M unit) :=
  offset <- offsetOf ty ;;
  advanceOf ty 1 ;;
  ret (fun value => storage_set ty offset value).

Definition initUint8   : M (Z -> M unit) := init Uint8.
Definition initUint32  : M (Z -> M unit) := init Uint32.
Definition initInt32   : M (Z -> M unit) := init Int32.
Definition initFloat32 : M (Z -> M unit) := init Float32.
Definition initFloat64 : M (Z -> M unit) := init Float64.

(** [initUint8Elements .. initFloat64Elements]:
<<
  const start = this.offsetN()
  this.advanceN(length)
  return this.storageT.subarray(start, start + length)
>> *)
Definition initElements (ty : ElemType) (length : Z) : M View :=
  start <- offsetOf ty ;;
  advanceOf ty length ;;
  storage_subarray ty start (start + length).

Definition initUint8Elements   : Z -> M View := initElements Uint8.
Definition initUint32Elements  : Z -> M View := initElements Uint32.
Definition initInt32Elements   : Z -> M View := initElements Int32.
Definition initFloat32Elements : Z -> M View := initElements Float32.
Definition initFloat64Elements : Z -> M View := initElements Float64.

(** [initUint8Array .. initFloat64Array]:
<<
  this.writeUint32(length)
  return this.initTElements(length)
>> *)
Definition initArray (ty : ElemType) (length : Z) : M View :=
  writeUint32 length ;;
  initElements ty length.

Definition initUint8Array   : Z -> M View := initArray Uint8.
Definition initUint32Array  : Z -> M View := initArray Uint32.
Definition initInt32Array   : Z -> M View := initArray Int32.
Definition initFloat32Array : Z -> M View := initArray Float32.
Definition initFloat64Array : Z -> M View := initArray Float64.

(** [copyUint8Elements .. copyFloat64Elements]:
<<
  const start = this.offsetN()
  this.advanceN(arr.length)
  this.storageT.set(arr, start)
>> *)
Definition copyElements (ty : ElemType) (arr : list Z) : M unit :=
  start <- offsetOf ty ;;
  advanceOf ty (Z.of_nat (length arr)) ;;
  storage_set_all ty arr start.

Definition copyUint8Elements   : list Z -> M unit := copyElements Uint8.
Definition copyUint32Elements  : list Z -> M unit := copyElements Uint32.
Definition copyInt32Elements   : list Z -> M unit := copyElements Int32.
Definition copyFloat32Elements : list Z -> M unit := copyElements Float32.
Definition copyFloat64Elements : list Z -> M unit := copyElements Float64.

(** [copyUint8Array .. copyFloat64Array]:
<<
  this.writeUint32(arr.length)
  this.copyTElements(arr)
>> *)
Definition copyArray (ty : ElemType) (arr : list Z) : M unit :=
  writeUint32 (Z.of_nat (length arr)) ;;
  copyElements ty arr.

Definition copyUint8Array   : list Z -> M unit := copyArray Uint8.
Definition copyUint32Array  : list Z -> M unit := copyArray Uint32.
Definition copyInt32Array   : list Z -> M unit := copyArray Int32.
Definition copyFloat32Array : list Z -> M unit := copyArray Float32.
Definition copyFloat64Array : list Z -> M unit := copyArray Float64.

(** The loop of [writeAsciiString], [for (let i = value.length; i-- > 0; )
    data[i] = value.charCodeAt(i)], over the code units of the string. *)
Fixpoint fill_from_end (data : View) (units : list Z) (i : nat) : M unit :=
  match i with
  | O => ret tt
  | S i' =>
      view_set data (Z.of_nat i') (nth i' units 0) ;;
      fill_from_end data units i'
  end.

(** [writeAsciiString(value)]; [value] is given by its UTF-16 code units. *)
Definition writeAsciiString (value : list Z) : M unit :=
  data <- initUint8Array (Z.of_nat (length value)) ;;
  fill_from_end data value (length value).

(** [writeUtf8String(value)]: [copyUint8Array(textEncoder.encode(value))].
    The encoder is the platform's [TextEncoder], a parameter here. *)
Definition writeUtf8String {S : Type} (textEncoder : S -> list Z) (value : S) : M unit :=
  copyUint8Array (textEncoder value).

End Writer.

(* ===================================================================== *)
(** * class Reader extends Channel *)
(* ===================================================================== *)

Module Reader.

(** [readUint8 .. readFloat64]:
<<
  const offset = this.offsetN()
  this.advanceN(1)
  return this.storageT[offset]
>> *)
Definition read (ty : ElemType) : M (option Z) :=
  offset <- offsetOf ty ;;
  advanceOf ty 1 ;;
  storage_get ty offset.

Definition readUint8   : M (option Z) := read Uint8.
Definition readUint32  : M (option Z) := read Uint32.
Definition readInt32   : M (option Z) := read Int32.
Definition readFloat32 : M (option Z) := read Float32.
Definition readFloat64 : M (option Z) := read Float64.

(** [readUint8Elements .. readFloat64Elements]:
<<
  const start = this.offsetN()
  this.advanceN(length)
  return this.storageT.subarray(start, start + length)
>> *)
Definition readElements (ty : ElemType) (length : Z) : M View :=
  start <- offsetOf ty ;;
  advanceOf ty length ;;
  storage_subarray ty start (start + length).

Definition readUint8Elements   : Z -> M View := readElements Uint8.
Definition readUint32Elements  : Z -> M View := readElements Uint32.
Definition readInt32Elements   : Z -> M View := readElements Int32.
Definition readFloat32Elements : Z -> M View := readElements Float32.
Definition readFloat64Elements : Z -> M View := readElements Float64.

(** [readUint8Array .. readFloat64Array]:
<<
  const length = this.readUint32()
  return this.readTElements(length)
>>
    An [undefined] length would turn the cursor into NaN. *)
Definition readArray (ty : ElemType) : M View :=
  length <- readUint32 ;;
  match length with
  | Some n => readElements ty n
  | None => throw NaNCursor
  end.

Definition readUint8Array   : M View := readArray Uint8.
Definition readUint32Array  : M View := readArray Uint32.
Definition readInt32Array   : M View := readArray Int32.
Definition readFloat32Array : M View := readArray Float32.
Definition readFloat64Array : M View := readArray Float64.

(** [readUint8Arrays .. readFloat64Arrays]:
    [for (let i = 0; i < count; i++) result[i] = this.readTArray()] *)
Fixpoint readArrays (ty : ElemType) (count : nat) : M (list View) :=
  match count with
  | O => ret []
  | S count' =>
      v <- readArray ty ;;
      vs <- readArrays ty count' ;;
      ret (v :: vs)
  end.

(** [decoder.decode(data)] on the elements seen through the view; the
    decoders ([asciiDecoder], [textDecoder]) are the platform's, parameters
    here. *)
Definition decode_view {S : Type} (decoder : list Z -> S) (data : View) : M S :=
  fun st => (Ok (decoder (view_elements data (buffer st))), st).

(** [readAsciiString]: [asciiDecoder.decode(this.readUint8Array())] *)
Definition readAsciiString {S : Type} (asciiDecoder : list Z -> S) : M S :=
  data <- readUint8Array ;;
  decode_view asciiDecoder data.

Fixpoint readAsciiStrings {S : Type} (asciiDecoder : list Z -> S) (count : nat)
  : M (list S) :=
  match count with
  | O => ret []
  | S count' =>
      r <- readAsciiString asciiDecoder ;;
      rs <- readAsciiStrings asciiDecoder count' ;;
      ret (r :: rs)
  end.

(** [readUtf8String]:
<<
  const length = this.readUint32()
  const data = this.readUint8Elements(length)
  return textDecoder.decode(data)
>> *)
Definition readUtf8String {S : Type} (textDecoder : list Z -> S) : M S :=
  length <- readUint32 ;;
  match length with
  | Some n =>
      data <- readUint8Elements n ;;
      decode_view textDecoder data
  | None => throw NaNCursor
  end.

Fixpoint readUtf8Strings {S : Type} (textDecoder : list Z -> S) (count : nat)
  : M (list S) :=
  match count with
  | O => ret []
  | S count' =>
      r <- readUtf8String textDecoder ;;
      rs <- readUtf8Strings textDecoder count' ;;
      ret (r :: rs)
  end.

End Reader.

(* ===================================================================== *)
(** * interop.ts: createInstance *)
(* ===================================================================== *)

Module Interop.

(** Objects are compared with [===] / [!==] by identity; an identity is a
    number taken from the allocation counter of the host. *)
Definition Ref : Type := nat.

(** [WebAssembly.Memory]: the object, its current [buffer] (an ArrayBuffer
    object, replaced by [grow]), the contents and the declared maximum. *)
Record Memory : Type := mkMemory {
  memory_ref : Ref;
  buffer_ref : Ref;
  bytes      : list Z;
  maximum    : option Z
}.

(** [memory.buffer.byteLength] *)
Definition byteLength (m : Memory) : Z := Z.of_nat (length (bytes m)).

(** What an import namespace can hold. *)
Inductive ImportValue : Type :=
  | ImportFunction (f : Ref)
  | ImportMemory (m : Ref)
  | ImportNumber (n : Z).

#[global] Instance ImportValue_eq_dec : EqDecision ImportValue.
Proof. solve_decision. Defined.

(** [WebAssembly.Imports]: namespaces of named values. *)
Abbreviation ModuleImports := (gmap string ImportValue).
Abbreviation Imports := (gmap string (gmap string ImportValue)).

(** [const baseImports = imports ?? {}]
    [const env = { ...(baseImports.env ?? {}), memory, hostLog: ... }] *)
Definition env_of (imports : option Imports) (memory hostLog : ImportValue) : ModuleImports :=
  let baseImports := default ∅ imports in
  <["hostLog" := hostLog]> (<["memory" := memory]> (default ∅ (baseImports !! "env"))).

(** [const finalImports = { ...baseImports, env }] *)
Definition finalImports (imports : option Imports) (memory hostLog : ImportValue) : Imports :=
  let baseImports := default ∅ imports in
  <["env" := env_of imports memory hostLog]> baseImports.

(** The closure variables [buffer] and [instance] of one [createView] call;
    [None] is [undefined].  A view object is its identity and its state. *)
Record Cell (T : Type) : Type := mkCell {
  cell_buffer   : option Ref;
  cell_instance : option (Ref * T)
}.
Arguments mkCell {T} _ _.
Arguments cell_buffer {T} _.
Arguments cell_instance {T} _.

Definition empty_cell {T} : Cell T := mkCell None None.

(** A [Uint8ClampedArray] over a window of the buffer. *)
Record ByteView : Type := mkByteView {
  bv_offset : Z;
  bv_length : Z
}.

(** [new Uint8ClampedArray(buffer, byteOffset, length)] *)
Definition ByteView_new (buf : list Z) (byteOffset_ length_ : Z) : Res ByteView :=
  if (byteOffset_ <? 0) || (length_ <? 0)
     || (Z.of_nat (length buf) <? byteOffset_ + length_)
  then Throw RangeError
  else Ok (mkByteView byteOffset_ length_).

(** [new Uint8ClampedArray(buffer)] *)
Definition ByteView_whole (buf : list Z) : Res ByteView :=
  Ok (mkByteView 0 (Z.of_nat (length buf))).

(** The elements of a byte view. *)
Definition bv_data (v : ByteView) (buf : list Z) : list Z :=
  take (Z.to_nat (bv_length v)) (drop (Z.to_nat (bv_offset v)) buf).

(** The state of an instance: the memory, the allocation counter, the
    addresses fixed at bootstrap and the five cached views. *)
Record Instance : Type := mkInstance {
  memory  : Memory;
  next_ref : Ref;
  logPtr : Z;
  errPtr : Z;
  inputPtr : Z;
  outputPtr : Z;
  inputChannelSize : Z;
  outputChannelSize : Z;
  bytesCell : Cell ByteView;          (* getBytes *)
  logDataCell : Cell ByteView;        (* getLogData *)
  errorDataCell : Cell ByteView;      (* getErrorData *)
  inputChannelCell : Cell Channel;    (* getInputChannel *)
  outputChannelCell : Cell Channel    (* getOutputChannel *)
}.

(** The getter returned by [createView(createFunc)]:
<<
  if (instance === undefined || memory.buffer !== buffer) {
    buffer = memory.buffer
    instance = createFunc(buffer)
  }
  return instance
>>
    It works on the memory, the allocation counter and its own cell.  When
    [createFunc] throws, [buffer] has been assigned and [instance] has not. *)
Definition get_view {T} (createFunc : list Z -> Res T)
    (m : Memory) (next : Ref) (cell : Cell T) : Res (Ref * T) * Ref * Cell T :=
  let rebuild :=
    match createFunc (bytes m) with
    | Ok v => (Ok (next, v), S next, mkCell (Some (buffer_ref m)) (Some (next, v)))
    | Throw e => (Throw e, next, mkCell (Some (buffer_ref m)) (cell_instance cell))
    end in
  match cell_instance cell with
  | None => rebuild
  | Some inst =>
      if decide (cell_buffer cell = Some (buffer_ref m)) then (Ok inst, next, cell)
      else rebuild
  end.

Section Constants.
Variables MAX_LOG_SIZE MAX_ERROR_SIZE PAGE_SIZE DEFAULT_INITIAL_PAGES : Z.

(** [new WebAssembly.Memory({ initial })]: two fresh objects, zeroed pages. *)
Definition Memory_new (initial : Z) (next : Ref) : Memory * Ref :=
  (mkMemory next (S next) (replicate (Z.to_nat (initial * PAGE_SIZE)) 0) None,
   S (S next)).

(** [memory.grow(delta)]: RangeError beyond the maximum; otherwise the old
    buffer is detached and a new, longer ArrayBuffer takes its place. *)
Definition Memory_grow (delta : Z) (m : Memory) (next : Ref) : Res (Memory * Ref) :=
  let pages := byteLength m / PAGE_SIZE in
  let over := match maximum m with
              | Some mx => mx <? pages + delta
              | None => false
              end in
  if (delta <? 0) || over then Throw RangeError
  else Ok (mkMemory (memory_ref m) next
                    (bytes m ++ replicate (Z.to_nat (delta * PAGE_SIZE)) 0)
                    (maximum m),
           S next).

(** [Math.ceil(delta / PAGE_SIZE)] on integers. *)
Definition ceil_div (a b : Z) : Z := (a + b - 1) / b.

(** [Math.max(inputPtr + inputChannelSize, outputPtr + outputChannelSize,
              logPtr + MAX_LOG_SIZE, errPtr + MAX_ERROR_SIZE)] *)
Definition requiredBytes (inputPtr_ inputChannelSize_ outputPtr_ outputChannelSize_
                          logPtr_ errPtr_ : Z) : Z :=
  Z.max (inputPtr_ + inputChannelSize_)
    (Z.max (outputPtr_ + outputChannelSize_)
       (Z.max (logPtr_ + MAX_LOG_SIZE) (errPtr_ + MAX_ERROR_SIZE))).

(** <<
  if (memory.buffer.byteLength < requiredBytes) {
    const delta = requiredBytes - memory.buffer.byteLength
    const additionalPages = Math.ceil(delta / PAGE_SIZE)
    if (additionalPages > 0) { memory.grow(additionalPages) }
  }
>> *)
Definition grow_to_cover (required : Z) (m : Memory) (next : Ref) : Res (Memory * Ref) :=
  if byteLength m <? required then
    let delta := required - byteLength m in
    let additionalPages := ceil_div delta PAGE_SIZE in
    if 0 <? additionalPages then Memory_grow additionalPages m next
    else Ok (m, next)
  else Ok (m, next).

(** The options of [createInstance]. *)
Record InstanceOptions : Type := mkOptions {
  opt_inputChannelSize : Z;
  opt_outputChannelSize : Z;
  opt_initialMemoryPages : option Z;
  opt_imports : option Imports;
  opt_memory : option Memory
}.

(** What instantiation hands back: the exports the bootstrap calls, and the
    memory the module exports, if it does. *)
Record Exports : Type := mkExports {
  getLogPtr : Z;
  getErrorPtr : Z;
  allocateInputChannel : Z -> Z;
  allocateOutputChannel : Z -> Z;
  exportedMemory : option Memory
}.

(** [createInstance(wasmBuffer, options)].  [instantiate] stands for
    [WebAssembly.instantiate(wasmBuffer, _)]; [hostLog] is the identity of
    the closure installed as [env.hostLog]. *)
Definition createInstance (instantiate : Imports -> Res Exports)
    (options : InstanceOptions) (next : Ref) : Res Instance :=
  let '(memory0, next1) :=
    match opt_memory options with
    | Some m => (m, next)
    | None => Memory_new (default DEFAULT_INITIAL_PAGES (opt_initialMemoryPages options)) next
    end in
  let hostLog := next1 in
  let next2 := S next1 in
  match instantiate (finalImports (opt_imports options)
                       (ImportMemory (memory_ref memory0)) (ImportFunction hostLog)) with
  | Throw e => Throw e
  | Ok exports =>
    let memory1 :=
      match exportedMemory exports with
      | Some em => if decide (memory_ref em = memory_ref memory0) then memory0 else em
      | None => memory0
      end in
    let logPtr_ := getLogPtr exports in
    let errPtr_ := getErrorPtr exports in
    let inputPtr_ := allocateInputChannel exports (opt_inputChannelSize options) in
    let outputPtr_ := allocateOutputChannel exports (opt_outputChannelSize options) in
    let required :=
      requiredBytes inputPtr_ (opt_inputChannelSize options)
                    outputPtr_ (opt_outputChannelSize options) logPtr_ errPtr_ in
    match grow_to_cover required memory1 next2 with
    | Throw e => Throw e
    | Ok (memory2, next3) =>
      Ok (mkInstance memory2 next3 logPtr_ errPtr_ inputPtr_ outputPtr_
            (opt_inputChannelSize options) (opt_outputChannelSize options)
            empty_cell empty_cell empty_cell empty_cell empty_cell)
    end
  end.

(** ** The methods of an instance *)

Definition set_memory (i : Instance) (m : Memory) : Instance :=
  mkInstance m (next_ref i) (logPtr i) (errPtr i) (inputPtr i) (outputPtr i)
    (inputChannelSize i) (outputChannelSize i) (bytesCell i) (logDataCell i)
    (errorDataCell i) (inputChannelCell i) (outputChannelCell i).

Definition set_errorData (i : Instance) (next : Ref) (c : Cell ByteView) : Instance :=
  mkInstance (memory i) next (logPtr i) (errPtr i) (inputPtr i) (outputPtr i)
    (inputChannelSize i) (outputChannelSize i) (bytesCell i) (logDataCell i)
    c (inputChannelCell i) (outputChannelCell i).

Definition set_inputChannel (i : Instance) (next : Ref) (c : Cell Channel) : Instance :=
  mkInstance (memory i) next (logPtr i) (errPtr i) (inputPtr i) (outputPtr i)
    (inputChannelSize i) (outputChannelSize i) (bytesCell i) (logDataCell i)
    (errorDataCell i) c (outputChannelCell i).

Definition set_outputChannel (i : Instance) (next : Ref) (c : Cell Channel) : Instance :=
  mkInstance (memory i) next (logPtr i) (errPtr i) (inputPtr i) (outputPtr i)
    (inputChannelSize i) (outputChannelSize i) (bytesCell i) (logDataCell i)
    (errorDataCell i) (inputChannelCell i) c.

(** [getErrorData = createView(buffer => new Uint8ClampedArray(buffer, errPtr, MAX_ERROR_SIZE))] *)
Definition getErrorData (i : Instance) : Res (Ref * ByteView) * Instance :=
  let '(r, next, cell) :=
    get_view (fun buf => ByteView_new buf (errPtr i) MAX_ERROR_SIZE)
             (memory i) (next_ref i) (errorDataCell i) in
  (r, set_errorData i next cell).

(** [getBytes = createView(buffer => new Uint8ClampedArray(buffer))] *)
Definition getBytes (i : Instance) : Res (Ref * ByteView) * Instance :=
  let '(r, next, cell) :=
    get_view ByteView_whole (memory i) (next_ref i) (bytesCell i) in
  (r, mkInstance (memory i) next (logPtr i) (errPtr i) (inputPtr i) (outputPtr i)
        (inputChannelSize i) (outputChannelSize i) cell (logDataCell i)
        (errorDataCell i) (inputChannelCell i) (outputChannelCell i)).

(** [getLogData = createView(buffer => new Uint8ClampedArray(buffer, logPtr, MAX_LOG_SIZE))] *)
Definition getLogData (i : Instance) : Res (Ref * ByteView) * Instance :=
  let '(r, next, cell) :=
    get_view (fun buf => ByteView_new buf (logPtr i) MAX_LOG_SIZE)
             (memory i) (next_ref i) (logDataCell i) in
  (r, mkInstance (memory i) next (logPtr i) (errPtr i) (inputPtr i) (outputPtr i)
        (inputChannelSize i) (outputChannelSize i) (bytesCell i) cell
        (errorDataCell i) (inputChannelCell i) (outputChannelCell i)).

(** [getInputChannel = createView(buffer => new Writer(buffer, inputPtr, inputChannelSize))] *)
Definition getInputChannel (i : Instance) : Res (Ref * Channel) * Instance :=
  let '(r, next, cell) :=
    get_view (fun buf => Channel_new buf (Some (inputPtr i)) (Some (inputChannelSize i)))
             (memory i) (next_ref i) (inputChannelCell i) in
  (r, set_inputChannel i next cell).

(** [getOutputChannel = createView(buffer => new Reader(buffer, outputPtr, outputChannelSize))] *)
Definition getOutputChannel (i : Instance) : Res (Ref * Channel) * Instance :=
  let '(r, next, cell) :=
    get_view (fun buf => Channel_new buf (Some (outputPtr i)) (Some (outputChannelSize i)))
             (memory i) (next_ref i) (outputChannelCell i) in
  (r, set_outputChannel i next cell).

(** [input.reset()] on the object held by a cell. *)
Definition reset_cell (c : Cell Channel) : Cell Channel :=
  match cell_instance c with
  | Some (ref, ch) =>
      mkCell (cell_buffer c) (Some (ref, mkChannel (byteOffset ch) (sizeInBytes ch) 0))
  | None => c
  end.

(** [getInput]:
<<
  const input = getInputChannel()
  input.reset()
  return input
>>
    The result is the identity of the Writer; the object itself stays in
    the cell, where later calls find it. *)
Definition getInput (i : Instance) : Res Ref * Instance :=
  match getInputChannel i with
  | (Ok (ref, _), i') =>
      (Ok ref, set_inputChannel i' (next_ref i') (reset_cell (inputChannelCell i')))
  | (Throw e, i') => (Throw e, i')
  end.

(** [getOutput], the same on the output channel. *)
Definition getOutput (i : Instance) : Res Ref * Instance :=
  match getOutputChannel i with
  | (Ok (ref, _), i') =>
      (Ok ref, set_outputChannel i' (next_ref i') (reset_cell (outputChannelCell i')))
  | (Throw e, i') => (Throw e, i')
  end.


(** The same for the Reader that [getOutput] returned. *)
Definition on_output {A} (m : M A) (i : Instance) : option (Res A * Instance) :=
  match cell_instance (outputChannelCell i) with
  | Some (ref, ch) =>
      if decide (cell_buffer (outputChannelCell i) = Some (buffer_ref (memory i))) then
        let '(r, st') := m (mkState ch (bytes (memory i))) in
        Some (r,
              set_outputChannel
                (set_memory i (mkMemory (memory_ref (memory i)) (buffer_ref (memory i))
                                        (buffer st') (maximum (memory i))))
                (next_ref i)
                (mkCell (cell_buffer (outputChannelCell i)) (Some (ref, this st'))))
      else None
  | None => None
  end.

(** ** handleError *)

(** How the raw call ends: with a return code, or by throwing a value
    ([None] is a thrown [undefined]). *)
Inductive RawResult : Type :=
  | Returned (code : Z)
  | Raised (e : option Ref).

(** How [handleError] ends.  [ThrowMessage bs] is [throw Error(message)],
    the message being [decoder.decode] of the bytes [bs]. *)
Inductive Handled : Type :=
  | NoError
  | ThrowMessage (message : list Z)
  | Rethrow (e : Ref)
  | ThrowUnknown                       (* Error('Unknown error') *)
  | ThrowOther (e : Exn).              (* the error view could not be built *)

(** [data.indexOf(0)], [-1] when there is none. *)
Fixpoint indexOf0 (data : list Z) : Z :=
  match data with
  | [] => -1
  | b :: data' =>
      if b =? 0 then 0
      else let r := indexOf0 data' in if r =? -1 then -1 else r + 1
  end.

(** [hostLog]:
<<
  const data = getLogData()
  const length = data.indexOf(0)
  const messageLength = length === -1 ? data.length : length
  log(decoder.decode(data.subarray(0, messageLength)))
>>
    The result is the bytes of the message handed to [log]. *)
Definition hostLog (i : Instance) : Res (list Z) * Instance :=
  match getLogData i with
  | (Throw x, i') => (Throw x, i')
  | (Ok (_, view), i') =>
      let data := bv_data view (bytes (memory i')) in
      let length_ := indexOf0 data in
      let messageLength := if length_ =? -1 then Z.of_nat (length data) else length_ in
      (Ok (take (Z.to_nat messageLength) data), i')
  end.

(** [throwWasmError(e?)]:
<<
  const data = getErrorData()
  const length = data.indexOf(0)
  const messageLength = length === -1 ? data.length : length
  if (messageLength > 0) {
    throw Error(decoder.decode(data.subarray(0, messageLength)))
  } else if (e !== undefined) { throw e } else { throw Error('Unknown error') }
>> *)
Definition throwWasmError (e : option Ref) (i : Instance) : Handled * Instance :=
  match getErrorData i with
  | (Throw x, i') => (ThrowOther x, i')
  | (Ok (_, view), i') =>
      let data := bv_data view (bytes (memory i')) in
      let length_ := indexOf0 data in
      let messageLength := if length_ =? -1 then Z.of_nat (length data) else length_ in
      if 0 <? messageLength then
        (ThrowMessage (take (Z.to_nat messageLength) data), i')
      else
        match e with
        | Some x => (Rethrow x, i')
        | None => (ThrowUnknown, i')
        end
  end.

(** [handleError(func)]:
<<
  let result
  try { result = func() } catch (e) { throwWasmError(e as Error) }
  if (result !== 0) { throwWasmError() }
>>
    [func] is the raw call; it runs on the instance (the module may write
    the error buffer) and ends as a [RawResult]. *)
Definition handleError (func : Instance -> RawResult * Instance) (i : Instance)
  : Handled * Instance :=
  match func i with
  | (Raised e, i') => throwWasmError e i'
  | (Returned result, i') =>
      if negb (result =? 0) then throwWasmError None i'
      else (NoError, i')
  end.

End Constants.

End Interop.

(* ===================================================================== *)
(** * interop.zig: the channels of the module *)
(* ===================================================================== *)

Module Zig.

(** [[]u64]: the address of the first element and the number of elements. *)
Record Slice : Type := mkSlice {
  slice_ptr : Z;
  slice_len : Z
}.

Inductive ConduitKind : Type := ReaderKind | WriterKind.

#[global] Instance ConduitKind_eq_dec : EqDecision ConduitKind.
Proof. solve_decision. Defined.

(** Modelled from the spec: [conduit.zig] is not among the sources.  A
    [conduit.Reader] or [conduit.Writer] is a channel over its storage with
    a cursor; [from(storage)] builds one with the cursor at 0, and
    [reset()] sets the cursor to 0. *)
Record Conduit : Type := mkConduit {
  conduit_kind    : ConduitKind;
  conduit_storage : Slice;
  conduit_cursor  : Z
}.

Definition Reader_from (storage : Slice) : Conduit := mkConduit ReaderKind storage 0.

Definition Writer_from (storage : Slice) : Conduit := mkConduit WriterKind storage 0.

Definition Conduit_reset (c : Conduit) : Conduit :=
  mkConduit (conduit_kind c) (conduit_storage c) 0.

(** Why a call does not return. *)
Inductive PanicReason : Type :=
  | InvalidChannelSize (sizeInBytes : Z)   (* Error.panicFormat(.., "Invalid channel size: {d}", ..) *)
  | FailedToAllocateInput                  (* @panic("Failed to allocate input channel storage") *)
  | FailedToAllocateOutput                 (* @panic("Failed to allocate output channel storage") *)
  | CastTruncatedBits.                     (* @intCast of an address that is not an i32 *)

(** [usize] is 32 bits wide on wasm32. *)
Definition usize_not (x : Z) : Z := Z.lnot x mod 2 ^ 32.

(** [(size + 7) & ~@as(usize, 7)] *)
Definition align8 (size : Z) : Z := Z.land (size + 7) (usize_not 7).

Section Allocator.

(** [std.heap.wasm_allocator]: [alloc n h] is [alloc(u64, n)], the address
    of [n] fresh [u64]s or [None] when out of memory; [free] releases a
    slice. *)
Variable Heap : Type.
Variable alloc : Z -> Heap -> option (Z * Heap).
Variable free : Slice -> Heap -> Heap.

(** The globals of [interop.zig]; [None] is [undefined] / [null]. *)
Record ModuleState : Type := mkModuleState {
  input          : option Conduit;
  output         : option Conduit;
  input_storage  : option Slice;
  output_storage : option Slice;
  heap           : Heap
}.

Inductive Outcome (A : Type) : Type :=
  | Return (a : A) (s : ModuleState)
  | Panic (reason : PanicReason).
Arguments Return {A} a s.
Arguments Panic {A} reason.

(** Modelled from the spec: [interop/error.zig] is not among the sources;
    [Error.panicFormat] is the fatal diagnostic, it does not return. *)
Definition panicFormat {A} (sizeInBytes : Z) : Outcome A :=
  Panic (InvalidChannelSize sizeInBytes).

Definition allocateInputChannel (sizeInBytes : Z) (s : ModuleState) : Outcome Z :=
  if sizeInBytes <=? 0 then panicFormat sizeInBytes
  else
    let size := sizeInBytes in
    let aligned := align8 size in
    let sizeInU64s := aligned / 8 in
    let heap1 :=
      match input_storage s with
      | Some storage => free storage (heap s)
      | None => heap s
      end in
    match alloc sizeInU64s heap1 with
    | None => Panic FailedToAllocateInput
    | Some (ptr, heap2) =>
        if 2 ^ 31 <=? ptr then Panic CastTruncatedBits
        else
          let storage := mkSlice ptr sizeInU64s in
          Return ptr
            (mkModuleState (Some (Reader_from storage)) (output s)
                           (Some storage) (output_storage s) heap2)
    end.

Definition allocateOutputChannel (sizeInBytes : Z) (s : ModuleState) : Outcome Z :=
  if sizeInBytes <=? 0 then panicFormat sizeInBytes
  else
    let size := sizeInBytes in
    let aligned := align8 size in
    let sizeInU64s := aligned / 8 in
    let heap1 :=
      match output_storage s with
      | Some storage => free storage (heap s)
      | None => heap s
      end in
    match alloc sizeInU64s heap1 with
    | None => Panic FailedToAllocateOutput
    | Some (ptr, heap2) =>
        if 2 ^ 31 <=? ptr then Panic CastTruncatedBits
        else
          let storage := mkSlice ptr sizeInU64s in
          Return ptr
            (mkModuleState (input s) (Some (Writer_from storage))
                           (input_storage s) (Some storage) heap2)
    end.

(** [getInput]: [input.reset(); return input;] (undefined before the first
    allocation). *)
Definition getInput (s : ModuleState) : option (Conduit * ModuleState) :=
  match input s with
  | Some c =>
      let c' := Conduit_reset c in
      Some (c', mkModuleState (Some c') (output s) (input_storage s)
                              (output_storage s) (heap s))
  | None => None
  end.

Definition getOutput (s : ModuleState) : option (Conduit * ModuleState) :=
  match output s with
  | Some c =>
      let c' := Conduit_reset c in
      Some (c', mkModuleState (input s) (Some c') (input_storage s)
                              (output_storage s) (heap s))
  | None => None
  end.

End Allocator.

Arguments Return {Heap A} a s.
Arguments Panic {Heap A} reason.

End Zig.

(* ===================================================================== *)
(** * interop/log.zig: the log buffer of the module *)
(* ===================================================================== *)

Module Log.

(** [var logStorage = [_]u8{0} ** 2048;]  The array lives in the linear
    memory of the module, at the address [getLogPtr()] returns. *)
Definition logStorage_len : Z := 2048.

(** [log(msg)], on the linear memory [mem] with [logStorage] at [logPtr]:
<<
  const len = @min(msg.len, logStorage.len - 1);
  @memcpy(logStorage[0..len], msg[0..len]);
  logStorage[len] = 0;
  externs.hostLog();
>>
    [hostLog] is the import [env.hostLog]; it runs on the memory as the two
    stores left it. *)
Definition log {A} (hostLog : list Z -> A) (logPtr : Z) (msg : list Z) (mem : list Z) : A :=
  let len := Z.min (Z.of_nat (length msg)) (logStorage_len - 1) in
  let mem1 := store_bytes logPtr (take (Z.to_nat len) msg) mem in
  let mem2 := store_bytes (logPtr + len) [0] mem1 in
  hostLog mem2.

End Log.

(* ===================================================================== *)
(** * interop.test.ts: the helpers that fill the log and error buffers *)
(* ===================================================================== *)

Module TestSupport.

(** [writeNullTerminated(buffer, offset, size, text)]:
<<
  const view = new Uint8Array(buffer, offset, size)
  view.fill(0)
  const data = Buffer.from(text, 'utf8')
  const length = Math.min(data.length, size - 1)
  view.set(data.subarray(0, length), 0)
  view[length] = 0
>>
    [data] is the encoded text, a byte array; the result is the contents of
    the buffer.  The window of the [Uint8Array] is checked as that of any
    typed array over a buffer.  [writeNullTerminatedUtf8] is the same
    function with [new TextEncoder().encode(text)] for [data]. *)
Definition writeNullTerminated (buffer : list Z) (offset size : Z) (data : list Z)
  : Res (list Z) :=
  match Interop.ByteView_new buffer offset size with
  | Throw e => Throw e
  | Ok _ =>
      let b0 := store_bytes offset (replicate (Z.to_nat size) 0) buffer in
      let length_ := Z.min (Z.of_nat (length data)) (size - 1) in
      let part := take (Z.to_nat (relative_index (Z.of_nat (length data)) length_)) data in
      if size <? Z.of_nat (length part) then Throw RangeError
      else
        let b1 := store_bytes offset part b0 in
        Ok (if (0 <=? length_) && (length_ <? size)
            then store_bytes (offset + length_) [0] b1
            else b1)
  end.

(** [writeFilled(buffer, offset, size, byte)]:
    [new Uint8Array(buffer, offset, size).fill(byte)] *)
Definition writeFilled (buffer : list Z) (offset size : Z) (byte : Z) : Res (list Z) :=
  match Interop.ByteView_new buffer offset size with
  | Throw e => Throw e
  | Ok _ => Ok (store_bytes offset (replicate (Z.to_nat size) (byte mod 256)) buffer)
  end.

End TestSupport.

(* ===================================================================== *)
(** * Vocabulary of the statements *)
(* ===================================================================== *)

(** ** Alignment and channel invariant *)

(** The next multiple of [k] at or above [x]. *)
Definition round_up (x k : Z) : Z := (x + k - 1) / k * k.

(** The cursor an element of type [ty] is read or written at, from cursor [c]. *)
Definition aligned (ty : ElemType) (c : Z) : Z := round_up c (BYTES_PER_ELEMENT ty).

Definition is_byte (b : Z) : Prop := 0 <= b < 256.

Definition with_offset (st : State) (o : Z) : State :=
  mkState (mkChannel (byteOffset (this st)) (sizeInBytes (this st)) o) (buffer st).

Definition with_buffer (st : State) (b : list Z) : State :=
  mkState (this st) b.

(** The invariant of a channel over its buffer: the window the constructor
    accepts (non-negative, a multiple of 8 bytes long, inside the buffer),
    a size that is an [i32] (channel sizes cross the boundary as
    [sizeInBytes: i32]), a cursor inside the window, and bytes in the
    buffer. *)
Record wf (st : State) : Prop := mk_wf {
  wf_base   : 0 <= byteOffset (this st);
  wf_size   : 0 <= sizeInBytes (this st) < 2 ^ 31;
  wf_size8  : sizeInBytes (this st) mod 8 = 0;
  wf_fits   : byteOffset (this st) + sizeInBytes (this st) <= Z.of_nat (length (buffer st));
  wf_cursor : 0 <= offset (this st) <= sizeInBytes (this st);
  wf_bytes  : Forall is_byte (buffer st)
}.

(** The invariant, as a test. *)
Definition wf_check (st : State) : bool :=
  (0 <=? byteOffset (this st)) && (0 <=? sizeInBytes (this st))
  && (sizeInBytes (this st) <? 2 ^ 31) && (sizeInBytes (this st) mod 8 =? 0)
  && (byteOffset (this st) + sizeInBytes (this st) <=? Z.of_nat (length (buffer st)))
  && (0 <=? offset (this st)) && (offset (this st) <=? sizeInBytes (this st))
  && forallb (fun b => (0 <=? b) && (b <? 256)) (buffer st).

(** Address in the buffer of the channel byte [o]. *)
Definition addr (st : State) (o : Z) : Z := byteOffset (this st) + o.

(** A Reader over the storage of [st], with its own cursor [c]. *)
Definition reader_at (st : State) (c : Z) : State := with_offset st c.

(** ** Frames *)

(** Bytes of the buffer outside the channel offsets [lo, hi) are the same. *)
Definition unchanged_outside (st st' : State) (lo hi : Z) : Prop :=
  forall i : nat,
    Z.of_nat i < addr st lo \/ addr st hi <= Z.of_nat i ->
    buffer st' !! i = buffer st !! i.

(** What every method keeps: the window, the invariant, a cursor that does
    not move backward, and all bytes but those between the two cursors. *)
Record step_ok (st st' : State) : Prop := mk_step_ok {
  so_base  : byteOffset (this st') = byteOffset (this st);
  so_size  : sizeInBytes (this st') = sizeInBytes (this st);
  so_wf    : wf st';
  so_mono  : offset (this st) <= offset (this st');
  so_len   : length (buffer st') = length (buffer st);
  so_frame : unchanged_outside st st' (offset (this st)) (offset (this st'))
}.

(** Methods that leave the buffer alone. *)
Definition read_only {A} (m : M A) : Prop :=
  forall st r st', m st = (r, st') -> buffer st' = buffer st.

(** ** The operations of a Writer and of a Reader *)

Inductive Op : Type :=
  | Write (ty : ElemType) (value : Z)
  | Init (ty : ElemType)
  | InitElements (ty : ElemType) (length : Z)
  | InitArray (ty : ElemType) (length : Z)
  | CopyElements (ty : ElemType) (arr : list Z)
  | CopyArray (ty : ElemType) (arr : list Z)
  | WriteAsciiString (value : list Z)
  | Read (ty : ElemType)
  | ReadElements (ty : ElemType) (length : Z)
  | ReadArray (ty : ElemType)
  | ReadArrays (ty : ElemType) (count : nat).

(** Running an operation for its effect on the channel. *)
Definition exec (op : Op) : M unit :=
  match op with
  | Write ty v => Writer.write ty v
  | Init ty => Writer.init ty ;; ret tt
  | InitElements ty n => Writer.initElements ty n ;; ret tt
  | InitArray ty n => Writer.initArray ty n ;; ret tt
  | CopyElements ty arr => Writer.copyElements ty arr
  | CopyArray ty arr => Writer.copyArray ty arr
  | WriteAsciiString s => Writer.writeAsciiString s
  | Read ty => Reader.read ty ;; ret tt
  | ReadElements ty n => Reader.readElements ty n ;; ret tt
  | ReadArray ty => Reader.readArray ty ;; ret tt
  | ReadArrays ty count => Reader.readArrays ty count ;; ret tt
  end.

Fixpoint run_all (ops : list Op) : M unit :=
  match ops with
  | [] => ret tt
  | op :: ops' => exec op ;; run_all ops'
  end.

(** A length is a length: the caller passes a non-negative element count. *)
Definition valid (op : Op) : Prop :=
  match op with
  | InitElements _ n | InitArray _ n | ReadElements _ n => 0 <= n
  | _ => True
  end.

Definition op_type (op : Op) : ElemType :=
  match op with
  | Write ty _ | Init ty | InitElements ty _ | InitArray ty _
  | CopyElements ty _ | CopyArray ty _
  | Read ty | ReadElements ty _ | ReadArray ty | ReadArrays ty _ => ty
  | WriteAsciiString _ => Uint8
  end.

(** The scalar writes, the reservations and the bulk copies: the methods
    made of one alignment, one [advance] and one store. *)
Definition single_store (op : Op) : Prop :=
  match op with
  | Write _ _ | Init _ | InitElements _ _ | CopyElements _ _ => True
  | _ => False
  end.

(** The aligned cursor plus the total width of an operation started at
    cursor [c]: where the cursor would stand after the operation. *)
Definition extent_scalar (ty : ElemType) (c : Z) : Z :=
  aligned ty c + BYTES_PER_ELEMENT ty.

Definition extent_elements (ty : ElemType) (n : Z) (c : Z) : Z :=
  aligned ty c + n * BYTES_PER_ELEMENT ty.

Definition extent_array (ty : ElemType) (n : Z) (c : Z) : Z :=
  extent_elements ty n (extent_scalar Uint32 c).

(** For [readArray] the element count is the u32 found at the aligned
    cursor (when that prefix is inside the channel at all). *)
Definition extent_readArray (ty : ElemType) (st : State) (c : Z) : Z :=
  if sizeInBytes (this st) <? extent_scalar Uint32 c then extent_scalar Uint32 c
  else extent_array ty
         (decode Uint32 (load_bytes (addr st (aligned Uint32 c)) 4 (buffer st))) c.

Fixpoint extent_readArrays (ty : ElemType) (count : nat) (st : State) (c : Z) : Z :=
  match count with
  | O => c
  | S count' =>
      let e := extent_readArray ty st c in
      if sizeInBytes (this st) <? e then e
      else extent_readArrays ty count' st e
  end.

Definition extent (op : Op) (st : State) : Z :=
  let c := offset (this st) in
  match op with
  | Write ty _ | Init ty | Read ty => extent_scalar ty c
  | InitElements ty n | ReadElements ty n => extent_elements ty n c
  | CopyElements ty arr => extent_elements ty (Z.of_nat (length arr)) c
  | InitArray ty n => extent_array ty n c
  | CopyArray ty arr => extent_array ty (Z.of_nat (length arr)) c
  | WriteAsciiString s => extent_array Uint8 (Z.of_nat (length s)) c
  | ReadArray ty => extent_readArray ty st c
  | ReadArrays ty count => extent_readArrays ty count st c
  end.

(** [summary m st e]: from [st], the method [m] either returns with the
    cursor at [e], or raises the bounds error because [e] is beyond the
    channel; either way [step_ok] holds. *)
Definition summary {A} (m : M A) (st : State) (e : Z) : Prop :=
  forall r st', m st = (r, st') ->
    step_ok st st' /\
    (((exists x, r = Ok x) /\ offset (this st') = e) \/
     (r = Throw ReachedEndOfChannel /\ sizeInBytes (this st) < e)).

(** The scalar reads and writes. *)
Inductive ScalarOp : Type :=
  | SWrite (ty : ElemType) (value : Z)
  | SRead (ty : ElemType).

Definition scalar_type (op : ScalarOp) : ElemType :=
  match op with SWrite ty _ | SRead ty => ty end.

Definition exec_scalar (op : ScalarOp) : M (option Z) :=
  match op with
  | SWrite ty v => Writer.write ty v ;; ret None
  | SRead ty => Reader.read ty
  end.

(** What is sent through a channel: one scalar, or one length-prefixed array. *)
Inductive Payload : Type :=
  | PScalar (ty : ElemType) (value : Z)
  | PArray (ty : ElemType) (arr : list Z).

Definition payload_in_range (x : Payload) : Prop :=
  match x with
  | PScalar ty v => in_range ty v
  | PArray ty arr => Forall (in_range ty) arr
  end.

(** [writeT(value)] / [copyTArray(arr)] *)
Definition write_payload (x : Payload) : M unit :=
  match x with
  | PScalar ty v => Writer.write ty v
  | PArray ty arr => Writer.copyArray ty arr
  end.

(** [readT()] / [Array.from(readTArray())], for a payload of the shape of [x]. *)
Definition read_payload (x : Payload) : M (option Payload) :=
  match x with
  | PScalar ty _ => r <- Reader.read ty ;; ret (PScalar ty <$> r)
  | PArray ty _ =>
      v <- Reader.readArray ty ;;
      fun st => (Ok (Some (PArray ty (view_elements v (buffer st)))), st)
  end.

(** ** Instances *)

Import Interop.

(** Every binding of the caller is found, unchanged, in the final imports. *)
Definition bindings_kept (caller final : gmap string (gmap string ImportValue)) : Prop :=
  forall ns (m : gmap string ImportValue) k v,
    caller !! ns = Some m -> m !! k = Some v ->
    exists m', final !! ns = Some m' /\ m' !! k = Some v.





(** The bytes before the first null terminator, or all of them when there
    is none. *)
Fixpoint before_null (data : list Z) : list Z :=
  match data with
  | [] => []
  | b :: data' => if b =? 0 then [] else b :: before_null data'
  end.

Definition is_empty (message : list Z) : bool :=
  match message with [] => true | _ => false end.

(** The error buffer of an instance, and its message. *)
Definition error_region (MAX_ERROR_SIZE : Z) (i : Instance) : list Z :=
  take (Z.to_nat MAX_ERROR_SIZE) (drop (Z.to_nat (errPtr i)) (bytes (memory i))).

Definition error_message (MAX_ERROR_SIZE : Z) (i : Instance) : list Z :=
  before_null (error_region MAX_ERROR_SIZE i).

(** The error view, once built, is the window at [errPtr]. *)
Definition error_cell_ok (MAX_ERROR_SIZE : Z) (i : Instance) : Prop :=
  match cell_instance (errorDataCell i) with
  | Some (_, v) => v = mkByteView (errPtr i) MAX_ERROR_SIZE
  | None => True
  end.

(** The error buffer lies inside the memory. *)
Definition error_region_fits (MAX_ERROR_SIZE : Z) (i : Instance) : Prop :=
  0 <= errPtr i /\ 0 <= MAX_ERROR_SIZE /\
  errPtr i + MAX_ERROR_SIZE <= byteLength (memory i).

(** The outcome of [handleError], from the message in the error buffer and
    the way the raw call ended: the buffer is consulted only when the call
    raised or returned a non-zero code. *)
Definition handled_outcome (message : list Z) (raw : RawResult) : Handled :=
  match raw with
  | Returned code =>
      if code =? 0 then NoError
      else if is_empty message then ThrowUnknown
      else ThrowMessage message
  | Raised e =>
      if is_empty message then
        match e with
        | Some x => Rethrow x
        | None => ThrowUnknown
        end
      else ThrowMessage message
  end.

(** ** The module side *)

(** The two roles of [allocateChannel]. *)
Inductive Role : Type := InputRole | OutputRole.

Definition other (role : Role) : Role :=
  match role with InputRole => OutputRole | OutputRole => InputRole end.

(** The module reads its input and writes its output. *)
Definition fresh_conduit (role : Role) (storage : Zig.Slice) : Zig.Conduit :=
  match role with
  | InputRole => Zig.Reader_from storage
  | OutputRole => Zig.Writer_from storage
  end.

Section ModuleVocabulary.
Variable Heap : Type.
Variable alloc : Z -> Heap -> option (Z * Heap).
Variable free : Zig.Slice -> Heap -> Heap.

Definition allocateChannel (role : Role) : Z -> Zig.ModuleState Heap -> Zig.Outcome Heap Z :=
  match role with
  | InputRole => Zig.allocateInputChannel Heap alloc free
  | OutputRole => Zig.allocateOutputChannel Heap alloc free
  end.

Definition storage_of (role : Role) (s : Zig.ModuleState Heap) : option Zig.Slice :=
  match role with
  | InputRole => Zig.input_storage Heap s
  | OutputRole => Zig.output_storage Heap s
  end.

Definition channel_of (role : Role) (s : Zig.ModuleState Heap) : option Zig.Conduit :=
  match role with
  | InputRole => Zig.input Heap s
  | OutputRole => Zig.output Heap s
  end.

(** The heap once the previous storage of the role, if any, is released. *)
Definition released (role : Role) (s : Zig.ModuleState Heap) : Heap :=
  match storage_of role s with
  | Some storage => free storage (Zig.heap Heap s)
  | None => Zig.heap Heap s
  end.

End ModuleVocabulary.

(** ** Sample inputs *)

(** A 16-byte channel at offset 8 of a zeroed 32-byte buffer. *)
Definition sample_state : State := mkState (mkChannel 8 16 0) (replicate 32 0).

(** The same channel with the cursor at 5, and at 13. *)
Definition sample_state_5 : State := mkState (mkChannel 8 16 5) (replicate 32 0).

Definition sample_state_13 : State := mkState (mkChannel 8 16 13) (replicate 32 0).




(** An instance whose error buffer (16 bytes at address 16) still holds
    "bad" from an earlier call; input and output channels of 8 bytes. *)
Definition stale_error_instance : Instance :=
  mkInstance
    (mkMemory 0%nat 1%nat
       [0; 0; 0; 0; 0; 0; 0; 0; 0; 0; 0; 0; 0; 0; 0; 0;
        98; 97; 100; 0; 0; 0; 0; 0; 0; 0; 0; 0; 0; 0; 0; 0;
        0; 0; 0; 0; 0; 0; 0; 0; 0; 0; 0; 0; 0; 0; 0; 0] None)
    2%nat 0 16 32 40 8 8 empty_cell empty_cell empty_cell empty_cell empty_cell.

(** Imports in which the caller binds [env.memory] and [env.foo]. *)
Definition caller_imports : gmap string (gmap string ImportValue) :=
  {[ "env" := {[ "memory" := ImportMemory 7%nat; "foo" := ImportNumber 1 ]} ]}.

(** An allocator for the examples: storage is handed out in address order
    and never reused. *)
Definition bump_alloc (n : Z) (top : Z) : option (Z * Z) :=
  if top + 8 * n <=? 2 ^ 32 then Some (top, top + 8 * n) else None.

Definition bump_free (_ : Zig.Slice) (top : Z) : Z := top.

Definition fresh_module : Zig.ModuleState Z := Zig.mkModuleState Z None None None None 1024.

(* ===================================================================== *)
(** * Vocabulary of the further statements *)
(* ===================================================================== *)

(** ** Messages of several fields *)

(** The bytes of [b] and [b'] at the addresses [lo, hi) are the same. *)
Definition agree_on (b b' : list Z) (lo hi : Z) : Prop :=
  forall i : nat, lo <= Z.of_nat i < hi -> b' !! i = b !! i.

(** The calls that send the fields [xs] one after the other, and the calls
    that read fields of the same shapes back. *)
Fixpoint write_all (xs : list Payload) : M unit :=
  match xs with
  | [] => ret tt
  | x :: xs' => write_payload x ;; write_all xs'
  end.

Fixpoint read_all (xs : list Payload) : M (list (option Payload)) :=
  match xs with
  | [] => ret []
  | x :: xs' =>
      r <- read_payload x ;;
      rs <- read_all xs' ;;
      ret (r :: rs)
  end.

(** The calls that send the strings [values] one after the other. *)
Fixpoint write_strings {S : Type} (textEncoder : S -> list Z) (values : list S) : M unit :=
  match values with
  | [] => ret tt
  | value :: values' =>
      Writer.writeUtf8String textEncoder value ;; write_strings textEncoder values'
  end.

(** ** Integers outside the range of a view *)

(** What an integer view keeps of an integer: the low 8 or 32 bits, read
    back unsigned or, for [Int32Array], in two's complement. *)
Definition wrap (ty : ElemType) (v : Z) : Z :=
  match ty with
  | Uint8 => v mod 2 ^ 8
  | Uint32 | Float32 => v mod 2 ^ 32
  | Int32 => ToInt32 v
  | Float64 => v mod 2 ^ 64
  end.

Definition integer_view (ty : ElemType) : Prop :=
  match ty with
  | Uint8 | Uint32 | Int32 => True
  | Float32 | Float64 => False
  end.

(** ** Methods that keep the storage *)

(** The method changes neither a byte of the buffer nor the window of the
    channel, whether it returns or throws. *)
Definition keeps_storage {A} (m : M A) : Prop :=
  forall st r st',
    m st = (r, st') ->
    buffer st' = buffer st /\
    byteOffset (this st') = byteOffset (this st) /\
    sizeInBytes (this st') = sizeInBytes (this st).

(** Two windows of one buffer that share no byte. *)
Definition disjoint_windows (a b : Channel) : Prop :=
  byteOffset a + sizeInBytes a <= byteOffset b \/
  byteOffset b + sizeInBytes b <= byteOffset a.

(** ** The log buffer *)

(** The log buffer of an instance, as the host sees it. *)
Definition log_region (MAX_LOG_SIZE : Z) (i : Instance) : list Z :=
  take (Z.to_nat MAX_LOG_SIZE) (drop (Z.to_nat (logPtr i)) (bytes (memory i))).

(** The log view, once built, is the window at [logPtr]. *)
Definition log_cell_ok (MAX_LOG_SIZE : Z) (i : Instance) : Prop :=
  match cell_instance (logDataCell i) with
  | Some (_, v) => v = mkByteView (logPtr i) MAX_LOG_SIZE
  | None => True
  end.

(** The log buffer lies inside the memory. *)
Definition log_region_fits (MAX_LOG_SIZE : Z) (i : Instance) : Prop :=
  0 <= logPtr i /\ 0 <= MAX_LOG_SIZE /\
  logPtr i + MAX_LOG_SIZE <= byteLength (memory i).

(** The instance once the module has changed the contents of the memory. *)
Definition with_bytes (i : Instance) (b : list Z) : Instance :=
  set_memory i (mkMemory (memory_ref (memory i)) (buffer_ref (memory i)) b
                         (maximum (memory i))).

(** The module calls [log(msg)]; its [externs.hostLog] is the [env.hostLog]
    of the instance. *)
Definition module_log (MAX_LOG_SIZE : Z) (msg : list Z) (i : Instance)
  : Res (list Z) * Instance :=
  Log.log (fun mem => hostLog MAX_LOG_SIZE (with_bytes i mem))
          (logPtr i) msg (bytes (memory i)).

(** The views of an instance that [createInstance] has just returned. *)
Definition fresh_views (i : Instance) : Prop :=
  cell_instance (bytesCell i) = None /\ cell_instance (logDataCell i) = None /\
  cell_instance (errorDataCell i) = None /\
  cell_instance (inputChannelCell i) = None /\
  cell_instance (outputChannelCell i) = None.

(** ** Bootstrap *)

(** The memory [createInstance] starts from: the one given in the options,
    or a fresh one of [initialMemoryPages] pages; and the allocation counter
    after it. *)
Definition initial_memory (PAGE_SIZE DEFAULT_INITIAL_PAGES : Z)
    (options : InstanceOptions) (next : Ref) : Memory * Ref :=
  match opt_memory options with
  | Some m => (m, next)
  | None =>
      Memory_new PAGE_SIZE
        (default DEFAULT_INITIAL_PAGES (opt_initialMemoryPages options)) next
  end.

(** The import object [createInstance] passes to [WebAssembly.instantiate]. *)
Definition instantiate_imports (PAGE_SIZE DEFAULT_INITIAL_PAGES : Z)
    (options : InstanceOptions) (next : Ref) : Imports :=
  let '(memory0, next1) := initial_memory PAGE_SIZE DEFAULT_INITIAL_PAGES options next in
  finalImports (opt_imports options) (ImportMemory (memory_ref memory0))
               (ImportFunction next1).

(** The memory the instance works on: the one the module exports, if it
    exports one, else the one it was given. *)
Definition effective_memory (memory0 : Memory) (exports : Exports) : Memory :=
  match exportedMemory exports with
  | Some em => if decide (memory_ref em = memory_ref memory0) then memory0 else em
  | None => memory0
  end.

(** ** More sample inputs *)

(** Three fields that fill 14 of the 16 bytes of the sample channel. *)
Definition sample_message : list Payload :=
  [PScalar Uint8 7; PScalar Int32 (-2); PArray Uint8 [1; 2]].

(** A second channel over the sample buffer: its first 8 bytes. *)
Definition sample_other : Channel := mkChannel 0 8 0.



(** The bootstrap of the tests: a module whose exports return the
    addresses 0, 256, 512 and 1024, channels of 64 bytes, one initial page;
    here with pages of 1024 bytes and log and error buffers of 256 bytes. *)
Definition sample_exports : Exports :=
  mkExports 0 256 (fun _ => 512) (fun _ => 1024) None.

Definition sample_instantiate : Imports -> Res Exports := fun _ => Ok sample_exports.

Definition sample_options : InstanceOptions := mkOptions 64 64 (Some 1) None None.

Definition sample_created : Instance :=
  match createInstance 256 256 1024 1 sample_instantiate sample_options 0%nat with
  | Ok inst => inst
  | Throw _ => stale_error_instance
  end.

(** A memory of 4096 bytes for the module, with [logStorage] at address 1024. *)
Definition sample_module_instance : Instance :=
  mkInstance (mkMemory 0%nat 1%nat (replicate 4096 0) None)
    2%nat 1024 16 32 40 8 8 empty_cell empty_cell empty_cell empty_cell empty_cell.

(* ===================================================================== *)
(** * Properties *)
(* ===================================================================== *)

(** ** Rounding up, and the 32-bit operators *)

Lemma round_up_bounds x k : 0 < k -> x <= round_up x k < x + k.
Proof.
  intros Hk. unfold round_up.
  pose proof (Z.div_mod (x + k - 1) k ltac:(lia)) as Hd.
  pose proof (Z.mod_pos_bound (x + k - 1) k Hk) as Hm.
  lia.
Qed.

Lemma round_up_multiple x k : 0 < k -> round_up x k mod k = 0.
Proof. intros Hk. unfold round_up. apply Z.mod_mul. lia. Qed.

Lemma round_up_least x k m : 0 < k -> x <= m -> m mod k = 0 -> round_up x k <= m.
Proof.
  intros Hk Hx Hm. unfold round_up.
  apply Z.mod_divide in Hm; [|lia]. destruct Hm as [q ->].
  apply Z.mul_le_mono_nonneg_r; [lia|].
  apply Z.lt_succ_r. apply Z.div_lt_upper_bound; lia.
Qed.

Lemma round_up_id x k : 0 < k -> x mod k = 0 -> round_up x k = x.
Proof.
  intros Hk Hx.
  pose proof (round_up_bounds x k Hk).
  pose proof (round_up_least x k x Hk ltac:(lia) Hx). lia.
Qed.

Lemma ToInt32_small x : - 2 ^ 31 <= x < 2 ^ 31 -> ToInt32 x = x.
Proof. intros H. unfold ToInt32. rewrite Z.mod_small; lia. Qed.

Lemma ToUint32_small x : 0 <= x < 2 ^ 32 -> ToUint32 x = x.
Proof. intros H. unfold ToUint32. apply Z.mod_small; lia. Qed.

Lemma land_lnot_ones a n : 0 <= n -> Z.land a (Z.lnot (Z.ones n)) = a / 2 ^ n * 2 ^ n.
Proof.
  intros Hn. rewrite <- Z.ldiff_land, Z.ldiff_ones_r by lia.
  rewrite Z.shiftl_mul_pow2, Z.shiftr_div_pow2 by lia. reflexivity.
Qed.

Lemma alignUp_round_up x n :
  0 <= n < 5 -> 0 <= x -> x + 2 ^ n - 1 < 2 ^ 31 ->
  alignUp x (2 ^ n) = round_up x (2 ^ n).
Proof.
  intros Hn Hx Hb. unfold alignUp, js_and, js_not, round_up.
  assert (1 <= 2 ^ n <= 16).
  { split; [apply (Z.pow_le_mono_r 2 0 n); lia | apply (Z.pow_le_mono_r 2 n 4); lia]. }
  rewrite (ToInt32_small (2 ^ n - 1)) by lia.
  rewrite (ToInt32_small (x + (2 ^ n - 1))) by lia.
  rewrite (ToInt32_small (Z.lnot _)).
  2:{ unfold Z.lnot. lia. }
  replace (2 ^ n - 1) with (Z.ones n) by (rewrite Z.ones_equiv; lia).
  rewrite land_lnot_ones by lia.
  rewrite Z.ones_equiv. f_equal. f_equal. lia.
Qed.

(** Beyond the [i32] range the 32-bit operators wrap; hence the bound on
    the size of a channel in [wf]. *)
Lemma alignUp_outside_i32 : alignUp (2 ^ 31 - 3) 4 = - 2 ^ 31.
Proof. reflexivity. Qed.

Lemma alignUp_4 x : 0 <= x -> x + 3 < 2 ^ 31 -> alignUp x 4 = round_up x 4.
Proof. intros. apply (alignUp_round_up x 2); lia. Qed.

Lemma alignUp_8 x : 0 <= x -> x + 7 < 2 ^ 31 -> alignUp x 8 = round_up x 8.
Proof. intros. apply (alignUp_round_up x 3); lia. Qed.

Lemma js_ushr_div x n : 0 <= n -> 0 <= x < 2 ^ 32 -> js_ushr x n = x / 2 ^ n.
Proof.
  intros Hn Hx. unfold js_ushr. rewrite ToUint32_small by lia.
  apply Z.shiftr_div_pow2; lia.
Qed.

(** ** Bytes of a value, stores and loads *)

Lemma length_le_bytes n v : length (le_bytes n v) = n.
Proof. revert v. induction n as [|n IH]; intros v; simpl; [done|]. by rewrite IH. Qed.

Lemma le_value_le_bytes n v : le_value (le_bytes n v) = v mod 256 ^ Z.of_nat n.
Proof.
  revert v. induction n as [|n IH]; intros v.
  - simpl. by rewrite Z.mod_1_r.
  - cbn [le_bytes le_value]. rewrite IH.
    rewrite Nat2Z.inj_succ, Z.pow_succ_r by lia.
    rewrite (Z.rem_mul_r v 256 (256 ^ Z.of_nat n)) by lia. reflexivity.
Qed.

Lemma length_encode ty v : length (encode ty v) = width ty.
Proof. apply length_le_bytes. Qed.

Lemma width_pos ty : (0 < width ty)%nat.
Proof. destruct ty; unfold width; simpl; lia. Qed.

Lemma width_BPE ty : Z.of_nat (width ty) = BYTES_PER_ELEMENT ty.
Proof. destruct ty; reflexivity. Qed.

Lemma pow256_width ty : 256 ^ Z.of_nat (width ty) = 2 ^ (8 * BYTES_PER_ELEMENT ty).
Proof. destruct ty; reflexivity. Qed.

Lemma ToInt32_mod x : - 2 ^ 31 <= x < 2 ^ 31 -> ToInt32 (x mod 2 ^ 32) = x.
Proof.
  intros Hx. unfold ToInt32. rewrite Zplus_mod_idemp_l. rewrite Z.mod_small; lia.
Qed.

Lemma decode_encode ty v : in_range ty v -> decode ty (encode ty v) = v.
Proof.
  intros Hv. unfold decode, encode. rewrite le_value_le_bytes, pow256_width.
  destruct ty; simpl in *; try (apply Z.mod_small; lia).
  by apply ToInt32_mod.
Qed.

Lemma length_store_bytes a bs b : length (store_bytes a bs b) = length b.
Proof. apply length_inserts. Qed.

Lemma lookup_store_bytes_outside a bs b (i : nat) :
  0 <= a ->
  (Z.of_nat i < a \/ a + Z.of_nat (length bs) <= Z.of_nat i) ->
  store_bytes a bs b !! i = b !! i.
Proof.
  intros Ha [Hi|Hi]; unfold store_bytes.
  - apply list_lookup_inserts_lt. lia.
  - apply list_lookup_inserts_ge. lia.
Qed.

Lemma drop_store_bytes a bs b :
  0 <= a -> a + Z.of_nat (length bs) <= Z.of_nat (length b) ->
  drop (Z.to_nat a) (store_bytes a bs b) =
  bs ++ drop (Z.to_nat a + length bs) b.
Proof.
  intros Ha Hfit. unfold store_bytes.
  apply list_eq. intros i. rewrite lookup_drop.
  destruct (decide (i < length bs)%nat) as [Hi|Hi].
  - rewrite list_lookup_inserts by lia.
    rewrite lookup_app_l by lia. f_equal. lia.
  - rewrite list_lookup_inserts_ge by lia.
    rewrite lookup_app_r by lia. rewrite lookup_drop. f_equal. lia.
Qed.

Lemma load_store_bytes a bs b :
  0 <= a -> a + Z.of_nat (length bs) <= Z.of_nat (length b) ->
  load_bytes a (length bs) (store_bytes a bs b) = bs.
Proof.
  intros Ha Hfit. unfold load_bytes. rewrite drop_store_bytes by done.
  by rewrite take_app_length.
Qed.

Lemma mjoin_cons {A} (x : list A) (ls : list (list A)) : mjoin (x :: ls) = x ++ mjoin ls.
Proof. reflexivity. Qed.

Lemma length_mjoin_encode ty (arr : list Z) :
  length (mjoin (encode ty <$> arr)) = (length arr * width ty)%nat.
Proof.
  induction arr as [|x arr IH]; [done|].
  rewrite fmap_cons, mjoin_cons, length_app, length_encode, IH. simpl. lia.
Qed.

Lemma chunks_mjoin_encode ty (arr : list Z) rest :
  chunks (width ty) (length arr) (mjoin (encode ty <$> arr) ++ rest) = encode ty <$> arr.
Proof.
  induction arr as [|x arr IH]; [done|].
  rewrite fmap_cons, mjoin_cons, <- (assoc_L (++)). cbn [length chunks].
  rewrite <- (length_encode ty x) at 1 3.
  rewrite take_app_length, drop_app_length.
  by rewrite IH.
Qed.

Lemma Forall_decode_encode ty (arr : list Z) :
  Forall (in_range ty) arr -> decode ty <$> (encode ty <$> arr) = arr.
Proof.
  induction 1 as [|x arr Hx _ IH]; [done|].
  by rewrite !fmap_cons, decode_encode, IH.
Qed.

(** ** Alignment of the cursor *)

Lemma with_offset_same st : with_offset st (offset (this st)) = st.
Proof. by destruct st as [[] ?]. Qed.

Lemma BPE_pos ty : 0 < BYTES_PER_ELEMENT ty.
Proof. destruct ty; simpl; lia. Qed.

Lemma BPE_divides_8 ty : exists k, 8 = k * BYTES_PER_ELEMENT ty.
Proof. destruct ty; [exists 8 | exists 2 | exists 2 | exists 2 | exists 1]; reflexivity. Qed.

Lemma size_mod_BPE ty s : s mod 8 = 0 -> s mod BYTES_PER_ELEMENT ty = 0.
Proof.
  intros Hs. destruct (BPE_divides_8 ty) as [k Hk].
  pose proof (BPE_pos ty).
  apply Z.mod_divide in Hs; [|lia]. destruct Hs as [q ->].
  rewrite Hk, Z.mul_assoc. apply Z.mod_mul. lia.
Qed.

Lemma aligned_bounds ty c : c <= aligned ty c < c + BYTES_PER_ELEMENT ty.
Proof. apply round_up_bounds, BPE_pos. Qed.

Lemma aligned_multiple ty c : aligned ty c mod BYTES_PER_ELEMENT ty = 0.
Proof. apply round_up_multiple, BPE_pos. Qed.

Lemma aligned_Uint8 c : aligned Uint8 c = c.
Proof. unfold aligned, round_up. simpl. rewrite Z.div_1_r. lia. Qed.

Lemma aligned_le_size ty c s :
  s mod 8 = 0 -> c <= s -> aligned ty c <= s.
Proof.
  intros Hs Hc. apply round_up_least; [apply BPE_pos | done | by apply size_mod_BPE].
Qed.

Lemma aligned_idem ty c : aligned ty (aligned ty c) = aligned ty c.
Proof. apply round_up_id; [apply BPE_pos | apply aligned_multiple]. Qed.

Lemma aligned_div_mul ty c :
  aligned ty c / BYTES_PER_ELEMENT ty * BYTES_PER_ELEMENT ty = aligned ty c.
Proof.
  pose proof (BPE_pos ty).
  pose proof (Z.div_mod (aligned ty c) (BYTES_PER_ELEMENT ty) ltac:(lia)).
  rewrite aligned_multiple in *. lia.
Qed.

(** [offset32] and [offset64] on a cursor in the window. *)
Ltac aligned_offset lemma k :=
  unfold offset32, offset64, bind, get_offset, set_offset, ret, with_offset; cbn;
  rewrite lemma by lia; unfold aligned; cbn [BYTES_PER_ELEMENT];
  match goal with
  | |- context [round_up ?c k] => pose proof (round_up_bounds c k ltac:(lia))
  end;
  rewrite js_ushr_div by lia; reflexivity.

Lemma offsetOf_spec ty st :
  wf st ->
  offsetOf ty st =
  (Ok (aligned ty (offset (this st)) / BYTES_PER_ELEMENT ty),
   with_offset st (aligned ty (offset (this st)))).
Proof.
  intros [Hb Hs Hs8 Hf Hc _].
  assert (Hs7 : sizeInBytes (this st) <= 2 ^ 31 - 8).
  { apply Z.mod_divide in Hs8; [|lia]. destruct Hs8 as [q Hq]. lia. }
  destruct ty; cbn [offsetOf].
  - unfold offset8, get_offset. rewrite aligned_Uint8, Z.div_1_r.
    by rewrite with_offset_same.
  - aligned_offset alignUp_4 4.
  - aligned_offset alignUp_4 4.
  - aligned_offset alignUp_4 4.
  - aligned_offset alignUp_8 8.
Qed.

Lemma advanceOf_spec ty n st :
  advanceOf ty n st =
  if sizeInBytes (this st) <? offset (this st) + n * BYTES_PER_ELEMENT ty
  then (Throw ReachedEndOfChannel, st)
  else (Ok tt, with_offset st (offset (this st) + n * BYTES_PER_ELEMENT ty)).
Proof.
  destruct ty; cbn [advanceOf BYTES_PER_ELEMENT];
    unfold advance32, advance64, advance8; rewrite ?Z.mul_1_r; reflexivity.
Qed.

(** The common prefix of every method: align, then advance. *)
Lemma reserve_spec {A} ty n (k : Z -> M A) st :
  wf st ->
  (start <- offsetOf ty ;; advanceOf ty n ;; k start) st =
  let a := aligned ty (offset (this st)) in
  if sizeInBytes (this st) <? a + n * BYTES_PER_ELEMENT ty
  then (Throw ReachedEndOfChannel, with_offset st a)
  else k (a / BYTES_PER_ELEMENT ty) (with_offset st (a + n * BYTES_PER_ELEMENT ty)).
Proof.
  intros Hwf. unfold bind at 1. rewrite offsetOf_spec by done.
  unfold bind. rewrite advanceOf_spec. cbn.
  destruct (_ <? _); reflexivity.
Qed.

Lemma wf_with_offset st o :
  wf st -> 0 <= o <= sizeInBytes (this st) -> wf (with_offset st o).
Proof. intros [] ?. by constructor. Qed.

Lemma wf_with_buffer st b :
  wf st -> length b = length (buffer st) -> Forall is_byte b -> wf (with_buffer st b).
Proof. intros [] Hl Hb. constructor; cbn; try done. by rewrite Hl. Qed.

(** ** Typed-array accesses inside the window *)

Lemma index_in_view ty st a n :
  wf st -> 0 <= a -> a mod BYTES_PER_ELEMENT ty = 0 -> 0 <= n ->
  a + n * BYTES_PER_ELEMENT ty <= sizeInBytes (this st) ->
  0 <= a / BYTES_PER_ELEMENT ty /\
  a / BYTES_PER_ELEMENT ty + n <= view_length ty (this st).
Proof.
  intros Hwf Ha Hm Hn Hfit. pose proof (BPE_pos ty) as Hp.
  split; [apply Z.div_pos; lia|].
  unfold view_length.
  apply Z.mod_divide in Hm; [|lia]. destruct Hm as [q ->].
  rewrite Z.div_mul by lia.
  apply Z.div_le_lower_bound; [lia|]. lia.
Qed.

Lemma storage_set_spec ty st a v :
  wf st -> 0 <= a -> a mod BYTES_PER_ELEMENT ty = 0 ->
  a + BYTES_PER_ELEMENT ty <= sizeInBytes (this st) ->
  storage_set ty (a / BYTES_PER_ELEMENT ty) v st =
  (Ok tt, with_buffer st (store_bytes (addr st a) (encode ty v) (buffer st))).
Proof.
  intros Hwf Ha Hm Hfit.
  destruct (index_in_view ty st a 1 Hwf Ha Hm ltac:(lia) ltac:(lia)) as [H0 H1].
  unfold storage_set.
  replace ((0 <=? _) && (_ <? _)) with true.
  2:{ symmetry. apply andb_true_iff. split; [apply Z.leb_le | apply Z.ltb_lt]; lia. }
  unfold with_buffer, addr.
  pose proof (BPE_pos ty).
  apply Z.mod_divide in Hm; [|lia]. destruct Hm as [q ->].
  rewrite Z.div_mul by lia. reflexivity.
Qed.

Lemma storage_get_spec ty st a :
  wf st -> 0 <= a -> a mod BYTES_PER_ELEMENT ty = 0 ->
  a + BYTES_PER_ELEMENT ty <= sizeInBytes (this st) ->
  storage_get ty (a / BYTES_PER_ELEMENT ty) st =
  (Ok (Some (decode ty (load_bytes (addr st a) (width ty) (buffer st)))), st).
Proof.
  intros Hwf Ha Hm Hfit.
  destruct (index_in_view ty st a 1 Hwf Ha Hm ltac:(lia) ltac:(lia)) as [H0 H1].
  unfold storage_get.
  replace ((0 <=? _) && (_ <? _)) with true.
  2:{ symmetry. apply andb_true_iff. split; [apply Z.leb_le | apply Z.ltb_lt]; lia. }
  unfold addr.
  pose proof (BPE_pos ty).
  apply Z.mod_divide in Hm; [|lia]. destruct Hm as [q ->].
  rewrite Z.div_mul by lia. reflexivity.
Qed.

Lemma storage_set_all_spec ty st a arr :
  wf st -> 0 <= a -> a mod BYTES_PER_ELEMENT ty = 0 ->
  a + Z.of_nat (length arr) * BYTES_PER_ELEMENT ty <= sizeInBytes (this st) ->
  storage_set_all ty arr (a / BYTES_PER_ELEMENT ty) st =
  (Ok tt, with_buffer st (store_bytes (addr st a) (mjoin (encode ty <$> arr)) (buffer st))).
Proof.
  intros Hwf Ha Hm Hfit.
  destruct (index_in_view ty st a (Z.of_nat (length arr)) Hwf Ha Hm ltac:(lia) ltac:(lia))
    as [H0 H1].
  unfold storage_set_all.
  replace ((_ <? 0) || (_ <? _)) with false.
  2:{ symmetry. apply orb_false_iff. split; apply Z.ltb_ge; lia. }
  unfold with_buffer, addr.
  pose proof (BPE_pos ty).
  apply Z.mod_divide in Hm; [|lia]. destruct Hm as [q ->].
  rewrite Z.div_mul by lia. reflexivity.
Qed.

Lemma storage_subarray_spec ty st a n :
  wf st -> 0 <= a -> a mod BYTES_PER_ELEMENT ty = 0 -> 0 <= n ->
  a + n * BYTES_PER_ELEMENT ty <= sizeInBytes (this st) ->
  storage_subarray ty (a / BYTES_PER_ELEMENT ty) (a / BYTES_PER_ELEMENT ty + n) st =
  (Ok (mkView ty (addr st a) n), st).
Proof.
  intros Hwf Ha Hm Hn Hfit.
  destruct (index_in_view ty st a n Hwf Ha Hm Hn Hfit) as [H0 H1].
  unfold storage_subarray, relative_index.
  destruct (Z.ltb_spec (a / BYTES_PER_ELEMENT ty) 0); [lia|].
  destruct (Z.ltb_spec (a / BYTES_PER_ELEMENT ty + n) 0); [lia|].
  rewrite !Z.min_l by lia.
  replace (_ + n - _) with n by lia. rewrite Z.max_l by lia.
  unfold addr.
  pose proof (BPE_pos ty).
  apply Z.mod_divide in Hm; [|lia]. destruct Hm as [q ->].
  rewrite Z.div_mul by lia. reflexivity.
Qed.

(** ** What each primitive does on a well-formed channel *)

Section Primitives.
Context (ty : ElemType) (st : State) (Hwf : wf st).

#[local] Abbreviation c := (offset (this st)).
#[local] Abbreviation a := (aligned ty (offset (this st))).
#[local] Abbreviation w := (BYTES_PER_ELEMENT ty).
#[local] Abbreviation size := (sizeInBytes (this st)).

Lemma a_facts : 0 <= a /\ a mod w = 0 /\ c <= a < c + w /\ a <= size.
Proof.
  destruct Hwf as [? ? Hs8 ? ? ?].
  pose proof (aligned_bounds ty (offset (this st))).
  pose proof (aligned_multiple ty (offset (this st))).
  pose proof (aligned_le_size ty (offset (this st)) _ Hs8 ltac:(lia)).
  lia.
Qed.

Lemma write_spec v :
  Writer.write ty v st =
  if size <? a + w then (Throw ReachedEndOfChannel, with_offset st a)
  else (Ok tt, with_buffer (with_offset st (a + w))
                 (store_bytes (addr st a) (encode ty v) (buffer st))).
Proof.
  unfold Writer.write. rewrite reserve_spec by done. cbn zeta.
  rewrite Z.mul_1_l.
  destruct (Z.ltb_spec size (a + w)); [done|].
  destruct a_facts as (? & ? & ? & ?).
  rewrite storage_set_spec; try done.
  - apply wf_with_offset; [done|]. pose proof (BPE_pos ty); lia.
Qed.

Lemma read_spec :
  Reader.read ty st =
  if size <? a + w then (Throw ReachedEndOfChannel, with_offset st a)
  else (Ok (Some (decode ty (load_bytes (addr st a) (width ty) (buffer st)))),
        with_offset st (a + w)).
Proof.
  unfold Reader.read. rewrite reserve_spec by done. cbn zeta.
  rewrite Z.mul_1_l.
  destruct (Z.ltb_spec size (a + w)); [done|].
  destruct a_facts as (? & ? & ? & ?).
  rewrite storage_get_spec; try done.
  - apply wf_with_offset; [done|]. pose proof (BPE_pos ty); lia.
Qed.

Lemma init_spec :
  Writer.init ty st =
  if size <? a + w then (Throw ReachedEndOfChannel, with_offset st a)
  else (Ok (fun value => storage_set ty (a / w) value), with_offset st (a + w)).
Proof.
  unfold Writer.init. rewrite reserve_spec by done. cbn zeta.
  rewrite Z.mul_1_l.
  destruct (Z.ltb_spec size (a + w)); done.
Qed.

Lemma initElements_spec n :
  0 <= n ->
  Writer.initElements ty n st =
  if size <? a + n * w then (Throw ReachedEndOfChannel, with_offset st a)
  else (Ok (mkView ty (addr st a) n), with_offset st (a + n * w)).
Proof.
  intros Hn.
  unfold Writer.initElements. rewrite reserve_spec by done. cbn zeta.
  destruct (Z.ltb_spec size (a + n * w)); [done|].
  destruct a_facts as (? & ? & ? & ?).
  rewrite storage_subarray_spec; try done.
  - apply wf_with_offset; [done|]. pose proof (BPE_pos ty); nia.
Qed.

Lemma readElements_spec n :
  0 <= n ->
  Reader.readElements ty n st =
  if size <? a + n * w then (Throw ReachedEndOfChannel, with_offset st a)
  else (Ok (mkView ty (addr st a) n), with_offset st (a + n * w)).
Proof. apply initElements_spec. Qed.

Lemma copyElements_spec arr :
  Writer.copyElements ty arr st =
  if size <? a + Z.of_nat (length arr) * w
  then (Throw ReachedEndOfChannel, with_offset st a)
  else (Ok tt, with_buffer (with_offset st (a + Z.of_nat (length arr) * w))
                 (store_bytes (addr st a) (mjoin (encode ty <$> arr)) (buffer st))).
Proof.
  unfold Writer.copyElements. rewrite reserve_spec by done. cbn zeta.
  destruct (Z.ltb_spec size (a + Z.of_nat (length arr) * w)); [done|].
  destruct a_facts as (? & ? & ? & ?).
  rewrite storage_set_all_spec; try done.
  - apply wf_with_offset; [done|]. pose proof (BPE_pos ty); nia.
Qed.

End Primitives.

(** ** Bytes stay bytes *)

Lemma is_byte_le_bytes n v : Forall is_byte (le_bytes n v).
Proof.
  revert v. induction n as [|n IH]; intros v; cbn [le_bytes]; constructor; [|done].
  unfold is_byte. apply Z.mod_pos_bound. lia.
Qed.

Lemma is_byte_encode ty v : Forall is_byte (encode ty v).
Proof. apply is_byte_le_bytes. Qed.

Lemma is_byte_mjoin_encode ty (arr : list Z) : Forall is_byte (mjoin (encode ty <$> arr)).
Proof.
  induction arr as [|x arr IH]; [constructor|].
  rewrite fmap_cons, mjoin_cons. apply Forall_app. split; [apply is_byte_encode | done].
Qed.

Lemma le_value_nonneg bs : Forall is_byte bs -> 0 <= le_value bs.
Proof. induction 1 as [|b bs Hb _ IH]; cbn [le_value]; unfold is_byte in *; lia. Qed.

Lemma le_value_bound bs : Forall is_byte bs -> le_value bs < 256 ^ Z.of_nat (length bs).
Proof.
  induction 1 as [|b bs Hb _ IH]; [done|].
  cbn [le_value length]. rewrite Nat2Z.inj_succ, Z.pow_succ_r by lia.
  unfold is_byte in *. lia.
Qed.

Lemma is_byte_load a n b : Forall is_byte b -> Forall is_byte (load_bytes a n b).
Proof. intros H. unfold load_bytes. by apply Forall_take, Forall_drop. Qed.

(** ** Frames *)

Lemma step_ok_refl st : wf st -> step_ok st st.
Proof. intros. constructor; try done; lia. Qed.

Lemma step_ok_trans st1 st2 st3 : step_ok st1 st2 -> step_ok st2 st3 -> step_ok st1 st3.
Proof.
  intros [Hb1 Hs1 Hw1 Hm1 Hl1 Hf1] [Hb2 Hs2 Hw2 Hm2 Hl2 Hf2].
  constructor; try congruence; try lia.
  intros i Hi. unfold unchanged_outside, addr in *.
  rewrite Hf2, Hf1; [done| |]; rewrite ?Hb2; lia.
Qed.

Lemma step_ok_offset st e :
  wf st -> offset (this st) <= e <= sizeInBytes (this st) -> step_ok st (with_offset st e).
Proof.
  intros Hwf He. constructor; cbn; try done; try lia.
  apply wf_with_offset; [done|]. destruct Hwf. lia.
Qed.

Lemma step_ok_store st e a bs :
  wf st -> offset (this st) <= a -> a + Z.of_nat (length bs) <= e ->
  e <= sizeInBytes (this st) -> Forall is_byte bs ->
  step_ok st (with_buffer (with_offset st e) (store_bytes (addr st a) bs (buffer st))).
Proof.
  intros Hwf Ha Hae He Hbs. pose proof Hwf as [? ? ? ? ? ?].
  constructor; cbn; try done; try lia.
  - apply wf_with_buffer; cbn.
    + apply wf_with_offset; [done|lia].
    + apply length_store_bytes.
    + by apply Forall_inserts.
  - apply length_store_bytes.
  - intros i Hi. unfold addr in *. apply lookup_store_bytes_outside; lia.
Qed.

(** ** Summaries of the methods *)

Lemma summary_bind {A B} (m : M A) (k : A -> M B) st e1 e2 :
  summary m st e1 -> e1 <= e2 ->
  (forall x st1, m st = (Ok x, st1) -> step_ok st st1 -> offset (this st1) = e1 ->
                 summary (k x) st1 e2) ->
  summary (bind m k) st e2.
Proof.
  intros Hm Hle Hk r st' Hrun. unfold bind in Hrun.
  destruct (m st) as [[x|e] st1] eqn:E.
  - destruct (Hm _ _ E) as [Hok [[_ Hoff]|[? _]]]; [|done].
    destruct (Hk x st1 eq_refl Hok Hoff _ _ Hrun) as [Hok2 Hres].
    split; [by eapply step_ok_trans|].
    rewrite (so_size _ _ Hok) in Hres. done.
  - inversion Hrun; subst. destruct (Hm _ _ E) as [Hok [[[? ?] _]|[Heq ?]]]; [done|].
    injection Heq as ->. split; [done|]. right. split; [done|lia].
Qed.

Lemma summary_ret {A} (x : A) st : wf st -> summary (ret x) st (offset (this st)).
Proof.
  intros Hwf r st' Hrun. inversion Hrun; subst.
  split; [by apply step_ok_refl|]. left. eauto.
Qed.

Lemma summary_map {A B} (m : M A) (f : A -> B) st e :
  summary m st e -> summary (x <- m ;; ret (f x)) st e.
Proof.
  intros Hm. eapply summary_bind; [done|lia|].
  intros x st1 _ Hok <-. apply summary_ret. by destruct Hok.
Qed.

Section PrimitiveSummaries.
Context (ty : ElemType) (st : State) (Hwf : wf st).

Lemma extent_scalar_ge : offset (this st) < extent_scalar ty (offset (this st)).
Proof.
  unfold extent_scalar. pose proof (aligned_bounds ty (offset (this st))).
  pose proof (BPE_pos ty). lia.
Qed.

Lemma extent_elements_ge n :
  0 <= n -> offset (this st) <= extent_elements ty n (offset (this st)).
Proof.
  intros. unfold extent_elements. pose proof (aligned_bounds ty (offset (this st))).
  pose proof (BPE_pos ty). nia.
Qed.

Lemma aligned_in_window :
  offset (this st) <= aligned ty (offset (this st)) <= sizeInBytes (this st).
Proof. destruct (a_facts ty st Hwf) as (? & ? & ? & ?). lia. Qed.

Lemma write_summary v :
  summary (Writer.write ty v) st (extent_scalar ty (offset (this st))).
Proof.
  intros r st'. rewrite write_spec by done. unfold extent_scalar.
  pose proof aligned_in_window. pose proof (BPE_pos ty).
  destruct (Z.ltb_spec (sizeInBytes (this st))
              (aligned ty (offset (this st)) + BYTES_PER_ELEMENT ty));
    intros [= <- <-].
  - split; [by apply step_ok_offset|]. right. done.
  - split; [|left; eauto].
    apply step_ok_store; try done; try lia.
    + rewrite length_encode, width_BPE. lia.
    + apply is_byte_encode.
Qed.

Lemma read_summary :
  summary (Reader.read ty) st (extent_scalar ty (offset (this st))).
Proof.
  intros r st'. rewrite read_spec by done. unfold extent_scalar.
  pose proof aligned_in_window. pose proof (BPE_pos ty).
  destruct (Z.ltb_spec (sizeInBytes (this st))
              (aligned ty (offset (this st)) + BYTES_PER_ELEMENT ty));
    intros [= <- <-].
  - split; [by apply step_ok_offset|]. right. done.
  - split; [|left; eauto]. apply step_ok_offset; [done|lia].
Qed.

Lemma init_summary :
  summary (Writer.init ty) st (extent_scalar ty (offset (this st))).
Proof.
  intros r st'. rewrite init_spec by done. unfold extent_scalar.
  pose proof aligned_in_window. pose proof (BPE_pos ty).
  destruct (Z.ltb_spec (sizeInBytes (this st))
              (aligned ty (offset (this st)) + BYTES_PER_ELEMENT ty));
    intros [= <- <-].
  - split; [by apply step_ok_offset|]. right. done.
  - split; [|left; eauto]. apply step_ok_offset; [done|lia].
Qed.

Lemma initElements_summary n :
  0 <= n ->
  summary (Writer.initElements ty n) st (extent_elements ty n (offset (this st))).
Proof.
  intros Hn r st'. rewrite initElements_spec by done. unfold extent_elements.
  pose proof aligned_in_window. pose proof (BPE_pos ty).
  destruct (Z.ltb_spec (sizeInBytes (this st))
              (aligned ty (offset (this st)) + n * BYTES_PER_ELEMENT ty));
    intros [= <- <-].
  - split; [by apply step_ok_offset|]. right. done.
  - split; [|left; eauto]. apply step_ok_offset; [done|nia].
Qed.

Lemma readElements_summary n :
  0 <= n ->
  summary (Reader.readElements ty n) st (extent_elements ty n (offset (this st))).
Proof. apply initElements_summary. Qed.

Lemma copyElements_summary arr :
  summary (Writer.copyElements ty arr) st
          (extent_elements ty (Z.of_nat (length arr)) (offset (this st))).
Proof.
  intros r st'. rewrite copyElements_spec by done. unfold extent_elements.
  pose proof aligned_in_window. pose proof (BPE_pos ty).
  destruct (Z.ltb_spec (sizeInBytes (this st))
              (aligned ty (offset (this st)) + Z.of_nat (length arr) * BYTES_PER_ELEMENT ty));
    intros [= <- <-].
  - split; [by apply step_ok_offset|]. right. done.
  - split; [|left; eauto].
    apply step_ok_store; try done; try lia.
    + rewrite length_mjoin_encode, Nat2Z.inj_mul, width_BPE. lia.
    + apply is_byte_mjoin_encode.
Qed.

End PrimitiveSummaries.

Lemma extent_array_ge ty n c : 0 <= n -> extent_scalar Uint32 c <= extent_array ty n c.
Proof.
  intros. unfold extent_array, extent_elements.
  pose proof (aligned_bounds ty (extent_scalar Uint32 c)). pose proof (BPE_pos ty). nia.
Qed.

Lemma initArray_summary ty n st :
  wf st -> 0 <= n ->
  summary (Writer.initArray ty n) st (extent_array ty n (offset (this st))).
Proof.
  intros Hwf Hn. unfold Writer.initArray, Writer.writeUint32.
  eapply summary_bind; [by apply write_summary | by apply extent_array_ge |].
  intros [] st1 _ Hok Hoff. unfold extent_array. rewrite <- Hoff.
  apply initElements_summary; [by destruct Hok | done].
Qed.

Lemma copyArray_summary ty arr st :
  wf st ->
  summary (Writer.copyArray ty arr) st
          (extent_array ty (Z.of_nat (length arr)) (offset (this st))).
Proof.
  intros Hwf. unfold Writer.copyArray, Writer.writeUint32.
  eapply summary_bind; [by apply write_summary | apply extent_array_ge; lia |].
  intros [] st1 _ Hok Hoff. unfold extent_array. rewrite <- Hoff.
  apply copyElements_summary. by destruct Hok.
Qed.

Lemma readArray_summary ty st :
  wf st ->
  summary (Reader.readArray ty) st (extent_readArray ty st (offset (this st))).
Proof.
  intros Hwf r st'. unfold Reader.readArray, Reader.readUint32, bind.
  rewrite read_spec by done. unfold extent_readArray, extent_scalar.
  cbn [BYTES_PER_ELEMENT].
  pose proof (aligned_in_window Uint32 st Hwf) as Ha.
  destruct (Z.ltb_spec (sizeInBytes (this st)) (aligned Uint32 (offset (this st)) + 4)).
  - intros [= <- <-]. split; [by apply step_ok_offset|]. right. done.
  - set (n := decode Uint32 _).
    assert (Hn : 0 <= n).
    { subst n. cbn [decode]. apply le_value_nonneg, is_byte_load. by destruct Hwf. }
    set (st1 := with_offset st _).
    assert (Hok1 : step_ok st st1) by (apply step_ok_offset; [done|lia]).
    intros Hrun.
    destruct (readElements_summary ty st1 (so_wf _ _ Hok1) n Hn _ _ Hrun) as [Hok2 Hres].
    split; [by eapply step_ok_trans|].
    unfold extent_array, extent_scalar. cbn [BYTES_PER_ELEMENT]. exact Hres.
Qed.

(** ** Methods that leave the buffer alone *)

Lemma read_only_bind {A B} (m : M A) (k : A -> M B) :
  read_only m -> (forall x, read_only (k x)) -> read_only (bind m k).
Proof.
  intros Hm Hk st r st'. unfold bind.
  destruct (m st) as [[x|e] st1] eqn:E.
  - intros Hrun. rewrite (Hk _ _ _ _ Hrun). eauto.
  - intros [= <- <-]. eauto.
Qed.

Lemma read_only_ret {A} (x : A) : read_only (ret x).
Proof. by intros st r st' [= <- <-]. Qed.

Lemma read_only_throw {A} e : read_only (@throw A e).
Proof. by intros st r st' [= <- <-]. Qed.

Lemma read_only_offsetOf ty : read_only (offsetOf ty).
Proof.
  intros st r st'.
  destruct ty; cbn [offsetOf];
    unfold offset8, offset32, offset64, bind, get_offset, set_offset, ret;
    by intros [= <- <-].
Qed.

Lemma read_only_advanceOf ty n : read_only (advanceOf ty n).
Proof.
  intros st r st'.
  destruct ty; cbn [advanceOf]; unfold advance32, advance64, advance8, set_offset;
    destruct (_ <? _); by intros [= <- <-].
Qed.

Lemma read_only_storage_get ty i : read_only (storage_get ty i).
Proof. intros st r st'. unfold storage_get. destruct (_ && _); by intros [= <- <-]. Qed.

Lemma read_only_storage_subarray ty i j : read_only (storage_subarray ty i j).
Proof. by intros st r st' [= <- <-]. Qed.

Lemma read_only_read ty : read_only (Reader.read ty).
Proof.
  unfold Reader.read.
  apply read_only_bind; [apply read_only_offsetOf|]. intros.
  apply read_only_bind; [apply read_only_advanceOf|]. intros.
  apply read_only_storage_get.
Qed.

Lemma read_only_elements ty n : read_only (Reader.readElements ty n).
Proof.
  unfold Reader.readElements.
  apply read_only_bind; [apply read_only_offsetOf|]. intros.
  apply read_only_bind; [apply read_only_advanceOf|]. intros.
  apply read_only_storage_subarray.
Qed.

Lemma read_only_readArray ty : read_only (Reader.readArray ty).
Proof.
  unfold Reader.readArray.
  apply read_only_bind; [apply read_only_read|]. intros [n|].
  - apply read_only_elements.
  - apply read_only_throw.
Qed.

Lemma read_only_readArrays ty count : read_only (Reader.readArrays ty count).
Proof.
  induction count as [|count IH]; cbn [Reader.readArrays].
  - apply read_only_ret.
  - apply read_only_bind; [apply read_only_readArray|]. intros.
    apply read_only_bind; [apply IH|]. intros. apply read_only_ret.
Qed.

(** ** Explicit forms of the length-prefixed methods *)

Lemma wf_after_prefix st v :
  wf st ->
  aligned Uint32 (offset (this st)) + 4 <= sizeInBytes (this st) ->
  wf (with_buffer (with_offset st (aligned Uint32 (offset (this st)) + 4))
        (store_bytes (addr st (aligned Uint32 (offset (this st))))
           (encode Uint32 v) (buffer st))).
Proof.
  intros Hwf Hfit. pose proof (aligned_in_window Uint32 st Hwf).
  apply (so_wf st). apply step_ok_store.
  - done.
  - lia.
  - rewrite length_encode. change (Z.of_nat (width Uint32)) with 4. lia.
  - lia.
  - apply is_byte_encode.
Qed.

Lemma initArray_spec ty n st :
  wf st -> 0 <= n ->
  Writer.initArray ty n st =
  let p := aligned Uint32 (offset (this st)) in
  if sizeInBytes (this st) <? p + 4 then (Throw ReachedEndOfChannel, with_offset st p)
  else
    let b1 := store_bytes (addr st p) (encode Uint32 n) (buffer st) in
    let a := aligned ty (p + 4) in
    if sizeInBytes (this st) <? a + n * BYTES_PER_ELEMENT ty
    then (Throw ReachedEndOfChannel, with_buffer (with_offset st a) b1)
    else (Ok (mkView ty (addr st a) n),
          with_buffer (with_offset st (a + n * BYTES_PER_ELEMENT ty)) b1).
Proof.
  intros Hwf Hn. unfold Writer.initArray, Writer.writeUint32. unfold bind at 1.
  rewrite write_spec by done. cbn [BYTES_PER_ELEMENT]. cbn zeta.
  destruct (Z.ltb_spec (sizeInBytes (this st)) (aligned Uint32 (offset (this st)) + 4));
    [done|].
  rewrite initElements_spec by (done || by apply wf_after_prefix). cbn.
  destruct (_ <? _); reflexivity.
Qed.

Lemma copyArray_spec ty arr st :
  wf st ->
  Writer.copyArray ty arr st =
  let n := Z.of_nat (length arr) in
  let p := aligned Uint32 (offset (this st)) in
  if sizeInBytes (this st) <? p + 4 then (Throw ReachedEndOfChannel, with_offset st p)
  else
    let b1 := store_bytes (addr st p) (encode Uint32 n) (buffer st) in
    let a := aligned ty (p + 4) in
    if sizeInBytes (this st) <? a + n * BYTES_PER_ELEMENT ty
    then (Throw ReachedEndOfChannel, with_buffer (with_offset st a) b1)
    else (Ok tt,
          with_buffer (with_offset st (a + n * BYTES_PER_ELEMENT ty))
            (store_bytes (addr st a) (mjoin (encode ty <$> arr)) b1)).
Proof.
  intros Hwf. unfold Writer.copyArray, Writer.writeUint32. unfold bind at 1.
  rewrite write_spec by done. cbn [BYTES_PER_ELEMENT]. cbn zeta.
  destruct (Z.ltb_spec (sizeInBytes (this st)) (aligned Uint32 (offset (this st)) + 4));
    [done|].
  rewrite copyElements_spec by (by apply wf_after_prefix). cbn.
  destruct (_ <? _); reflexivity.
Qed.

Lemma readArray_spec ty st :
  wf st ->
  Reader.readArray ty st =
  let p := aligned Uint32 (offset (this st)) in
  if sizeInBytes (this st) <? p + 4 then (Throw ReachedEndOfChannel, with_offset st p)
  else
    let n := decode Uint32 (load_bytes (addr st p) 4 (buffer st)) in
    let a := aligned ty (p + 4) in
    if sizeInBytes (this st) <? a + n * BYTES_PER_ELEMENT ty
    then (Throw ReachedEndOfChannel, with_offset st a)
    else (Ok (mkView ty (addr st a) n), with_offset st (a + n * BYTES_PER_ELEMENT ty)).
Proof.
  intros Hwf. unfold Reader.readArray, Reader.readUint32. unfold bind at 1.
  rewrite read_spec by done. cbn [BYTES_PER_ELEMENT]. cbn zeta.
  pose proof (aligned_in_window Uint32 st Hwf). pose proof (wf_cursor _ Hwf).
  destruct (Z.ltb_spec (sizeInBytes (this st)) (aligned Uint32 (offset (this st)) + 4));
    [done|].
  change (width Uint32) with 4%nat.
  set (n := decode Uint32 _).
  assert (Hn : 0 <= n).
  { subst n. cbn [decode]. apply le_value_nonneg, is_byte_load. by destruct Hwf. }
  rewrite readElements_spec by (done || (apply wf_with_offset; [done|lia])). cbn.
  destruct (_ <? _); reflexivity.
Qed.

(** The loop of [writeAsciiString] only stores inside its view. *)
Lemma fill_from_end_spec (data : View) units i st :
  view_type data = Uint8 -> 0 <= view_offset data ->
  exists b',
    Writer.fill_from_end data units i st = (Ok tt, with_buffer st b') /\
    length b' = length (buffer st) /\
    (Forall is_byte (buffer st) -> Forall is_byte b') /\
    (forall j : nat,
        Z.of_nat j < view_offset data \/ view_offset data + view_len data <= Z.of_nat j ->
        b' !! j = buffer st !! j).
Proof.
  intros Hty Hoff. revert st. induction i as [|i IH]; intros st.
  - exists (buffer st). by destruct st.
  - cbn [Writer.fill_from_end]. unfold bind at 1. unfold view_set. rewrite Hty.
    cbn [BYTES_PER_ELEMENT].
    destruct ((0 <=? Z.of_nat i) && (Z.of_nat i <? view_len data)) eqn:E.
    + apply andb_true_iff in E as [_ E%Z.ltb_lt].
      destruct (IH (mkState (this st)
                      (store_bytes (view_offset data + Z.of_nat i * 1)
                         (encode Uint8 (nth i units 0)) (buffer st))))
        as (b' & Hrun & Hlen & Hbytes & Hout).
      exists b'. cbn in *. rewrite Hrun. split; [done|].
      split; [by rewrite Hlen, length_store_bytes|].
      split.
      * intros Hb. apply Hbytes, Forall_inserts; [done|apply is_byte_encode].
      * intros j Hj. rewrite Hout by done.
        apply lookup_store_bytes_outside; [lia|].
        rewrite length_encode. change (Z.of_nat (width Uint8)) with 1. lia.
    + destruct (IH st) as (b' & Hrun & Hlen & Hbytes & Hout).
      exists b'. by rewrite Hrun.
Qed.

Lemma writeAsciiString_summary value st :
  wf st ->
  summary (Writer.writeAsciiString value) st
          (extent_array Uint8 (Z.of_nat (length value)) (offset (this st))).
Proof.
  intros Hwf r st'. unfold Writer.writeAsciiString, Writer.initUint8Array.
  unfold bind at 1.
  pose proof (initArray_summary Uint8 (Z.of_nat (length value)) st Hwf ltac:(lia)) as Hsum.
  destruct (Writer.initArray Uint8 _ st) as [[data|e] st1] eqn:E.
  - destruct (Hsum _ _ E) as [Hok [[_ Hoff]|[? _]]]; [|done].
    rewrite initArray_spec in E by (done || lia). cbn zeta in E.
    destruct (_ <? _); [done|]. destruct (Z.ltb_spec (sizeInBytes (this st)) (aligned Uint8
      (aligned Uint32 (offset (this st)) + 4) + Z.of_nat (length value) * BYTES_PER_ELEMENT Uint8)) as [|Hfit];
      [done|].
    injection E as <- Est1.
    pose proof (aligned_bounds Uint8 (aligned Uint32 (offset (this st)) + 4)) as Ha.
    pose proof (aligned_in_window Uint32 st Hwf) as Hp.
    pose proof (wf_base _ Hwf). pose proof (wf_cursor _ Hwf).
    cbn [BYTES_PER_ELEMENT] in *.
    edestruct (fill_from_end_spec
                 (mkView Uint8 (addr st (aligned Uint8 (aligned Uint32 (offset (this st)) + 4)))
                         (Z.of_nat (length value)))
                 value (length value) st1)
      as (b' & Hrun & Hlen & Hbytes & Hout); [done| cbn; unfold addr; lia |].
    rewrite Hrun. intros [= <- <-].
    split; [|left; eauto].
    destruct Hok as [Hb1 Hs1 Hw1 Hm1 Hl1 Hf1].
    constructor; cbn; try done; try congruence.
    + apply wf_with_buffer; [done|done|]. apply Hbytes. by destruct Hw1.
    + intros j Hj. cbn in *. rewrite Hout; [by apply Hf1|].
      rewrite Hoff in Hj. unfold extent_array, extent_elements, extent_scalar, addr in *.
      cbn [BYTES_PER_ELEMENT] in *. lia.
  - destruct (Hsum _ _ E) as [Hok [[[? ?] _]|[Heq ?]]]; [done|].
    injection Heq as ->. intros [= <- <-]. split; [done|]. by right.
Qed.

Lemma extent_readArray_ge ty st c :
  Forall is_byte (buffer st) -> c < extent_readArray ty st c.
Proof.
  intros Hb. unfold extent_readArray, extent_array, extent_elements, extent_scalar.
  pose proof (aligned_bounds Uint32 c).
  pose proof (aligned_bounds ty (aligned Uint32 c + BYTES_PER_ELEMENT Uint32)).
  pose proof (BPE_pos ty). cbn [BYTES_PER_ELEMENT] in *.
  destruct (_ <? _); [lia|].
  assert (0 <= decode Uint32 (load_bytes (addr st (aligned Uint32 c)) 4 (buffer st))).
  { cbn [decode]. by apply le_value_nonneg, is_byte_load. }
  nia.
Qed.

Lemma extent_readArrays_ge ty count st c :
  Forall is_byte (buffer st) -> c <= extent_readArrays ty count st c.
Proof.
  intros Hb. revert c. induction count as [|count IH]; intros c; cbn [extent_readArrays]; [lia|].
  pose proof (extent_readArray_ge ty st c Hb).
  destruct (_ <? _); [lia|]. specialize (IH (extent_readArray ty st c)). lia.
Qed.

Lemma extent_readArrays_ext ty count st st' c :
  buffer st' = buffer st -> byteOffset (this st') = byteOffset (this st) ->
  sizeInBytes (this st') = sizeInBytes (this st) ->
  extent_readArrays ty count st' c = extent_readArrays ty count st c.
Proof.
  intros Hb Ho Hs. revert c. induction count as [|count IH]; intros c; [done|].
  cbn [extent_readArrays]. unfold extent_readArray, addr. rewrite Hb, Ho, Hs.
  destruct (_ <? _); [done|]. by rewrite IH.
Qed.

Lemma readArrays_summary ty count st :
  wf st ->
  summary (Reader.readArrays ty count) st
          (extent_readArrays ty count st (offset (this st))).
Proof.
  revert st. induction count as [|count IH]; intros st Hwf.
  - cbn. by apply summary_ret.
  - cbn [Reader.readArrays extent_readArrays].
    pose proof (extent_readArrays_ge ty count st
                  (extent_readArray ty st (offset (this st))) (wf_bytes _ Hwf)).
    eapply summary_bind; [by apply readArray_summary| destruct (_ <? _); lia |].
    intros v st1 Hrun Hok Hoff.
    destruct (Z.ltb_spec (sizeInBytes (this st)) (extent_readArray ty st (offset (this st))))
      as [Hlt|_].
    { pose proof (wf_cursor _ (so_wf _ _ Hok)). rewrite (so_size _ _ Hok) in *. lia. }
    apply (summary_map _ (fun vs => v :: vs)).
    rewrite <- Hoff.
    rewrite <- (extent_readArrays_ext ty count st st1).
    + apply IH. by destruct Hok.
    + by apply read_only_readArray in Hrun.
    + by destruct Hok.
    + by destruct Hok.
Qed.

(** ** Bounds *)

Lemma exec_summary op st :
  wf st -> valid op -> summary (exec op) st (extent op st).
Proof.
  intros Hwf Hv. destruct op; cbn [exec extent valid] in *.
  - by apply write_summary.
  - apply (summary_map _ (fun _ => tt)). by apply init_summary.
  - apply (summary_map _ (fun _ => tt)). by apply initElements_summary.
  - apply (summary_map _ (fun _ => tt)). by apply initArray_summary.
  - by apply copyElements_summary.
  - by apply copyArray_summary.
  - by apply writeAsciiString_summary.
  - apply (summary_map _ (fun _ => tt)). by apply read_summary.
  - apply (summary_map _ (fun _ => tt)). by apply readElements_summary.
  - apply (summary_map _ (fun _ => tt)). by apply readArray_summary.
  - apply (summary_map _ (fun _ => tt)). by apply readArrays_summary.
Qed.

(** C3. An operation raises the bounds error exactly when its aligned
    cursor plus its total width is beyond the capacity of the channel;
    otherwise it returns.  The error is an ordinary thrown value: a handler
    catches it and the channel is still well formed.  Failing or not, the
    operation changes no byte outside the window of the channel. *)
Theorem bounds_error_iff_beyond_capacity (op : Op) (st st' : State) (r : Res unit) :
  wf st -> valid op ->
  exec op st = (r, st') ->
  (r = Throw ReachedEndOfChannel <-> sizeInBytes (this st) < extent op st) /\
  (r = Ok tt \/ r = Throw ReachedEndOfChannel) /\
  try_catch (exec op) (fun _ => ret tt) st = (Ok tt, st') /\
  wf st' /\
  length (buffer st') = length (buffer st) /\
  (forall i : nat,
      Z.of_nat i < byteOffset (this st) \/
      byteOffset (this st) + sizeInBytes (this st) <= Z.of_nat i ->
      buffer st' !! i = buffer st !! i).
Proof.
  intros Hwf Hv Hrun.
  destruct (exec_summary op st Hwf Hv r st' Hrun) as [Hok Hres].
  pose proof (so_wf _ _ Hok) as Hwf'.
  pose proof (wf_cursor _ Hwf') as Hc'. pose proof (wf_cursor _ Hwf) as Hc.
  rewrite (so_size _ _ Hok) in Hc'.
  split; [|split; [|split; [|split; [done|split]]]].
  - destruct Hres as [[[[] ->] He]|[-> He]]; split; try done; lia.
  - destruct Hres as [[[[] ->] _]|[-> _]]; auto.
  - unfold try_catch. rewrite Hrun.
    by destruct Hres as [[[[] ->] _]|[-> _]].
  - apply (so_len _ _ Hok).
  - intros i Hi. apply (so_frame _ _ Hok). unfold addr. lia.
Qed.

(** ** A failed reservation has stored nothing *)

Lemma offsetOf_total ty st :
  exists i o, offsetOf ty st = (Ok i, with_offset st o).
Proof.
  destruct ty; cbn [offsetOf];
    unfold offset8, offset32, offset64, bind, get_offset, set_offset, ret, with_offset;
    cbn; eauto.
  exists (offset (this st)), (offset (this st)). by destruct st as [[] ?].
Qed.

Lemma reserve_throws {A} ty n (k : Z -> M A) st st' :
  (forall i s s', k i s <> (Throw ReachedEndOfChannel, s')) ->
  (start <- offsetOf ty ;; advanceOf ty n ;; k start) st = (Throw ReachedEndOfChannel, st') ->
  exists i o, offsetOf ty st = (Ok i, with_offset st o) /\ st' = with_offset st o.
Proof.
  intros Hk. unfold bind at 1.
  destruct (offsetOf_total ty st) as (i & o & ->). intros Hrun.
  exists i, o. split; [done|].
  unfold bind in Hrun. rewrite advanceOf_spec in Hrun.
  destruct (_ <? _).
  - by injection Hrun as <-.
  - by apply Hk in Hrun.
Qed.

Lemma storage_set_no_throw ty i v s s' e : storage_set ty i v s <> (Throw e, s').
Proof. unfold storage_set. by destruct (_ && _). Qed.

Lemma storage_set_all_no_end ty arr i s s' :
  storage_set_all ty arr i s <> (Throw ReachedEndOfChannel, s').
Proof. unfold storage_set_all. by destruct (_ || _). Qed.

Lemma single_store_throws op st st' :
  single_store op ->
  exec op st = (Throw ReachedEndOfChannel, st') ->
  exists i o, offsetOf (op_type op) st = (Ok i, with_offset st o) /\ st' = with_offset st o.
Proof.
  intros Hs Hrun. destruct op; try done; cbn [exec op_type] in *.
  - eapply reserve_throws; [|exact Hrun]. intros. apply storage_set_no_throw.
  - destruct (offsetOf_total ty st) as (i & o & E). exists i, o. split; [done|].
    revert Hrun. unfold Writer.init, bind, ret. rewrite E, advanceOf_spec.
    destruct (_ <? _); [by intros [= <-]|done].
  - destruct (offsetOf_total ty st) as (i & o & E). exists i, o. split; [done|].
    revert Hrun. unfold Writer.initElements, bind, ret, storage_subarray.
    rewrite E, advanceOf_spec.
    destruct (_ <? _); [by intros [= <-]|done].
  - eapply reserve_throws; [|exact Hrun]. intros. apply storage_set_all_no_end.
Qed.

(** C10. When a scalar write, a reservation or a bulk copy raises the
    bounds error, the buffer is what it was before the call (the capacity
    test of [advance8] comes before the store); the cursor has moved
    forward to the alignment boundary of the operation. *)
Theorem failed_write_stores_nothing (op : Op) (st st' : State) :
  single_store op ->
  exec op st = (Throw ReachedEndOfChannel, st') ->
  buffer st' = buffer st /\
  byteOffset (this st') = byteOffset (this st) /\
  sizeInBytes (this st') = sizeInBytes (this st) /\
  (wf st ->
   offset (this st) <= offset (this st') < offset (this st) + BYTES_PER_ELEMENT (op_type op) /\
   offset (this st') mod BYTES_PER_ELEMENT (op_type op) = 0).
Proof.
  intros Hs Hrun.
  destruct (single_store_throws op st st' Hs Hrun) as (i & o & Hoff & ->).
  repeat split; try done.
  - rewrite offsetOf_spec in Hoff by done. injection Hoff as _ Ho.
    cbn. rewrite <- Ho. apply aligned_bounds.
  - rewrite offsetOf_spec in Hoff by done. injection Hoff as _ Ho.
    cbn. rewrite <- Ho. apply aligned_bounds.
  - rewrite offsetOf_spec in Hoff by done. injection Hoff as _ Ho.
    cbn. rewrite <- Ho. apply aligned_multiple.
Qed.

Lemma load_bytes_unchanged a n (b b' : list Z) :
  0 <= a ->
  (forall i : nat, a <= Z.of_nat i < a + Z.of_nat n -> b' !! i = b !! i) ->
  load_bytes a n b' = load_bytes a n b.
Proof.
  intros Ha H. unfold load_bytes. apply list_eq. intros i.
  destruct (decide (i < n)%nat) as [Hi|Hi].
  - rewrite !lookup_take_lt, !lookup_drop by lia. apply H. lia.
  - rewrite !lookup_take_ge by lia. done.
Qed.

(** ** Sequences of operations *)

Lemma run_all_step_ok ops st st' :
  wf st -> Forall valid ops -> run_all ops st = (Ok tt, st') -> step_ok st st'.
Proof.
  intros Hwf Hv. revert st Hwf. induction Hv as [|op ops Hop _ IH]; intros st Hwf.
  - intros [= <-]. by apply step_ok_refl.
  - cbn [run_all]. unfold bind. destruct (exec op st) as [[[]|e] st1] eqn:E; [|done].
    intros Hrun. destruct (exec_summary op st Hwf Hop _ _ E) as [Hok _].
    eapply step_ok_trans; [done|]. apply IH; [by destruct Hok|done].
Qed.

(** One scalar operation on a well-formed channel. *)
Lemma scalar_step (op : ScalarOp) (st1 st2 : State) (r : option Z) :
  wf st1 ->
  exec_scalar op st1 = (Ok r, st2) ->
  exists p,
    (offset (this st1) <= p < offset (this st1) + BYTES_PER_ELEMENT (scalar_type op) /\
     p mod BYTES_PER_ELEMENT (scalar_type op) = 0) /\
    (BYTES_PER_ELEMENT (scalar_type op) = 1 -> p = offset (this st1)) /\
    offset (this st2) = p + BYTES_PER_ELEMENT (scalar_type op) /\
    match op with
    | SWrite ty v =>
        load_bytes (byteOffset (this st1) + p) (width ty) (buffer st2) = encode ty v
    | SRead ty =>
        r = Some (decode ty (load_bytes (byteOffset (this st1) + p) (width ty) (buffer st1)))
    end.
Proof.
  intros Hwf1 Hop.
  exists (aligned (scalar_type op) (offset (this st1))).
  pose proof (aligned_bounds (scalar_type op) (offset (this st1))) as Hb.
  split; [split; [exact Hb | apply aligned_multiple]|].
  split; [lia|].
  pose proof (aligned_in_window (scalar_type op) st1 Hwf1) as Hin.
  pose proof (wf_base _ Hwf1). pose proof (wf_cursor _ Hwf1). pose proof (wf_fits _ Hwf1).
  destruct op as [ty v|ty]; cbn [exec_scalar scalar_type] in *.
  - unfold bind in Hop. rewrite write_spec in Hop by done.
    destruct (Z.ltb_spec (sizeInBytes (this st1))
                (aligned ty (offset (this st1)) + BYTES_PER_ELEMENT ty)); [done|].
    injection Hop as _ <-. cbn. split; [done|].
    rewrite <- (length_encode ty v) at 1. apply load_store_bytes; unfold addr; [lia|].
    rewrite length_encode, width_BPE. lia.
  - rewrite read_spec in Hop by done.
    destruct (_ <? _); [done|]. by injection Hop as <- <-.
Qed.

(** C2. After any sequence of operations on a channel, a scalar read or
    write uses the cursor [p] that is the next multiple of its width at or
    above the current cursor (the raw cursor for a 1-byte value, the next
    multiple of 4 for u32/i32/f32 and so for the u32 length prefix of an
    array, the next multiple of 8 for f64), and leaves the cursor at [p]
    plus the width; the value is written at, or read from, offset [p]. *)
Theorem scalar_alignment_in_every_sequence
    (before : list Op) (op : ScalarOp) (st st1 st2 : State) (r : option Z) :
  wf st -> Forall valid before ->
  run_all before st = (Ok tt, st1) ->
  exec_scalar op st1 = (Ok r, st2) ->
  let w := BYTES_PER_ELEMENT (scalar_type op) in
  exists p,
    (offset (this st1) <= p < offset (this st1) + w /\ p mod w = 0) /\
    (w = 1 -> p = offset (this st1)) /\
    offset (this st2) = p + w /\
    match op with
    | SWrite ty v =>
        load_bytes (byteOffset (this st1) + p) (width ty) (buffer st2) = encode ty v
    | SRead ty =>
        r = Some (decode ty (load_bytes (byteOffset (this st1) + p) (width ty) (buffer st1)))
    end.
Proof.
  intros Hwf Hv Hbefore Hop w.
  apply (scalar_step op st1 st2 r); [|exact Hop].
  exact (so_wf _ _ (run_all_step_ok _ _ _ Hwf Hv Hbefore)).
Qed.

(** The length prefix of an array is written by [writeUint32] and read by
    [readUint32]: it follows the 4-byte rule. *)
Lemma array_prefix_is_a_uint32 ty arr n :
  Writer.copyArray ty arr =
    (Writer.writeUint32 (Z.of_nat (length arr)) ;; Writer.copyElements ty arr) /\
  Writer.initArray ty n = (Writer.writeUint32 n ;; Writer.initElements ty n) /\
  Reader.readArray ty =
    (length_ <- Reader.readUint32 ;;
     match length_ with
     | Some n => Reader.readElements ty n
     | None => throw NaNCursor
     end).
Proof. repeat split. Qed.

(** The instance named in the text: a byte, then a 32-bit value. *)
Lemma word_after_byte_is_aligned (a b : Z) (st st' : State) :
  wf st ->
  (Writer.writeUint8 a ;; Writer.writeUint32 b) st = (Ok tt, st') ->
  let p := round_up (offset (this st) + 1) 4 in
  p mod 4 = 0 /\ offset (this st) + 1 <= p /\
  load_bytes (byteOffset (this st) + p) 4 (buffer st') = encode Uint32 b /\
  offset (this st') = p + 4.
Proof.
  intros Hwf. unfold bind, Writer.writeUint8, Writer.writeUint32.
  rewrite write_spec by done. cbn [BYTES_PER_ELEMENT]. rewrite aligned_Uint8.
  destruct (Z.ltb_spec (sizeInBytes (this st)) (offset (this st) + 1)); [done|].
  set (st1 := with_buffer _ _).
  assert (Hwf1 : wf st1).
  { apply (so_wf st). pose proof (wf_cursor _ Hwf).
    apply step_ok_store.
    - done.
    - lia.
    - rewrite length_encode. change (Z.of_nat (width Uint8)) with 1. lia.
    - lia.
    - apply is_byte_encode. }
  intros Hrun.
  destruct (scalar_step (SWrite Uint32 b) st1 st' None Hwf1)
    as (p & [Hp Hm] & _ & Hoff & Hload).
  { cbn [exec_scalar]. unfold bind. by rewrite Hrun. }
  subst st1. cbn in Hp, Hm, Hoff, Hload. cbn zeta.
  assert (p = round_up (offset (this st) + 1) 4) as <-.
  { pose proof (round_up_bounds (offset (this st) + 1) 4 ltac:(lia)).
    pose proof (round_up_multiple (offset (this st) + 1) 4 ltac:(lia)).
    pose proof (round_up_multiple (offset (this st) + 1) 4 ltac:(lia)) as Hr.
    apply Z.mod_divide in Hm; [|lia]. apply Z.mod_divide in Hr; [|lia].
    destruct Hm as [q Hq], Hr as [q' Hq']. lia. }
  repeat split; try done; lia.
Qed.

(** ** Reading back what was written *)

Lemma write_read_scalar ty v st st1 :
  wf st -> in_range ty v ->
  Writer.write ty v st = (Ok tt, st1) ->
  Reader.read ty (reader_at st1 (offset (this st))) =
  (Ok (Some v), reader_at st1 (offset (this st1))).
Proof.
  intros Hwf Hv. rewrite write_spec by done.
  pose proof (aligned_in_window ty st Hwf) as Hin. pose proof (BPE_pos ty).
  pose proof (wf_base _ Hwf). pose proof (wf_cursor _ Hwf). pose proof (wf_fits _ Hwf).
  destruct (Z.ltb_spec (sizeInBytes (this st))
              (aligned ty (offset (this st)) + BYTES_PER_ELEMENT ty)) as [|Hfit]; [done|].
  intros [= <-]. unfold reader_at.
  rewrite read_spec.
  2:{ apply wf_with_offset; cbn; [|lia].
      apply (so_wf st), step_ok_store; try apply is_byte_encode; try done; try lia.
      rewrite length_encode, width_BPE. lia. }
  cbn. destruct (Z.ltb_spec (sizeInBytes (this st))
              (aligned ty (offset (this st)) + BYTES_PER_ELEMENT ty)); [lia|].
  unfold addr. cbn.
  rewrite <- (length_encode ty v) at 1. rewrite load_store_bytes.
  - by rewrite decode_encode.
  - lia.
  - rewrite length_encode, width_BPE. lia.
Qed.

Section CopyThenRead.
Context (ty : ElemType) (arr : list Z) (st st1 : State).
Context (Hwf : wf st) (Hcopy : Writer.copyArray ty arr st = (Ok tt, st1)).

#[local] Abbreviation n := (Z.of_nat (length arr)).
#[local] Abbreviation p := (aligned Uint32 (offset (this st))).
#[local] Abbreviation a := (aligned ty (aligned Uint32 (offset (this st)) + 4)).
#[local] Abbreviation w := (BYTES_PER_ELEMENT ty).
#[local] Abbreviation b1 := (store_bytes (addr st (aligned Uint32 (offset (this st)))) (encode Uint32 (Z.of_nat (length arr))) (buffer st)).

Lemma copyArray_result :
  p + 4 <= sizeInBytes (this st) /\ a + n * w <= sizeInBytes (this st) /\
  st1 = with_buffer (with_offset st (a + n * w))
          (store_bytes (addr st a) (mjoin (encode ty <$> arr)) b1).
Proof.
  pose proof Hcopy as H. rewrite copyArray_spec in H by done. cbn zeta in H.
  destruct (Z.ltb_spec (sizeInBytes (this st)) (p + 4)); [done|].
  destruct (Z.ltb_spec (sizeInBytes (this st)) (a + n * w)); [done|].
  by injection H as <-.
Qed.

Lemma copyArray_layout : offset (this st) <= p /\ p + 4 <= a /\ 0 <= n < 2 ^ 32.
Proof.
  destruct copyArray_result as (Hp & Ha & _).
  pose proof (aligned_bounds Uint32 (offset (this st))) as Hbp.
  pose proof (aligned_bounds ty (p + 4)) as Hba.
  pose proof (BPE_pos ty) as Hw.
  pose proof (wf_size _ Hwf). pose proof (wf_cursor _ Hwf).
  split; [lia|]. split; [lia|]. split; [lia|]. nia.
Qed.

Lemma copyArray_wf : wf st1.
Proof.
  destruct (copyArray_summary ty arr st Hwf _ _ Hcopy) as [Hok _]. by destruct Hok.
Qed.

Lemma copyArray_prefix :
  load_bytes (addr st p) 4 (buffer st1) = encode Uint32 n.
Proof.
  destruct copyArray_result as (Hp & Ha & Hst1).
  destruct copyArray_layout as (H1 & H2 & H3).
  pose proof (wf_base _ Hwf). pose proof (wf_cursor _ Hwf). pose proof (wf_fits _ Hwf).
  rewrite Hst1. cbn [buffer with_buffer].
  rewrite (load_bytes_unchanged _ _ b1).
  - change 4%nat with (length (encode Uint32 n)).
    apply load_store_bytes; unfold addr; [lia|].
    rewrite length_encode. change (Z.of_nat (width Uint32)) with 4. lia.
  - unfold addr. lia.
  - intros i Hi. apply lookup_store_bytes_outside; unfold addr in *; lia.
Qed.

Lemma copyArray_elements :
  drop (Z.to_nat (addr st a)) (buffer st1) =
  mjoin (encode ty <$> arr) ++
  drop (Z.to_nat (addr st a) + length (mjoin (encode ty <$> arr))) b1.
Proof.
  destruct copyArray_result as (Hp & Ha & Hst1).
  destruct copyArray_layout as (H1 & H2 & H3).
  pose proof (wf_base _ Hwf). pose proof (wf_cursor _ Hwf). pose proof (wf_fits _ Hwf).
  rewrite Hst1. cbn [buffer with_buffer].
  apply drop_store_bytes; unfold addr; [lia|].
  rewrite length_store_bytes, length_mjoin_encode, Nat2Z.inj_mul, width_BPE.
  lia.
Qed.

Lemma copyArray_readArray :
  Reader.readArray ty (reader_at st1 (offset (this st))) =
  (Ok (mkView ty (addr st a) n), reader_at st1 (offset (this st1))).
Proof.
  pose proof copyArray_prefix as Hpre.
  pose proof copyArray_wf as Hwf1.
  destruct copyArray_result as (Hp & Ha & Hst1).
  destruct copyArray_layout as (H1 & H2 & H3).
  pose proof (wf_cursor _ Hwf).
  assert (Hwfr : wf (reader_at st1 (offset (this st)))).
  { apply wf_with_offset; [done|]. rewrite Hst1. cbn. lia. }
  rewrite readArray_spec by done. cbn zeta.
  assert (Hb : byteOffset (this st1) = byteOffset (this st)) by (by rewrite Hst1).
  assert (Hs : sizeInBytes (this st1) = sizeInBytes (this st)) by (by rewrite Hst1).
  unfold reader_at, addr in *. cbn [this buffer with_offset offset byteOffset sizeInBytes].
  rewrite Hb, Hs.
  destruct (Z.ltb_spec (sizeInBytes (this st)) (p + 4)); [lia|].
  rewrite Hpre, decode_encode by (cbn; lia).
  destruct (Z.ltb_spec (sizeInBytes (this st)) (a + n * w)); [lia|].
  do 3 f_equal. rewrite Hst1. reflexivity.
Qed.

Lemma copyArray_view_elements :
  Forall (in_range ty) arr ->
  view_elements (mkView ty (addr st a) n) (buffer st1) = arr.
Proof.
  intros Hr. unfold view_elements. cbn [view_type view_offset view_len].
  rewrite copyArray_elements. rewrite Nat2Z.id.
  rewrite chunks_mjoin_encode. by apply Forall_decode_encode.
Qed.

End CopyThenRead.

(** C4. Writing an in-range scalar, or an array of in-range elements, of
    any of the five element types, and reading the same shape with a Reader
    over the same storage from the cursor the Writer started at, returns
    the value written, and leaves the Reader's cursor where the Writer's
    cursor is. *)
Theorem read_after_write_round_trip (x : Payload) (st st1 : State) :
  wf st -> payload_in_range x ->
  write_payload x st = (Ok tt, st1) ->
  exists st2,
    read_payload x (reader_at st1 (offset (this st))) = (Ok (Some x), st2) /\
    offset (this st2) = offset (this st1).
Proof.
  intros Hwf Hr Hw. exists (reader_at st1 (offset (this st1))). split; [|done].
  destruct x as [ty v|ty arr]; cbn [write_payload read_payload payload_in_range] in *.
  - unfold bind. by rewrite (write_read_scalar ty v st st1).
  - unfold bind. rewrite (copyArray_readArray ty arr st st1) by done.
    cbn [buffer reader_at with_offset].
    by rewrite (copyArray_view_elements ty arr st st1).
Qed.

(** C5. [copyArray] writes the u32 length at the next multiple of 4 and
    the elements at the aligned cursor after it; [readArray] over the same
    bytes returns a view whose length is that prefix and whose elements are
    those of the array.  For the empty array the prefix is four zero bytes
    and the view is empty. *)
Theorem array_length_prefix_and_elements (ty : ElemType) (arr : list Z) (st st1 : State) :
  wf st -> Forall (in_range ty) arr ->
  Writer.copyArray ty arr st = (Ok tt, st1) ->
  let n := Z.of_nat (length arr) in
  let p := round_up (offset (this st)) 4 in
  let a := round_up (p + 4) (BYTES_PER_ELEMENT ty) in
  load_bytes (byteOffset (this st) + p) 4 (buffer st1) = encode Uint32 n /\
  take (length arr * width ty) (drop (Z.to_nat (byteOffset (this st) + a)) (buffer st1)) =
    mjoin (encode ty <$> arr) /\
  offset (this st1) = a + n * BYTES_PER_ELEMENT ty /\
  exists v,
    Reader.readArray ty (reader_at st1 (offset (this st))) =
      (Ok v, reader_at st1 (offset (this st1))) /\
    view_len v = decode Uint32 (load_bytes (byteOffset (this st) + p) 4 (buffer st1)) /\
    view_len v = n /\
    view_elements v (buffer st1) = arr /\
    (arr = [] ->
     load_bytes (byteOffset (this st) + p) 4 (buffer st1) = [0; 0; 0; 0] /\
     view_len v = 0 /\ view_elements v (buffer st1) = []).
Proof.
  intros Hwf Hr Hcopy n p a.
  pose proof (copyArray_prefix ty arr st st1 Hwf Hcopy) as Hpre.
  pose proof (copyArray_elements ty arr st st1 Hwf Hcopy) as Hel.
  pose proof (copyArray_readArray ty arr st st1 Hwf Hcopy) as Hread.
  pose proof (copyArray_view_elements ty arr st st1 Hwf Hcopy Hr) as Hview.
  destruct (copyArray_result ty arr st st1 Hwf Hcopy) as (_ & _ & Hst1).
  destruct (copyArray_layout ty arr st st1 Hwf Hcopy) as (_ & _ & Hn).
  unfold addr in *. change (aligned Uint32 (offset (this st))) with p in *.
  change (aligned ty (p + 4)) with a in *. fold n in Hpre, Hread, Hview, Hn.
  split; [exact Hpre|]. split.
  { rewrite Hel, <- length_mjoin_encode. apply take_app_length. }
  split; [by rewrite Hst1|].
  eexists. split; [exact Hread|]. cbn [view_len].
  rewrite Hpre.
  split; [by rewrite decode_encode by (cbn; lia)|]. split; [done|]. split; [done|].
  intros ->. subst n. cbn in *. done.
Qed.

(** ** The string methods *)

(** On the channel, the string methods are the byte-array methods: the
    text encoder and decoders work on the side. *)
Lemma decode_view_effect {S : Type} (m : M View) (decoder : list Z -> S) st :
  ((data <- m ;; Reader.decode_view decoder data) ;; ret tt) st = (m ;; ret tt) st.
Proof. unfold bind, Reader.decode_view, ret. by destruct (m st) as [[v|e] st']. Qed.

Lemma readAsciiString_effect {S : Type} (decoder : list Z -> S) st :
  (Reader.readAsciiString decoder ;; ret tt) st = exec (ReadArray Uint8) st.
Proof. unfold Reader.readAsciiString. apply decode_view_effect. Qed.

Lemma readUtf8String_effect {S : Type} (decoder : list Z -> S) st :
  (Reader.readUtf8String decoder ;; ret tt) st = exec (ReadArray Uint8) st.
Proof.
  cbn [exec]. unfold Reader.readUtf8String, Reader.readArray, Reader.readUint8Elements.
  unfold bind at 1 2 4 5. destruct (Reader.readUint32 st) as [[[n|]|e] st1]; try done.
  unfold bind, Reader.decode_view, ret.
  by destruct (Reader.readElements Uint8 n st1) as [[v|e] st2].
Qed.

Lemma string_methods_are_byte_array_methods {S : Type}
    (textEncoder : S -> list Z) (decoder : list Z -> S) :
  (forall value, Writer.writeUtf8String textEncoder value =
                 exec (CopyArray Uint8 (textEncoder value))) /\
  (forall st, (Reader.readAsciiString decoder ;; ret tt) st = exec (ReadArray Uint8) st) /\
  (forall st, (Reader.readUtf8String decoder ;; ret tt) st = exec (ReadArray Uint8) st) /\
  (forall count st,
      (Reader.readAsciiStrings decoder count ;; ret tt) st =
      exec (ReadArrays Uint8 count) st) /\
  (forall count st,
      (Reader.readUtf8Strings decoder count ;; ret tt) st =
      exec (ReadArrays Uint8 count) st).
Proof.
  split; [done|]. split; [apply readAsciiString_effect|].
  split; [apply readUtf8String_effect|]. split.
  - induction count as [|count IH]; intros st; [done|].
    cbn [Reader.readAsciiStrings Reader.readArrays exec].
    pose proof (readAsciiString_effect decoder st) as H1. cbn [exec] in H1.
    unfold bind in *. unfold ret in *.
    destruct (Reader.readAsciiString decoder st) as [[x|e] st1];
      destruct (Reader.readArray Uint8 st) as [[v|e'] st1']; try done;
      injection H1 as H1; subst; try done.
    specialize (IH st1'). cbn [exec] in IH. unfold bind, ret in IH.
    destruct (Reader.readAsciiStrings decoder count st1') as [[xs|e] st2];
      destruct (Reader.readArrays Uint8 count st1') as [[vs|e'] st2']; try done;
      injection IH as IH; by subst.
  - induction count as [|count IH]; intros st; [done|].
    cbn [Reader.readUtf8Strings Reader.readArrays exec].
    pose proof (readUtf8String_effect decoder st) as H1. cbn [exec] in H1.
    unfold bind in *. unfold ret in *.
    destruct (Reader.readUtf8String decoder st) as [[x|e] st1];
      destruct (Reader.readArray Uint8 st) as [[v|e'] st1']; try done;
      injection H1 as H1; subst; try done.
    specialize (IH st1'). cbn [exec] in IH. unfold bind, ret in IH.
    destruct (Reader.readUtf8Strings decoder count st1') as [[xs|e] st2];
      destruct (Reader.readArrays Uint8 count st1') as [[vs|e'] st2']; try done;
      injection IH as IH; by subst.
Qed.

(* ===================================================================== *)
(** * Properties of the host instance *)
(* ===================================================================== *)

(** ** Imports *)

(** C9 (amended). [createInstance] installs [env.memory] and [env.hostLog]
    and passes every other namespace through; every binding of the caller is
    kept in the final import set, except a caller's own [env.memory] and
    [env.hostLog], which the host entries replace. *)
Theorem imports_merged_below_host_entries
    (imports : option (gmap string (gmap string ImportValue)))
    (memory hostLog : ImportValue) :
  let final := finalImports imports memory hostLog in
  (exists env,
      final !! "env" = Some env /\
      env !! "memory" = Some memory /\ env !! "hostLog" = Some hostLog) /\
  (forall ns, ns <> "env" -> final !! ns = default ∅ imports !! ns) /\
  (forall ns (m : gmap string ImportValue) k v,
      default ∅ imports !! ns = Some m -> m !! k = Some v ->
      ~ (ns = "env" /\ (k = "memory" \/ k = "hostLog")) ->
      exists m', final !! ns = Some m' /\ m' !! k = Some v).
Proof.
  cbn zeta. unfold finalImports, env_of. split; [|split].
  - eexists. split; [apply lookup_insert_eq|]. split.
    + rewrite lookup_insert_ne by done. apply lookup_insert_eq.
    + apply lookup_insert_eq.
  - intros ns Hns. by rewrite lookup_insert_ne.
  - intros ns m k v Hm Hk Hnot.
    destruct (decide (ns = "env")) as [->|Hns].
    + eexists. split; [apply lookup_insert_eq|].
      rewrite Hm. cbn [default].
      rewrite !lookup_insert_ne; [done| |]; intros <-; apply Hnot; auto.
    + exists m. split; [|done]. by rewrite lookup_insert_ne.
Qed.

Lemma imports_merged_witness :
  exists m',
    finalImports (Some caller_imports) (ImportMemory 0%nat) (ImportFunction 2%nat)
      !! "env" = Some m' /\
    m' !! "foo" = Some (ImportNumber 1).
Proof.
  refine (proj2 (proj2 (imports_merged_below_host_entries (Some caller_imports)
                          (ImportMemory 0%nat) (ImportFunction 2%nat)))
            "env" {[ "memory" := ImportMemory 7%nat; "foo" := ImportNumber 1 ]}
            "foo" (ImportNumber 1) _ _ _).
  - vm_compute. reflexivity.
  - vm_compute. reflexivity.
  - intros [_ [H|H]]; discriminate H.
Defined.

(** C9, as stated, fails: the caller's [env.memory] is not kept. *)
Lemma caller_env_memory_is_replaced :
  ~ bindings_kept caller_imports
      (finalImports (Some caller_imports) (ImportMemory 0%nat) (ImportFunction 2%nat)).
Proof.
  intros Hkept.
  destruct (Hkept "env" {[ "memory" := ImportMemory 7%nat; "foo" := ImportNumber 1 ]}
              "memory" (ImportMemory 7%nat)) as (m' & Hfinal & Hm').
  - vm_compute. reflexivity.
  - vm_compute. reflexivity.
  - unfold finalImports in Hfinal. rewrite lookup_insert_eq in Hfinal.
    injection Hfinal as <-. unfold env_of in Hm'.
    rewrite lookup_insert_ne, lookup_insert_eq in Hm' by done. discriminate Hm'.
Qed.

(** ** Memory size and cached views *)

Lemma ceil_div_spec a b : 0 < b -> a <= ceil_div a b * b < a + b.
Proof.
  intros Hb. unfold ceil_div.
  pose proof (Z.div_mod (a + b - 1) b ltac:(lia)).
  pose proof (Z.mod_pos_bound (a + b - 1) b Hb). lia.
Qed.

Lemma ceil_div_pos a b : 0 < b -> 0 < a -> 0 < ceil_div a b.
Proof. intros Hb Ha. unfold ceil_div. apply Z.div_str_pos. lia. Qed.

Section MemoryAndViews.
Variables MAX_LOG_SIZE MAX_ERROR_SIZE PAGE_SIZE DEFAULT_INITIAL_PAGES : Z.
Hypothesis PAGE_SIZE_pos : 0 < PAGE_SIZE.

Lemma byteLength_grow delta m next m' next' :
  Memory_grow PAGE_SIZE delta m next = Ok (m', next') ->
  0 <= delta /\
  byteLength m' = byteLength m + delta * PAGE_SIZE /\
  buffer_ref m' = next /\ next' = S next /\ memory_ref m' = memory_ref m.
Proof.
  unfold Memory_grow. destruct (Z.ltb_spec delta 0); [done|].
  cbn [orb]. destruct (match maximum m with Some _ => _ | None => _ end); [done|].
  intros [= <- <-]. unfold byteLength. cbn.
  rewrite length_app, length_replicate, Nat2Z.inj_add, Z2Nat.id by nia.
  done.
Qed.

Lemma grow_to_cover_spec required m next m' next' :
  grow_to_cover PAGE_SIZE required m next = Ok (m', next') ->
  if byteLength m <? required then
    byteLength m' =
      byteLength m + ceil_div (required - byteLength m) PAGE_SIZE * PAGE_SIZE /\
    required <= byteLength m' < required + PAGE_SIZE /\
    buffer_ref m' = next
  else m' = m /\ next' = next.
Proof.
  unfold grow_to_cover.
  destruct (Z.ltb_spec (byteLength m) required) as [Hlt|Hge].
  - pose proof (ceil_div_pos (required - byteLength m) PAGE_SIZE PAGE_SIZE_pos ltac:(lia)).
    pose proof (ceil_div_spec (required - byteLength m) PAGE_SIZE PAGE_SIZE_pos).
    destruct (Z.ltb_spec 0 (ceil_div (required - byteLength m) PAGE_SIZE)); [|lia].
    intros Hgrow. apply byteLength_grow in Hgrow as (_ & Hlen & Hbuf & _).
    rewrite Hlen. split; [done|]. split; [lia|done].
  - by intros [= <- <-].
Qed.



End MemoryAndViews.

(** ** handleError *)

Lemma indexOf0_spec data :
  (indexOf0 data = -1 /\ before_null data = data) \/
  (0 <= indexOf0 data < Z.of_nat (length data) /\
   before_null data = take (Z.to_nat (indexOf0 data)) data).
Proof.
  induction data as [|b data IH]; cbn [indexOf0 before_null length]; [by left|].
  destruct (Z.eqb_spec b 0) as [->|Hb].
  - right. split; [lia|done].
  - destruct IH as [[-> Hall]|[Hidx Htake]].
    + left. cbn. by rewrite Hall.
    + right. destruct (Z.eqb_spec (indexOf0 data) (-1)); [lia|].
      split; [rewrite Nat2Z.inj_succ; lia|].
      replace (Z.to_nat (indexOf0 data + 1)) with (S (Z.to_nat (indexOf0 data))) by lia.
      cbn. by rewrite Htake.
Qed.

(** What [throwWasmError] takes for the message is the bytes before the
    first null, or the whole buffer. *)
Lemma message_of_data data :
  let length_ := indexOf0 data in
  let messageLength := if length_ =? -1 then Z.of_nat (length data) else length_ in
  take (Z.to_nat messageLength) data = before_null data /\
  (0 <? messageLength) = negb (is_empty (before_null data)).
Proof.
  cbn zeta. destruct (indexOf0_spec data) as [[-> Hall]|[Hidx Htake]].
  - cbn. rewrite Nat2Z.id, firstn_all, Hall. split; [done|].
    destruct data; [done|]. cbn [is_empty negb]. apply Z.ltb_lt.
    rewrite length_cons. lia.
  - destruct (Z.eqb_spec (indexOf0 data) (-1)); [lia|].
    split; [done|]. rewrite Htake.
    destruct (Z.ltb_spec 0 (indexOf0 data)) as [H|H].
    + destruct data as [|b data]; [cbn in *; lia|].
      replace (Z.to_nat (indexOf0 (b :: data))) with (S (Z.to_nat (indexOf0 (b :: data)) - 1))
        by lia.
      done.
    + replace (indexOf0 data) with 0 by lia. by destruct data.
Qed.

Section HandleError.
Variable MAX_ERROR_SIZE : Z.

Lemma getErrorData_ok i :
  error_cell_ok MAX_ERROR_SIZE i -> error_region_fits MAX_ERROR_SIZE i ->
  exists r i',
    getErrorData MAX_ERROR_SIZE i = (Ok (r, mkByteView (Interop.errPtr i) MAX_ERROR_SIZE), i') /\
    Interop.memory i' = Interop.memory i /\ Interop.errPtr i' = Interop.errPtr i /\
    error_cell_ok MAX_ERROR_SIZE i'.
Proof.
  intros Hcell (H0 & H1 & H2). unfold getErrorData, get_view, error_cell_ok in *.
  assert (Hnew : ByteView_new (bytes (Interop.memory i)) (Interop.errPtr i) MAX_ERROR_SIZE =
                 Ok (mkByteView (Interop.errPtr i) MAX_ERROR_SIZE)).
  { unfold ByteView_new, byteLength in *.
    destruct (Z.ltb_spec (Interop.errPtr i) 0); [lia|].
    destruct (Z.ltb_spec MAX_ERROR_SIZE 0); [lia|].
    destruct (Z.ltb_spec (Z.of_nat (length (bytes (Interop.memory i))))
                (Interop.errPtr i + MAX_ERROR_SIZE)); [lia|done]. }
  destruct (cell_instance (errorDataCell i)) as [[r v]|] eqn:E.
  - destruct (decide (cell_buffer (errorDataCell i) = Some (buffer_ref (Interop.memory i)))).
    + subst v. exists r. eexists. split; [reflexivity|]. cbn. by rewrite E.
    + rewrite Hnew. eexists _, _. split; [reflexivity|]. done.
  - rewrite Hnew. eexists _, _. split; [reflexivity|]. done.
Qed.

Lemma throwWasmError_outcome e i :
  error_cell_ok MAX_ERROR_SIZE i -> error_region_fits MAX_ERROR_SIZE i ->
  fst (throwWasmError MAX_ERROR_SIZE e i) =
  if is_empty (error_message MAX_ERROR_SIZE i) then
    match e with Some x => Rethrow x | None => ThrowUnknown end
  else ThrowMessage (error_message MAX_ERROR_SIZE i).
Proof.
  intros Hcell Hfit. unfold throwWasmError, error_message.
  destruct (getErrorData_ok i Hcell Hfit) as (r & i' & -> & Hm & Hp & _).
  rewrite Hm. unfold bv_data. cbn [bv_offset bv_length]. fold (error_region MAX_ERROR_SIZE i).
  destruct (message_of_data (error_region MAX_ERROR_SIZE i)) as [-> ->].
  destruct (is_empty _); cbn; [by destruct e|done].
Qed.

(** C1 (amended). [handleError] looks at the error buffer only when the raw
    call raised or returned a non-zero code.  Then a non-empty message (the
    bytes before the first null, or the whole buffer) is raised, whatever
    the call raised; with an empty buffer the raised exception is raised
    again, and a non-zero code (or a thrown [undefined]) gives the generic
    unknown error.  A zero return code is success, whatever the buffer
    holds. *)
Theorem handleError_precedence
    (func : Instance -> RawResult * Instance) (i i1 : Instance) (raw : RawResult) :
  func i = (raw, i1) ->
  error_cell_ok MAX_ERROR_SIZE i1 -> error_region_fits MAX_ERROR_SIZE i1 ->
  fst (handleError MAX_ERROR_SIZE func i) =
    handled_outcome (error_message MAX_ERROR_SIZE i1) raw /\
  (forall code, raw = Returned code -> code <> 0 -> is_empty (error_message MAX_ERROR_SIZE i1) = false ->
     fst (handleError MAX_ERROR_SIZE func i) = ThrowMessage (error_message MAX_ERROR_SIZE i1)) /\
  (forall e, raw = Raised e -> is_empty (error_message MAX_ERROR_SIZE i1) = false ->
     fst (handleError MAX_ERROR_SIZE func i) = ThrowMessage (error_message MAX_ERROR_SIZE i1)) /\
  (forall code, raw = Returned code -> code <> 0 -> is_empty (error_message MAX_ERROR_SIZE i1) = true ->
     fst (handleError MAX_ERROR_SIZE func i) = ThrowUnknown) /\
  (forall x, raw = Raised (Some x) -> is_empty (error_message MAX_ERROR_SIZE i1) = true ->
     fst (handleError MAX_ERROR_SIZE func i) = Rethrow x) /\
  (raw = Returned 0 -> handleError MAX_ERROR_SIZE func i = (NoError, i1)).
Proof.
  intros Hf Hcell Hfit.
  assert (Hmain : fst (handleError MAX_ERROR_SIZE func i) =
                  handled_outcome (error_message MAX_ERROR_SIZE i1) raw).
  { unfold handleError. rewrite Hf.
    destruct raw as [code|e]; cbn [handled_outcome].
    - destruct (code =? 0); cbn [negb]; [done|].
      rewrite throwWasmError_outcome by done. by destruct (is_empty _).
    - rewrite throwWasmError_outcome by done. by destruct (is_empty _). }
  split; [exact Hmain|]. rewrite Hmain.
  split; [|split; [|split; [|split]]].
  - intros code -> Hc Hne. cbn. destruct (Z.eqb_spec code 0); [done|]. by rewrite Hne.
  - intros e -> Hne. cbn. by rewrite Hne.
  - intros code -> Hc He. cbn. destruct (Z.eqb_spec code 0); [done|]. by rewrite He.
  - intros x -> He. cbn. by rewrite He.
  - intros ->. unfold handleError. by rewrite Hf.
Qed.

End HandleError.

Lemma handleError_witness :
  fst (handleError 16 (fun i => (Returned 1, i)) stale_error_instance) =
  ThrowMessage [98; 97; 100].
Proof.
  refine (proj1 (handleError_precedence 16 (fun i => (Returned 1, i))
                   stale_error_instance stale_error_instance (Returned 1)
                   eq_refl _ _)).
  - exact I.
  - unfold error_region_fits. vm_compute. repeat split; discriminate.
Defined.

(** C1, as stated, fails: with a zero return code a message left in the
    error buffer is not raised. *)
Lemma zero_code_ignores_error_message :
  error_message 16 stale_error_instance = [98; 97; 100] /\
  fst (handleError 16 (fun i => (Returned 0, i)) stale_error_instance) = NoError.
Proof. split; reflexivity. Qed.

(* ===================================================================== *)
(** * Properties of the module side *)
(* ===================================================================== *)

Lemma align8_round_up size :
  0 <= size < 2 ^ 31 -> Zig.align8 size = round_up size 8.
Proof.
  intros Hs. unfold Zig.align8, Zig.usize_not, round_up.
  change (Z.lnot 7 mod 2 ^ 32) with (Z.land (Z.lnot (Z.ones 3)) (Z.ones 32)).
  rewrite Z.land_assoc, land_lnot_ones by lia.
  rewrite Z.land_ones by lia.
  pose proof (Z.div_mod (size + 7) 8 ltac:(lia)).
  pose proof (Z.mod_pos_bound (size + 7) 8 ltac:(lia)).
  change (2 ^ 3) with 8. rewrite Z.mod_small by lia. f_equal. f_equal. lia.
Qed.

Section Allocation.
Variable Heap : Type.
Variable alloc : Z -> Heap -> option (Z * Heap).
Variable free : Zig.Slice -> Heap -> Heap.

(** C6 (amended). A size of zero or less is fatal.  Otherwise the size is
    rounded up to a multiple of 8 bytes, the previous storage of the role is
    released, fresh storage is allocated, and the call returns its address
    with the role bound to a fresh channel over it: a Reader for the input
    role, a Writer for the output role (the module reads its input and
    writes its output).  The other role is not touched. *)
Theorem allocateChannel_spec
    (role : Role) (sizeInBytes_ : Z) (s : Zig.ModuleState Heap) :
  - 2 ^ 31 <= sizeInBytes_ < 2 ^ 31 ->
  (sizeInBytes_ <= 0 ->
   allocateChannel Heap alloc free role sizeInBytes_ s =
   Zig.Panic (Zig.InvalidChannelSize sizeInBytes_)) /\
  (0 < sizeInBytes_ ->
   let bytes8 := round_up sizeInBytes_ 8 in
   (sizeInBytes_ <= bytes8 < sizeInBytes_ + 8 /\ bytes8 mod 8 = 0) /\
   (forall ptr s',
       allocateChannel Heap alloc free role sizeInBytes_ s = Zig.Return ptr s' ->
       alloc (bytes8 / 8) (released Heap free role s) = Some (ptr, Zig.heap Heap s') /\
       storage_of Heap role s' = Some (Zig.mkSlice ptr (bytes8 / 8)) /\
       channel_of Heap role s' = Some (fresh_conduit role (Zig.mkSlice ptr (bytes8 / 8))) /\
       storage_of Heap (other role) s' = storage_of Heap (other role) s /\
       channel_of Heap (other role) s' = channel_of Heap (other role) s) /\
   (forall ptr h,
       alloc (bytes8 / 8) (released Heap free role s) = Some (ptr, h) -> ptr < 2 ^ 31 ->
       exists s', allocateChannel Heap alloc free role sizeInBytes_ s = Zig.Return ptr s')).
Proof.
  intros Hi32. split.
  - intros Hle. destruct role; cbn [allocateChannel];
      unfold Zig.allocateInputChannel, Zig.allocateOutputChannel, Zig.panicFormat;
      by destruct (Z.leb_spec sizeInBytes_ 0); [|lia].
  - intros Hpos. cbn zeta. split; [|split].
    + split; [apply round_up_bounds; lia | apply round_up_multiple; lia].
    + intros ptr s'. destruct role; cbn [allocateChannel];
        unfold Zig.allocateInputChannel, Zig.allocateOutputChannel, released;
        cbn [storage_of channel_of other fresh_conduit];
        (destruct (Z.leb_spec sizeInBytes_ 0); [lia|]);
        rewrite align8_round_up by lia;
        destruct (alloc _ _) as [[p h]|]; try done;
        (destruct (Z.leb_spec (2 ^ 31) p); [done|]);
        by intros [= <- <-].
    + intros ptr h Halloc Hptr. destruct role; cbn [allocateChannel];
        unfold Zig.allocateInputChannel, Zig.allocateOutputChannel, released in *;
        cbn [storage_of] in *;
        (destruct (Z.leb_spec sizeInBytes_ 0); [lia|]);
        rewrite align8_round_up by lia; rewrite Halloc;
        (destruct (Z.leb_spec (2 ^ 31) ptr); [lia|]); eauto.
Qed.

End Allocation.

Lemma allocateChannel_witness :
  channel_of Z OutputRole
    (Zig.mkModuleState Z None (Some (Zig.Writer_from (Zig.mkSlice 1024 2)))
                       None (Some (Zig.mkSlice 1024 2)) 1040) =
  Some (fresh_conduit OutputRole (Zig.mkSlice 1024 (round_up 13 8 / 8))).
Proof.
  destruct (allocateChannel_spec Z bump_alloc bump_free OutputRole 13 fresh_module
              ltac:(lia)) as [_ Hpos].
  destruct (Hpos ltac:(lia)) as (_ & Hret & _).
  exact (proj1 (proj2 (proj2 (Hret 1024 _ eq_refl)))).
Defined.

(** C6, as stated, fails: the input role gets a Reader, not a Writer. *)
Lemma input_channel_is_a_reader :
  exists ptr s',
    Zig.allocateInputChannel Z bump_alloc bump_free 64 fresh_module = Zig.Return ptr s' /\
    Zig.conduit_kind <$> Zig.input Z s' = Some Zig.ReaderKind /\
    Zig.conduit_kind <$> Zig.input Z s' <> Some Zig.WriterKind.
Proof. eexists _, _. split; [reflexivity|]. split; [reflexivity|discriminate]. Qed.

(** ** Retrieving the channels *)







(* ===================================================================== *)
(** * The statements at sample inputs *)
(* ===================================================================== *)

Lemma wf_check_sound st : wf_check st = true -> wf st.
Proof.
  unfold wf_check. rewrite !andb_true_iff.
  intros (((((((H1 & H2) & H3) & H4) & H5) & H6) & H7) & H8).
  constructor.
  - by apply Z.leb_le.
  - split; [by apply Z.leb_le | by apply Z.ltb_lt].
  - by apply Z.eqb_eq.
  - by apply Z.leb_le.
  - split; by apply Z.leb_le.
  - apply Forall_forall. intros b Hb.
    rewrite forallb_forall in H8. apply list_elem_of_In, H8 in Hb.
    apply andb_true_iff in Hb as [Ha Hc]. split; [by apply Z.leb_le | by apply Z.ltb_lt].
Qed.

Lemma scalar_alignment_witness :
  exists p,
    (1 <= p < 1 + 4 /\ p mod 4 = 0) /\
    load_bytes (8 + p) 4
      (buffer (snd ((Writer.writeUint8 7 ;; Writer.writeUint32 258) sample_state))) =
    encode Uint32 258.
Proof.
  destruct (scalar_alignment_in_every_sequence
              [Write Uint8 7] (SWrite Uint32 258) sample_state
              (snd (run_all [Write Uint8 7] sample_state))
              (snd (exec_scalar (SWrite Uint32 258)
                      (snd (run_all [Write Uint8 7] sample_state))))
              None)
    as (p & Hp & _ & _ & Hload).
  - apply wf_check_sound. vm_compute. reflexivity.
  - repeat constructor.
  - vm_compute. reflexivity.
  - vm_compute. reflexivity.
  - exists p. split; [exact Hp | exact Hload].
Defined.

Lemma bounds_error_witness :
  fst (exec (Write Float64 1) sample_state_13) = Throw ReachedEndOfChannel <->
  sizeInBytes (this sample_state_13) < extent (Write Float64 1) sample_state_13.
Proof.
  refine (proj1 (bounds_error_iff_beyond_capacity (Write Float64 1) sample_state_13
                   (snd (exec (Write Float64 1) sample_state_13))
                   (fst (exec (Write Float64 1) sample_state_13)) _ _ _)).
  - apply wf_check_sound. vm_compute. reflexivity.
  - exact I.
  - vm_compute. reflexivity.
Defined.

Lemma failed_write_witness :
  buffer (snd (exec (Write Uint32 5) sample_state_13)) = buffer sample_state_13 /\
  offset (this (snd (exec (Write Uint32 5) sample_state_13))) mod 4 = 0.
Proof.
  destruct (failed_write_stores_nothing (Write Uint32 5) sample_state_13
              (snd (exec (Write Uint32 5) sample_state_13)))
    as (Hbuf & _ & _ & Hcur).
  - exact I.
  - vm_compute. reflexivity.
  - split; [exact Hbuf|].
    refine (proj2 (Hcur _)). apply wf_check_sound. vm_compute. reflexivity.
Defined.

Lemma round_trip_witness :
  exists st2,
    read_payload (PArray Int32 [-1; 2; 3])
      (reader_at (snd (write_payload (PArray Int32 [-1; 2; 3]) sample_state)) 0) =
    (Ok (Some (PArray Int32 [-1; 2; 3])), st2).
Proof.
  destruct (read_after_write_round_trip (PArray Int32 [-1; 2; 3]) sample_state
              (snd (write_payload (PArray Int32 [-1; 2; 3]) sample_state)))
    as (st2 & Hread & _).
  - apply wf_check_sound. vm_compute. reflexivity.
  - repeat constructor; cbn; lia.
  - vm_compute. reflexivity.
  - exists st2. exact Hread.
Defined.

Lemma array_encoding_witness :
  load_bytes (8 + 8) 4 (buffer (snd (Writer.copyArray Uint8 [1; 2; 3] sample_state_5))) =
  [3; 0; 0; 0].
Proof.
  refine (proj1 (array_length_prefix_and_elements Uint8 [1; 2; 3] sample_state_5
                   (snd (Writer.copyArray Uint8 [1; 2; 3] sample_state_5)) _ _ _)).
  - apply wf_check_sound. vm_compute. reflexivity.
  - repeat constructor; cbn; lia.
  - vm_compute. reflexivity.
Defined.



(* ===================================================================== *)
(** * Further properties of the codec *)
(* ===================================================================== *)
(** ** Reads are local *)

Lemma chunks_take w n (l : list Z) : chunks w n (take (n * w) l) = chunks w n l.
Proof.
  revert l. induction n as [|n IH]; intros l; [done|].
  cbn [chunks]. f_equal.
  - rewrite take_take. f_equal. lia.
  - rewrite <- (IH (drop w l)). f_equal.
    by rewrite take_drop_commute.
Qed.

Lemma view_elements_local (v : View) (b b' : list Z) :
  0 <= view_offset v -> 0 <= view_len v ->
  agree_on b b' (view_offset v)
           (view_offset v + view_len v * BYTES_PER_ELEMENT (view_type v)) ->
  view_elements v b' = view_elements v b.
Proof.
  intros Ho Hn Hag. unfold view_elements. f_equal.
  rewrite <- (chunks_take _ _ (drop _ b')), <- (chunks_take _ _ (drop _ b)).
  f_equal.
  apply (load_bytes_unchanged (view_offset v)
           (Z.to_nat (view_len v) * width (view_type v)) b b' Ho).
  intros i Hi. apply Hag.
  rewrite Nat2Z.inj_mul, width_BPE, Z2Nat.id in Hi by done. lia.
Qed.

Lemma read_payload_local (x : Payload) (st st' : State) r s2 :
  wf st -> wf st' -> this st' = this st ->
  read_payload x st = (Ok r, s2) ->
  agree_on (buffer st) (buffer st')
           (addr st (offset (this st))) (addr st (offset (this s2))) ->
  read_payload x st' = (Ok r, with_offset st' (offset (this s2))).
Proof.
  intros Hwf Hwf' Hthis Hread Hag.
  pose proof (wf_base _ Hwf) as Hbase. pose proof (wf_cursor _ Hwf) as Hcur.
  destruct x as [ty v|ty arr]; cbn [read_payload] in *; unfold bind in *.
  - rewrite read_spec in Hread by done. rewrite read_spec by done.
    rewrite Hthis. unfold addr in *. rewrite Hthis.
    pose proof (aligned_bounds ty (offset (this st))) as Ha.
    destruct (_ <? _); [done|]. unfold ret in *.
    injection Hread as <- <-. cbn in Hag.
    rewrite (load_bytes_unchanged _ _ (buffer st)); [done|lia|].
    intros i Hi. apply Hag. rewrite width_BPE in Hi. lia.
  - rewrite readArray_spec in Hread by done. rewrite readArray_spec by done.
    cbn zeta in *. rewrite Hthis. unfold addr in *. rewrite Hthis.
    pose proof (aligned_bounds Uint32 (offset (this st))) as Hp.
    cbn [BYTES_PER_ELEMENT] in Hp.
    destruct (_ <? _); [done|].
    set (n := decode Uint32 _) in Hread.
    assert (Hn : 0 <= n).
    { subst n. cbn [decode]. apply le_value_nonneg, is_byte_load. by destruct Hwf. }
    pose proof (aligned_bounds ty (aligned Uint32 (offset (this st)) + 4)) as Ha.
    pose proof (BPE_pos ty) as Hw.
    assert (Hnw : 0 <= n * BYTES_PER_ELEMENT ty) by nia.
    destruct (Z.ltb_spec (sizeInBytes (this st))
                (aligned ty (aligned Uint32 (offset (this st)) + 4) + n * BYTES_PER_ELEMENT ty));
      [done|].
    injection Hread as <- <-.
    cbn [this offset with_offset buffer byteOffset sizeInBytes] in Hag.
    rewrite (load_bytes_unchanged _ _ (buffer st)); [|lia|].
    2:{ intros i Hi. apply Hag. change (Z.of_nat 4) with 4 in Hi. lia. }
    fold n.
    destruct (Z.ltb_spec (sizeInBytes (this st))
                (aligned ty (aligned Uint32 (offset (this st)) + 4) + n * BYTES_PER_ELEMENT ty));
      [lia|].
    cbn. do 4 f_equal.
    apply view_elements_local; cbn [view_offset view_len view_type]; [lia|done|].
    intros i Hi. apply Hag. subst n. cbn [decode] in *. lia.
Qed.

(** ** Sequences of fields *)

Lemma write_payload_summary (x : Payload) st :
  wf st -> exists e, summary (write_payload x) st e.
Proof.
  intros Hwf. destruct x as [ty v|ty arr]; cbn [write_payload]; eexists.
  - by apply write_summary.
  - by apply copyArray_summary.
Qed.

Lemma write_payload_step_ok (x : Payload) st r st' :
  wf st -> write_payload x st = (r, st') -> step_ok st st'.
Proof.
  intros Hwf Hrun. destruct (write_payload_summary x st Hwf) as [e Hsum].
  by destruct (Hsum _ _ Hrun).
Qed.

Lemma write_all_step_ok (xs : list Payload) st r st' :
  wf st -> write_all xs st = (r, st') -> step_ok st st'.
Proof.
  revert st. induction xs as [|x xs IH]; intros st Hwf.
  - intros [= <- <-]. by apply step_ok_refl.
  - cbn [write_all]. unfold bind.
    destruct (write_payload x st) as [[[]|e] s1] eqn:E.
    + intros Hrun. pose proof (write_payload_step_ok _ _ _ _ Hwf E) as Hok.
      eapply step_ok_trans; [done|]. apply (IH s1); [by destruct Hok|done].
    + intros [= <- <-]. by apply (write_payload_step_ok x st (Throw e)).
Qed.

Lemma write_read_payload (x : Payload) (st st1 : State) :
  wf st -> payload_in_range x ->
  write_payload x st = (Ok tt, st1) ->
  read_payload x (reader_at st1 (offset (this st))) =
  (Ok (Some x), reader_at st1 (offset (this st1))).
Proof.
  intros Hwf Hr Hw.
  destruct x as [ty v|ty arr]; cbn [write_payload read_payload payload_in_range] in *.
  - unfold bind. by rewrite (write_read_scalar ty v st st1).
  - unfold bind. rewrite (copyArray_readArray ty arr st st1) by done.
    cbn [buffer reader_at with_offset].
    by rewrite (copyArray_view_elements ty arr st st1).
Qed.

Lemma write_all_read_all (xs : list Payload) (st st1 : State) :
  wf st -> Forall payload_in_range xs ->
  write_all xs st = (Ok tt, st1) ->
  read_all xs (reader_at st1 (offset (this st))) =
  (Ok (Some <$> xs), reader_at st1 (offset (this st1))).
Proof.
  intros Hwf Hr. revert st Hwf. induction Hr as [|x xs Hx _ IH]; intros st Hwf.
  - intros [= <-]. cbn. unfold ret, reader_at. by rewrite with_offset_same.
  - cbn [write_all read_all]. unfold bind at 1.
    destruct (write_payload x st) as [[[]|e] s1] eqn:E; [|done].
    intros Hrest.
    pose proof (write_payload_step_ok _ _ _ _ Hwf E) as Hok1.
    pose proof (write_all_step_ok _ _ _ _ (so_wf _ _ Hok1) Hrest) as Hok2.
    pose proof (write_read_payload x st s1 Hwf Hx E) as Hread.
    pose proof (wf_cursor _ Hwf) as Hc.
    pose proof (wf_cursor _ (so_wf _ _ Hok1)) as Hc1.
    pose proof (so_mono _ _ Hok1) as Hm1. pose proof (so_mono _ _ Hok2) as Hm2.
    pose proof (so_size _ _ Hok1) as Hs1. pose proof (so_size _ _ Hok2) as Hs2.
    pose proof (so_base _ _ Hok1) as Hb1. pose proof (so_base _ _ Hok2) as Hb2.
    assert (Hlocal :
      read_payload x (reader_at st1 (offset (this st))) =
      (Ok (Some x), reader_at st1 (offset (this s1)))).
    { apply (read_payload_local x (reader_at s1 (offset (this st)))
               (reader_at st1 (offset (this st))) (Some x)
               (reader_at s1 (offset (this s1)))).
      - apply wf_with_offset; [by destruct Hok1 | lia].
      - apply wf_with_offset; [by destruct Hok2 | lia].
      - unfold reader_at, with_offset. cbn. by rewrite Hb2, Hs2.
      - exact Hread.
      - intros i Hi. cbn in *. apply (so_frame _ _ Hok2). left.
        unfold addr in *. cbn in *. lia. }
    unfold bind. rewrite Hlocal.
    rewrite (IH s1 (so_wf _ _ Hok1) Hrest). reflexivity.
Qed.

(** ** Values outside the range of a view *)

Lemma decode_encode_wrap ty v : decode ty (encode ty v) = wrap ty v.
Proof.
  unfold decode, encode. rewrite le_value_le_bytes, pow256_width.
  destruct ty; cbn [BYTES_PER_ELEMENT wrap]; try reflexivity.
  unfold ToInt32. change (8 * 4) with 32. by rewrite Zplus_mod_idemp_l.
Qed.

Lemma wrap_in_range ty v : in_range ty v -> wrap ty v = v.
Proof. intros Hv. rewrite <- decode_encode_wrap. by apply decode_encode. Qed.

Lemma copyArray_view_wrap ty arr st st1 :
  wf st -> Writer.copyArray ty arr st = (Ok tt, st1) ->
  view_elements
    (mkView ty (addr st (aligned ty (aligned Uint32 (offset (this st)) + 4)))
            (Z.of_nat (length arr)))
    (buffer st1) = wrap ty <$> arr.
Proof.
  intros Hwf Hcopy. unfold view_elements. cbn [view_type view_offset view_len].
  rewrite (copyArray_elements ty arr st st1 Hwf Hcopy), Nat2Z.id.
  rewrite chunks_mjoin_encode, <- list_fmap_compose.
  apply list_fmap_ext. intros _ v _. apply decode_encode_wrap.
Qed.

(** ** writeAsciiString *)

Lemma encode_Uint8 v : encode Uint8 v = [v mod 256].
Proof. reflexivity. Qed.

Lemma mjoin_encode_Uint8 (units : list Z) :
  mjoin (encode Uint8 <$> units) = (fun u => u mod 256) <$> units.
Proof. induction units as [|u units IH]; [done|]. cbn. by rewrite <- IH. Qed.

Lemma inserts_snoc (off : nat) (l : list Z) x (b : list Z) :
  (off + length l < length b)%nat ->
  list_inserts off l (<[(off + length l)%nat := x]> b) = list_inserts off (l ++ [x]) b.
Proof.
  intros Hfit. apply list_eq. intros j.
  destruct (decide (j < off)%nat) as [Hlt|Hge].
  { rewrite !list_lookup_inserts_lt by done. by rewrite list_lookup_insert_ne by lia. }
  destruct (decide (j < off + length l)%nat) as [Hin|Hout].
  { rewrite !list_lookup_inserts by (rewrite ?length_insert, ?length_app; cbn; lia).
    by rewrite lookup_app_l by lia. }
  rewrite list_lookup_inserts_ge by lia.
  destruct (decide (j = off + length l)%nat) as [->|Hne].
  - rewrite list_lookup_insert_eq by lia.
    rewrite list_lookup_inserts by (rewrite ?length_app; cbn; lia).
    rewrite lookup_app_r by lia. by replace (off + length l - off - length l)%nat with 0%nat by lia.
  - rewrite list_lookup_insert_ne by lia.
    rewrite list_lookup_inserts_ge by (rewrite length_app; cbn; lia). done.
Qed.

(** The loop stores the low byte of every code unit, from the last to the
    first. *)
Lemma fill_from_end_store (data : View) (units : list Z) (i : nat) st :
  view_type data = Uint8 -> 0 <= view_offset data ->
  (i <= length units)%nat -> Z.of_nat i <= view_len data ->
  view_offset data + view_len data <= Z.of_nat (length (buffer st)) ->
  Writer.fill_from_end data units i st =
  (Ok tt, with_buffer st (store_bytes (view_offset data)
                            (mjoin (encode Uint8 <$> take i units)) (buffer st))).
Proof.
  intros Hty Hoff. revert st. induction i as [|i IH]; intros st Hi Hlen Hfit.
  - cbn. unfold ret, with_buffer, store_bytes. cbn. by destruct st.
  - cbn [Writer.fill_from_end]. unfold bind, view_set. rewrite Hty.
    cbn [BYTES_PER_ELEMENT].
    destruct (Z.leb_spec 0 (Z.of_nat i)); [|lia].
    destruct (Z.ltb_spec (Z.of_nat i) (view_len data)); [|lia]. cbn [andb].
    rewrite IH by (cbn [buffer]; rewrite ?length_store_bytes; lia).
    unfold with_buffer. cbn [this buffer]. do 2 f_equal.
    assert (Hnth : units !! i = Some (nth i units 0)).
    { destruct (lookup_lt_is_Some_2 units i ltac:(lia)) as [u Hu].
      by rewrite (nth_lookup_Some _ _ 0 _ Hu). }
    rewrite (take_S_r _ _ _ Hnth), fmap_app, join_app.
    change (mjoin (encode Uint8 <$> [nth i units 0])) with [nth i units 0 mod 256].
    rewrite encode_Uint8. unfold store_bytes.
    rewrite <- inserts_snoc.
    + rewrite mjoin_encode_Uint8, length_fmap, length_take_le by lia.
      cbn [list_inserts]. do 2 f_equal. lia.
    + rewrite mjoin_encode_Uint8, length_fmap, length_take_le by lia. lia.
Qed.

Lemma writeAsciiString_copyArray (value : list Z) st :
  wf st -> Writer.writeAsciiString value st = Writer.copyArray Uint8 value st.
Proof.
  intros Hwf. unfold Writer.writeAsciiString, Writer.initUint8Array, bind.
  rewrite initArray_spec, copyArray_spec by (done || lia). cbn zeta.
  destruct (_ <? _); [done|].
  destruct (Z.ltb_spec (sizeInBytes (this st))
              (aligned Uint8 (aligned Uint32 (offset (this st)) + 4) +
               Z.of_nat (length value) * BYTES_PER_ELEMENT Uint8)) as [|Hfit]; [done|].
  pose proof (aligned_bounds Uint8 (aligned Uint32 (offset (this st)) + 4)) as Ha.
  pose proof (aligned_in_window Uint32 st Hwf) as Hp.
  pose proof (wf_base _ Hwf). pose proof (wf_cursor _ Hwf). pose proof (wf_fits _ Hwf).
  cbn [BYTES_PER_ELEMENT] in *.
  rewrite fill_from_end_store; cbn [view_type view_offset view_len buffer with_buffer];
    rewrite ?length_store_bytes; unfold addr; try done; try lia.
  by rewrite firstn_all.
Qed.

(** ** Methods that keep the storage *)

Lemma keeps_storage_bind {A B} (m : M A) (k : A -> M B) :
  keeps_storage m -> (forall x, keeps_storage (k x)) -> keeps_storage (bind m k).
Proof.
  intros Hm Hk st r st'. unfold bind.
  destruct (m st) as [[x|e] st1] eqn:E.
  - intros Hrun. destruct (Hm _ _ _ E) as (Hb & Ho & Hs).
    destruct (Hk x _ _ _ Hrun) as (Hb' & Ho' & Hs'). repeat split; congruence.
  - intros [= <- <-]. by apply (Hm _ _ _ E).
Qed.

Lemma keeps_storage_ret {A} (x : A) : keeps_storage (ret x).
Proof. by intros st r st' [= <- <-]. Qed.

Lemma keeps_storage_throw {A} e : keeps_storage (@throw A e).
Proof. by intros st r st' [= <- <-]. Qed.

Lemma keeps_storage_offsetOf ty : keeps_storage (offsetOf ty).
Proof.
  intros st r st'.
  destruct ty; cbn [offsetOf];
    unfold offset8, offset32, offset64, bind, get_offset, set_offset, ret;
    by intros [= <- <-].
Qed.

Lemma keeps_storage_advanceOf ty n : keeps_storage (advanceOf ty n).
Proof.
  intros st r st'.
  destruct ty; cbn [advanceOf]; unfold advance32, advance64, advance8, set_offset;
    destruct (_ <? _); by intros [= <- <-].
Qed.

Lemma keeps_storage_read ty : keeps_storage (Reader.read ty).
Proof.
  unfold Reader.read.
  apply keeps_storage_bind; [apply keeps_storage_offsetOf|]. intros.
  apply keeps_storage_bind; [apply keeps_storage_advanceOf|]. intros i st r st'.
  unfold storage_get. destruct (_ && _); by intros [= <- <-].
Qed.

Lemma keeps_storage_readElements ty n : keeps_storage (Reader.readElements ty n).
Proof.
  unfold Reader.readElements.
  apply keeps_storage_bind; [apply keeps_storage_offsetOf|]. intros.
  apply keeps_storage_bind; [apply keeps_storage_advanceOf|]. intros i st r st'.
  by intros [= <- <-].
Qed.

Lemma keeps_storage_readArray ty : keeps_storage (Reader.readArray ty).
Proof.
  unfold Reader.readArray.
  apply keeps_storage_bind; [apply keeps_storage_read|]. intros [n|].
  - apply keeps_storage_readElements.
  - apply keeps_storage_throw.
Qed.

Lemma keeps_storage_decode_view {S : Type} (decoder : list Z -> S) data :
  keeps_storage (Reader.decode_view decoder data).
Proof. by intros st r st' [= <- <-]. Qed.

Lemma keeps_storage_readAsciiString {S : Type} (decoder : list Z -> S) :
  keeps_storage (Reader.readAsciiString decoder).
Proof.
  unfold Reader.readAsciiString.
  apply keeps_storage_bind; [apply keeps_storage_readArray|]. intros.
  apply keeps_storage_decode_view.
Qed.

Lemma keeps_storage_readUtf8String {S : Type} (decoder : list Z -> S) :
  keeps_storage (Reader.readUtf8String decoder).
Proof.
  unfold Reader.readUtf8String.
  apply keeps_storage_bind; [apply keeps_storage_read|]. intros [n|].
  - apply keeps_storage_bind; [apply keeps_storage_readElements|]. intros.
    apply keeps_storage_decode_view.
  - apply keeps_storage_throw.
Qed.

(** A loop [for (i = 0; i < count; i++) result[i] = this.readOne()]. *)
Lemma keeps_storage_loop {A} (one : M A) (loop : nat -> M (list A)) :
  keeps_storage one ->
  loop O = ret [] ->
  (forall count, loop (S count) = (r <- one ;; rs <- loop count ;; ret (r :: rs))) ->
  forall count, keeps_storage (loop count).
Proof.
  intros Hone H0 HS. induction count as [|count IH].
  - rewrite H0. apply keeps_storage_ret.
  - rewrite HS. apply keeps_storage_bind; [done|]. intros.
    apply keeps_storage_bind; [done|]. intros. apply keeps_storage_ret.
Qed.

(** ** Arrays and strings in a message *)

Lemma read_all_arrays ty (arrs : list (list Z)) st :
  read_all (PArray ty <$> arrs) st =
  match Reader.readArrays ty (length arrs) st with
  | (Ok vs, st') =>
      (Ok ((fun v => Some (PArray ty (view_elements v (buffer st)))) <$> vs), st')
  | (Throw e, st') => (Throw e, st')
  end.
Proof.
  revert st. induction arrs as [|arr arrs IH]; intros st; [done|].
  cbn [fmap list_fmap length read_all Reader.readArrays read_payload].
  unfold bind at 1 2 4. 
  destruct (Reader.readArray ty st) as [[v|e] s1] eqn:E; [|done].
  pose proof (read_only_readArray ty _ _ _ E) as Hb.
  unfold bind. rewrite IH.
  destruct (Reader.readArrays ty (length arrs) s1) as [[vs|e] s2]; [|done].
  unfold ret. cbn. by rewrite Hb.
Qed.

Lemma readUtf8String_readArray {S : Type} (decoder : list Z -> S) st :
  Reader.readUtf8String decoder st =
  (data <- Reader.readArray Uint8 ;; Reader.decode_view decoder data) st.
Proof.
  unfold Reader.readUtf8String, Reader.readArray, Reader.readUint8Elements.
  unfold bind at 1 3 4. destruct (Reader.readUint32 st) as [[[n|]|e] s1]; try done.
Qed.

Lemma write_read_wrap ty v st st1 :
  wf st ->
  Writer.write ty v st = (Ok tt, st1) ->
  Reader.read ty (reader_at st1 (offset (this st))) =
  (Ok (Some (wrap ty v)), reader_at st1 (offset (this st1))).
Proof.
  intros Hwf. rewrite write_spec by done.
  pose proof (aligned_in_window ty st Hwf) as Hin. pose proof (BPE_pos ty).
  pose proof (wf_base _ Hwf). pose proof (wf_cursor _ Hwf). pose proof (wf_fits _ Hwf).
  destruct (Z.ltb_spec (sizeInBytes (this st))
              (aligned ty (offset (this st)) + BYTES_PER_ELEMENT ty)) as [|Hfit]; [done|].
  intros [= <-]. unfold reader_at.
  rewrite read_spec.
  2:{ apply wf_with_offset; cbn; [|lia].
      apply (so_wf st), step_ok_store; try apply is_byte_encode; try done; try lia.
      rewrite length_encode, width_BPE. lia. }
  cbn. destruct (Z.ltb_spec (sizeInBytes (this st))
              (aligned ty (offset (this st)) + BYTES_PER_ELEMENT ty)); [lia|].
  unfold addr. cbn.
  rewrite <- (length_encode ty v) at 1. rewrite load_store_bytes.
  - by rewrite decode_encode_wrap.
  - lia.
  - rewrite length_encode, width_BPE. lia.
Qed.

(** ** Sequences of operations, whatever their outcome *)

Lemma run_all_step_ok_any ops st r st' :
  wf st -> Forall valid ops -> run_all ops st = (r, st') -> step_ok st st'.
Proof.
  intros Hwf Hv. revert st Hwf. induction Hv as [|op ops Hop _ IH]; intros st Hwf.
  - intros [= <- <-]. by apply step_ok_refl.
  - cbn [run_all]. unfold bind. destruct (exec op st) as [[[]|e] st1] eqn:E.
    + intros Hrun. destruct (exec_summary op st Hwf Hop _ _ E) as [Hok _].
      eapply step_ok_trans; [done|]. apply IH; [by destruct Hok|done].
    + intros [= <- <-]. by destruct (exec_summary op st Hwf Hop _ _ E).
Qed.

Lemma read_payload_step_ok (x : Payload) st r st' :
  wf st -> read_payload x st = (r, st') -> step_ok st st'.
Proof.
  intros Hwf. destruct x as [ty v|ty arr]; cbn [read_payload]; unfold bind.
  - destruct (Reader.read ty st) as [[o|e] s1] eqn:E; intros [= <- <-];
      by destruct (read_summary ty st Hwf _ _ E).
  - destruct (Reader.readArray ty st) as [[o|e] s1] eqn:E; intros [= <- <-];
      by destruct (readArray_summary ty st Hwf _ _ E).
Qed.

(** ** Decoding bytes *)

Lemma le_bytes_add_mul n v k : le_bytes n (v + k * 256 ^ Z.of_nat n) = le_bytes n v.
Proof.
  revert v k. induction n as [|n IH]; intros v k; [done|].
  cbn [le_bytes]. rewrite Nat2Z.inj_succ, Z.pow_succ_r by lia.
  replace (v + k * (256 * 256 ^ Z.of_nat n)) with (v + (k * 256 ^ Z.of_nat n) * 256) by lia.
  rewrite Z.mod_add, Z.div_add by lia. by rewrite IH.
Qed.

Lemma le_bytes_le_value (bs : list Z) :
  Forall is_byte bs -> le_bytes (length bs) (le_value bs) = bs.
Proof.
  induction 1 as [|b bs Hb _ IH]; [done|].
  cbn [length le_bytes le_value]. unfold is_byte in Hb.
  replace (b + 256 * le_value bs) with (b + le_value bs * 256) by lia.
  rewrite Z.mod_add, Z.div_add by lia.
  rewrite Z.mod_small, Z.div_small by lia. rewrite Z.add_0_l. by rewrite IH.
Qed.

Lemma encode_decode ty (bs : list Z) :
  Forall is_byte bs -> length bs = width ty -> encode ty (decode ty bs) = bs.
Proof.
  intros Hb Hlen. unfold encode, decode. rewrite <- Hlen.
  destruct ty; try by apply le_bytes_le_value.
  unfold ToInt32.
  pose proof (Z.div_mod (le_value bs + 2 ^ 31) (2 ^ 32) ltac:(lia)) as Hd.
  replace ((le_value bs + 2 ^ 31) mod 2 ^ 32 - 2 ^ 31)
    with (le_value bs + (- ((le_value bs + 2 ^ 31) / 2 ^ 32)) * 256 ^ Z.of_nat (length bs)).
  - rewrite le_bytes_add_mul. by apply le_bytes_le_value.
  - rewrite Hlen. change (256 ^ Z.of_nat (width Int32)) with (2 ^ 32). lia.
Qed.

Lemma decode_in_range ty (bs : list Z) :
  Forall is_byte bs -> (length bs <= width ty)%nat -> in_range ty (decode ty bs).
Proof.
  intros Hb Hlen.
  pose proof (le_value_nonneg bs Hb) as H0. pose proof (le_value_bound bs Hb) as H1.
  assert (H2 : 256 ^ Z.of_nat (length bs) <= 256 ^ Z.of_nat (width ty))
    by (apply Z.pow_le_mono_r; lia).
  rewrite pow256_width in H2.
  destruct ty; cbn [decode in_range BYTES_PER_ELEMENT] in *; try lia.
  unfold ToInt32. pose proof (Z.mod_pos_bound (le_value bs + 2 ^ 31) (2 ^ 32) ltac:(lia)). lia.
Qed.

Lemma chunks_spec w n (l : list Z) :
  length (chunks w n l) = n /\ Forall (fun c => (length c <= w)%nat) (chunks w n l).
Proof.
  revert l. induction n as [|n IH]; intros l; cbn [chunks]; [by split|].
  destruct (IH (drop w l)) as [Hlen Hall]. split; [cbn; by rewrite Hlen|].
  constructor; [rewrite length_take; lia|done].
Qed.

Lemma Forall_is_byte_chunks w n (l : list Z) :
  Forall is_byte l -> Forall (Forall is_byte) (chunks w n l).
Proof.
  revert l. induction n as [|n IH]; intros l Hl; cbn [chunks]; constructor.
  - by apply Forall_take.
  - apply IH. by apply Forall_drop.
Qed.

Lemma view_elements_in_range (v : View) (b : list Z) :
  Forall is_byte b ->
  Forall (in_range (view_type v)) (view_elements v b) /\
  length (view_elements v b) = Z.to_nat (view_len v).
Proof.
  intros Hb. unfold view_elements.
  destruct (chunks_spec (width (view_type v)) (Z.to_nat (view_len v))
              (drop (Z.to_nat (view_offset v)) b)) as [Hlen Hshort].
  split; [|by rewrite length_fmap].
  apply Forall_fmap.
  pose proof (Forall_is_byte_chunks (width (view_type v)) (Z.to_nat (view_len v))
                (drop (Z.to_nat (view_offset v)) b) (Forall_drop _ _ _ Hb)) as Hbytes.
  revert Hshort Hbytes. generalize (chunks (width (view_type v)) (Z.to_nat (view_len v))
                                      (drop (Z.to_nat (view_offset v)) b)).
  intros cs Hshort Hbytes. induction cs as [|c cs IH]; [constructor|].
  inversion Hshort; inversion Hbytes; subst. constructor; [|by apply IH].
  by apply decode_in_range.
Qed.

Lemma store_bytes_same a (bs b : list Z) :
  0 <= a -> load_bytes a (length bs) b = bs -> store_bytes a bs b = b.
Proof.
  intros Ha Hload. unfold store_bytes, load_bytes in *. apply list_eq. intros j.
  destruct (decide (j < Z.to_nat a)%nat) as [Hlt|Hge].
  { by rewrite list_lookup_inserts_lt. }
  destruct (decide (Z.to_nat a + length bs <= j)%nat) as [Hout|Hin].
  { by rewrite list_lookup_inserts_ge. }
  assert (Hbs : bs !! (j - Z.to_nat a)%nat = b !! j).
  { rewrite <- Hload at 1. rewrite lookup_take_lt, lookup_drop by lia. f_equal. lia. }
  assert (j < length b)%nat.
  { apply lookup_lt_is_Some. rewrite <- Hbs. apply lookup_lt_is_Some. lia. }
  rewrite list_lookup_inserts by lia. done.
Qed.

(** ** Elements of a view *)

Lemma chunks_lookup w n (l : list Z) (j : nat) :
  (j < n)%nat -> chunks w n l !! j = Some (take w (drop (j * w) l)).
Proof.
  revert l j. induction n as [|n IH]; intros l j Hj; [lia|].
  cbn [chunks]. destruct j as [|j]; [done|].
  cbn [lookup list_lookup]. change (chunks w n (drop w l) !! j = Some (take w (drop (S j * w) l))).
  rewrite IH by lia. rewrite drop_drop. do 3 f_equal; lia.
Qed.

Lemma view_elements_lookup (v : View) (b : list Z) (j : nat) :
  (j < Z.to_nat (view_len v))%nat -> 0 <= view_offset v ->
  view_elements v b !! j =
  Some (decode (view_type v)
          (load_bytes (view_offset v + Z.of_nat j * BYTES_PER_ELEMENT (view_type v))
                      (width (view_type v)) b)).
Proof.
  intros Hj Hoff. unfold view_elements, load_bytes.
  rewrite list_lookup_fmap, chunks_lookup by done. cbn [fmap option_fmap option_map].
  rewrite drop_drop. do 4 f_equal.
  pose proof (width_BPE (view_type v)). pose proof (BPE_pos (view_type v)). nia.
Qed.

(** ** Lists of arrays and of strings *)

Lemma write_all_readArrays (ty : ElemType) (arrs : list (list Z)) (st st1 : State) :
  wf st -> Forall (Forall (in_range ty)) arrs ->
  write_all (PArray ty <$> arrs) st = (Ok tt, st1) ->
  exists vs,
    Reader.readArrays ty (length arrs) (reader_at st1 (offset (this st))) =
      (Ok vs, reader_at st1 (offset (this st1))) /\
    (fun v => view_elements v (buffer st1)) <$> vs = arrs.
Proof.
  intros Hwf Hr Hw.
  assert (Hr' : Forall payload_in_range (PArray ty <$> arrs)).
  { apply Forall_fmap. by eapply Forall_impl. }
  pose proof (write_all_read_all _ _ _ Hwf Hr' Hw) as Hread.
  rewrite read_all_arrays in Hread.
  destruct (Reader.readArrays ty (length arrs) _) as [[vs|e] s2]; [|done].
  injection Hread as Hvs ->. exists vs. split; [done|].
  cbn [buffer reader_at with_offset] in Hvs.
  revert Hvs. clear. revert arrs. induction vs as [|v vs IH]; intros [|arr arrs]; try done.
  cbn. intros [= -> Hrest]. f_equal. by apply IH.
Qed.

Lemma write_strings_write_all {S : Type} (textEncoder : S -> list Z) (values : list S) :
  write_strings textEncoder values = write_all (PArray Uint8 <$> (textEncoder <$> values)).
Proof. induction values as [|v values IH]; [done|]. cbn. by rewrite IH. Qed.

Lemma readStrings_readArrays {T : Type} (decoder : list Z -> T)
    (one : M T) (loop : nat -> M (list T)) :
  (forall st, one st = (data <- Reader.readArray Uint8 ;; Reader.decode_view decoder data) st) ->
  loop O = ret [] ->
  (forall count, loop (S count) = (r <- one ;; rs <- loop count ;; ret (r :: rs))) ->
  forall count st,
    loop count st =
    match Reader.readArrays Uint8 count st with
    | (Ok vs, st') => (Ok ((fun v => decoder (view_elements v (buffer st))) <$> vs), st')
    | (Throw e, st') => (Throw e, st')
    end.
Proof.
  intros Hone H0 HS. induction count as [|count IH]; intros st.
  - by rewrite H0.
  - rewrite HS. cbn [Reader.readArrays]. unfold bind at 1 3. rewrite Hone.
    unfold bind at 1, Reader.decode_view.
    destruct (Reader.readArray Uint8 st) as [[v|e] s1] eqn:E; [|done].
    pose proof (read_only_readArray Uint8 _ _ _ E) as Hb.
    unfold bind. rewrite IH.
    destruct (Reader.readArrays Uint8 count s1) as [[vs|e] s2]; [|done].
    unfold ret. cbn. by rewrite Hb.
Qed.

(** ** The statements *)

(** X1. [alignUp(x, bytes)], for [bytes] 4 or 8.  While [x + bytes] stays
    within the [i32] range, the result is the least multiple of [bytes] at
    or above [x]: it is [x] itself when [x] is already aligned, and aligning
    twice changes nothing.  In the last [bytes - 1] values below [2^31] the
    32-bit [&] wraps and the result is [-2^31]. *)
Theorem alignUp_is_least_multiple_within_i32 (x bytes : Z) :
  bytes = 4 \/ bytes = 8 ->
  (0 <= x -> x + bytes <= 2 ^ 31 ->
   alignUp x bytes mod bytes = 0 /\
   x <= alignUp x bytes < x + bytes /\
   (forall m, x <= m -> m mod bytes = 0 -> alignUp x bytes <= m) /\
   (x mod bytes = 0 -> alignUp x bytes = x) /\
   alignUp (alignUp x bytes) bytes = alignUp x bytes) /\
  (2 ^ 31 - bytes < x < 2 ^ 31 -> alignUp x bytes = - 2 ^ 31).
Proof.
  intros Hbytes. split.
  - intros Hx Hb.
    assert (Hpos : 0 < bytes) by lia.
    assert (Hup : forall y, 0 <= y -> y + bytes <= 2 ^ 31 ->
                            alignUp y bytes = round_up y bytes).
    { intros y Hy Hyb. destruct Hbytes as [-> | ->]; [apply alignUp_4 | apply alignUp_8]; lia. }
    rewrite (Hup x Hx Hb).
    pose proof (round_up_bounds x bytes Hpos) as Hbd.
    pose proof (round_up_multiple x bytes Hpos) as Hmul.
    split; [done|]. split; [done|]. split; [|split].
    + intros m. by apply round_up_least.
    + by apply round_up_id.
    + assert (Hfit : round_up x bytes + bytes <= 2 ^ 31).
      { apply Z.mod_divide in Hmul; [|lia]. destruct Hmul as [q Hq].
        destruct Hbytes as [-> | ->]; lia. }
      rewrite Hup by lia. by apply round_up_id.
  - intros Hx.
    assert (Hcases : exists k, 0 < k < bytes /\ x = 2 ^ 31 - k) by (exists (2 ^ 31 - x); lia).
    destruct Hcases as (k & Hk & ->).
    destruct Hbytes as [-> | ->].
    + assert (k = 1 \/ k = 2 \/ k = 3) as [-> | [-> | ->]] by lia; reflexivity.
    + assert (k = 1 \/ k = 2 \/ k = 3 \/ k = 4 \/ k = 5 \/ k = 6 \/ k = 7)
        as [-> | [-> | [-> | [-> | [-> | [-> | ->]]]]]] by lia; reflexivity.
Qed.

(** X2. The constructor.  [new Writer(buffer, offset, sizeInBytes)] (and
    [new Reader]) returns a channel exactly when the offset and the size
    are non-negative multiples of 8 and the window lies inside the buffer;
    the cursor of the new channel is 0 and the channel satisfies the
    invariant of the codec.  A misaligned or overlong window fails the
    assertion.  The size defaults to the length of the whole buffer, not to
    what is left after the offset: with the size left out, only offset 0 is
    accepted. *)
Theorem constructor_accepts_aligned_windows (buf : list Z) (o s : Z) :
  (forall ch,
      Channel_new buf (Some o) (Some s) = Ok ch <->
      ch = mkChannel o s 0 /\ 0 <= o /\ 0 <= s /\ o mod 8 = 0 /\ s mod 8 = 0 /\
      o + s <= Z.of_nat (length buf)) /\
  (Z.rem o 8 <> 0 \/ Z.rem s 8 <> 0 \/ Z.of_nat (length buf) < o + s ->
   Channel_new buf (Some o) (Some s) = Throw AssertionFailed) /\
  (forall ch,
      Channel_new buf (Some o) (Some s) = Ok ch ->
      Forall is_byte buf -> s < 2 ^ 31 -> wf (mkState ch buf)) /\
  (forall ch,
      Channel_new buf (Some o) None = Ok ch <->
      o = 0 /\ Z.of_nat (length buf) mod 8 = 0 /\
      ch = mkChannel 0 (Z.of_nat (length buf)) 0) /\
  Channel_new buf None None = Channel_new buf (Some 0) None.
Proof.
  assert (Hiff : forall o s ch,
    Channel_new buf (Some o) (Some s) = Ok ch <->
    ch = mkChannel o s 0 /\ 0 <= o /\ 0 <= s /\ o mod 8 = 0 /\ s mod 8 = 0 /\
    o + s <= Z.of_nat (length buf)).
  { clear. intros o s ch. split.
    - unfold Channel_new, assert. cbn.
      destruct (Z.eqb_spec (Z.rem o 8) 0) as [Ho8|]; cbn; [|done].
      destruct (Z.eqb_spec (Z.rem s 8) 0) as [Hs8|]; cbn; [|done].
      destruct (Z.leb_spec (o + s) (Z.of_nat (length buf))); cbn; [|done].
      destruct (Z.ltb_spec o 0); cbn; [done|].
      destruct (Z.ltb_spec s 0); cbn; [done|].
      intros [= <-]. rewrite Z.rem_mod_nonneg in Ho8, Hs8 by lia. done.
    - intros (-> & Ho & Hs & Ho8 & Hs8 & Hfit).
      unfold Channel_new, assert. cbn.
      rewrite !Z.rem_mod_nonneg, Ho8, Hs8 by lia. cbn.
      destruct (Z.leb_spec (o + s) (Z.of_nat (length buf))); cbn; [|lia].
      destruct (Z.ltb_spec o 0); cbn; [lia|]. destruct (Z.ltb_spec s 0); cbn; [lia|]. done. }
  split; [apply Hiff|]. split; [|split; [|split]].
  - unfold Channel_new, assert. cbn.
    destruct (Z.eqb_spec (Z.rem o 8) 0); cbn; [|done].
    destruct (Z.eqb_spec (Z.rem s 8) 0); cbn; [|done].
    destruct (Z.leb_spec (o + s) (Z.of_nat (length buf))); cbn; [|done]. lia.
  - intros ch Hnew Hbytes Hs. apply Hiff in Hnew as (-> & ? & ? & ? & ? & ?).
    constructor; cbn; try done; lia.
  - intros ch. change (Channel_new buf (Some o) None)
      with (Channel_new buf (Some o) (Some (Z.of_nat (length buf)))).
    rewrite Hiff. split.
    + intros (-> & ? & ? & ? & ? & ?). assert (o = 0) as -> by lia. done.
    + intros (-> & ? & ->). repeat split; try done; lia.
  - reflexivity.
Qed.

(** X3. No method of the Reader stores anything: the scalar reads, the
    element and array reads, their loops and the string reads leave every
    byte of the buffer and the window of the channel as they were, whether
    they return or raise the bounds error; only the cursor moves. *)
Theorem reader_methods_never_write {S : Type} (decoder : list Z -> S)
    (ty : ElemType) (n : Z) (count : nat) :
  keeps_storage (Reader.read ty) /\
  keeps_storage (Reader.readElements ty n) /\
  keeps_storage (Reader.readArray ty) /\
  keeps_storage (Reader.readArrays ty count) /\
  keeps_storage (Reader.readAsciiString decoder) /\
  keeps_storage (Reader.readAsciiStrings decoder count) /\
  keeps_storage (Reader.readUtf8String decoder) /\
  keeps_storage (Reader.readUtf8Strings decoder count).
Proof.
  repeat apply conj.
  - apply keeps_storage_read.
  - apply keeps_storage_readElements.
  - apply keeps_storage_readArray.
  - by apply (keeps_storage_loop (Reader.readArray ty)); [apply keeps_storage_readArray|..].
  - apply keeps_storage_readAsciiString.
  - by apply (keeps_storage_loop (Reader.readAsciiString decoder));
      [apply keeps_storage_readAsciiString|..].
  - apply keeps_storage_readUtf8String.
  - by apply (keeps_storage_loop (Reader.readUtf8String decoder));
      [apply keeps_storage_readUtf8String|..].
Qed.

(** X4. A message of several fields.  When the fields [xs] (scalars and
    length-prefixed arrays of any of the five element types, all in range)
    are written one after the other, reading fields of the same shapes with
    a Reader over the same storage, from the cursor the Writer started at,
    returns the fields in order; the Reader ends where the Writer ended and
    has changed no byte.  Later fields never disturb earlier ones. *)
Theorem message_round_trip (xs : list Payload) (st st1 : State) :
  wf st -> Forall payload_in_range xs ->
  write_all xs st = (Ok tt, st1) ->
  exists st2,
    read_all xs (reader_at st1 (offset (this st))) = (Ok (Some <$> xs), st2) /\
    offset (this st2) = offset (this st1) /\
    buffer st2 = buffer st1.
Proof.
  intros Hwf Hr Hw. exists (reader_at st1 (offset (this st1))).
  split; [by apply write_all_read_all|]. done.
Qed.

(** X5. [readTArrays(count)] reads back, in order, the arrays that [count]
    calls of [copyTArray] wrote: it returns [count] views whose elements
    are those of the arrays. *)
Theorem readArrays_round_trip (ty : ElemType) (arrs : list (list Z)) (st st1 : State) :
  wf st -> Forall (Forall (in_range ty)) arrs ->
  write_all (PArray ty <$> arrs) st = (Ok tt, st1) ->
  exists vs,
    Reader.readArrays ty (length arrs) (reader_at st1 (offset (this st))) =
      (Ok vs, reader_at st1 (offset (this st1))) /\
    length vs = length arrs /\
    (fun v => view_elements v (buffer st1)) <$> vs = arrs.
Proof.
  intros Hwf Hr Hw.
  destruct (write_all_readArrays ty arrs st st1 Hwf Hr Hw) as (vs & Hread & Hels).
  exists vs. split; [done|]. split; [|done]. by rewrite <- Hels, length_fmap.
Qed.

(** X6. [writeAsciiString] sends a string as the length-prefixed byte array
    of the low bytes of its UTF-16 code units: it has the effect of
    [copyUint8Array] on the code units, and [readAsciiString] then decodes
    exactly those bytes (a code unit above 255 loses its high byte). *)
Theorem writeAsciiString_stores_low_bytes {S : Type} (asciiDecoder : list Z -> S)
    (value : list Z) (st st1 : State) :
  wf st ->
  Writer.writeAsciiString value st = Writer.copyUint8Array value st /\
  (Writer.writeAsciiString value st = (Ok tt, st1) ->
   Reader.readAsciiString asciiDecoder (reader_at st1 (offset (this st))) =
   (Ok (asciiDecoder ((fun u => u mod 2 ^ 8) <$> value)),
    reader_at st1 (offset (this st1)))).
Proof.
  intros Hwf. split; [by apply writeAsciiString_copyArray|].
  rewrite writeAsciiString_copyArray by done. intros Hcopy.
  unfold Reader.readAsciiString, Reader.readUint8Array, bind.
  rewrite (copyArray_readArray Uint8 value st st1 Hwf Hcopy).
  unfold Reader.decode_view. cbn [buffer reader_at with_offset].
  by rewrite (copyArray_view_wrap Uint8 value st st1 Hwf Hcopy).
Qed.

(** X7. A string written with [writeUtf8String] is read back by
    [readUtf8String] as the decoding of its encoding; the same bytes are
    what [readAsciiString] would decode. *)
Theorem utf8_string_round_trip {S : Type}
    (textEncoder : S -> list Z) (textDecoder asciiDecoder : list Z -> S)
    (value : S) (st st1 : State) :
  wf st -> Forall (in_range Uint8) (textEncoder value) ->
  Writer.writeUtf8String textEncoder value st = (Ok tt, st1) ->
  Reader.readUtf8String textDecoder (reader_at st1 (offset (this st))) =
    (Ok (textDecoder (textEncoder value)), reader_at st1 (offset (this st1))) /\
  Reader.readAsciiString asciiDecoder (reader_at st1 (offset (this st))) =
    (Ok (asciiDecoder (textEncoder value)), reader_at st1 (offset (this st1))).
Proof.
  intros Hwf Hbytes Hcopy. unfold Writer.writeUtf8String, Writer.copyUint8Array in Hcopy.
  rewrite readUtf8String_readArray.
  unfold Reader.readAsciiString, Reader.readUint8Array, bind.
  rewrite (copyArray_readArray Uint8 _ st st1 Hwf Hcopy).
  unfold Reader.decode_view. cbn [buffer reader_at with_offset].
  by rewrite (copyArray_view_elements Uint8 _ st st1 Hwf Hcopy Hbytes).
Qed.

(** X8. Lists of strings.  After [count] calls of [writeUtf8String],
    [readUtf8Strings(count)] returns, in order, the decodings of the
    encodings of the strings written, and [readAsciiStrings(count)] decodes
    the same byte arrays; both end where the Writer ended. *)
Theorem string_lists_round_trip {S : Type}
    (textEncoder : S -> list Z) (textDecoder asciiDecoder : list Z -> S)
    (values : list S) (st st1 : State) :
  wf st -> Forall (fun value => Forall (in_range Uint8) (textEncoder value)) values ->
  write_strings textEncoder values st = (Ok tt, st1) ->
  Reader.readUtf8Strings textDecoder (length values) (reader_at st1 (offset (this st))) =
    (Ok ((fun value => textDecoder (textEncoder value)) <$> values),
     reader_at st1 (offset (this st1))) /\
  Reader.readAsciiStrings asciiDecoder (length values) (reader_at st1 (offset (this st))) =
    (Ok ((fun value => asciiDecoder (textEncoder value)) <$> values),
     reader_at st1 (offset (this st1))).
Proof.
  intros Hwf Hbytes Hw. rewrite write_strings_write_all in Hw.
  destruct (write_all_readArrays Uint8 (textEncoder <$> values) st st1 Hwf) as (vs & Hread & Hels).
  { by apply Forall_fmap. }
  { exact Hw. }
  rewrite length_fmap in Hread.
  assert (Hdec : forall decoder : list Z -> S,
             (fun v => decoder (view_elements v (buffer st1))) <$> vs =
             (fun value => decoder (textEncoder value)) <$> values).
  { intros decoder. transitivity (decoder <$> (textEncoder <$> values)).
    - by rewrite <- Hels, <- list_fmap_compose.
    - by rewrite <- list_fmap_compose. }
  split.
  - rewrite (readStrings_readArrays textDecoder (Reader.readUtf8String textDecoder)
               (Reader.readUtf8Strings textDecoder)); try done.
    + rewrite Hread. cbn [buffer reader_at with_offset]. by rewrite Hdec.
    + apply readUtf8String_readArray.
  - rewrite (readStrings_readArrays asciiDecoder (Reader.readAsciiString asciiDecoder)
               (Reader.readAsciiStrings asciiDecoder)); try done.
    rewrite Hread. cbn [buffer reader_at with_offset]. by rewrite Hdec.
Qed.

(** X9. An integer outside the range of an integer view is not rejected:
    the write stores its low bits, and the read returns the wrapped value
    (modulo 2^8 or 2^32, in two's complement for [Int32Array]). *)
Theorem integer_write_wraps (ty : ElemType) (v : Z) (st st1 : State) :
  wf st -> integer_view ty ->
  Writer.write ty v st = (Ok tt, st1) ->
  Reader.read ty (reader_at st1 (offset (this st))) =
    (Ok (Some (wrap ty v)), reader_at st1 (offset (this st1))) /\
  in_range ty (wrap ty v) /\
  (in_range ty v -> wrap ty v = v).
Proof.
  intros Hwf Hty Hw. split; [by apply write_read_wrap|]. split.
  - destruct ty; try done; cbn [wrap in_range]; unfold ToInt32.
    + apply Z.mod_pos_bound. lia.
    + apply Z.mod_pos_bound. lia.
    + pose proof (Z.mod_pos_bound (v + 2 ^ 31) (2 ^ 32) ltac:(lia)). lia.
  - apply wrap_in_range.
Qed.

(** X10. What a Reader hands back is a value of its type.  On a channel
    whose buffer holds bytes, a scalar read that returns, returns a number
    (never [undefined]), and an array read returns a view of the element
    type with a non-negative length and that many elements; for the integer
    views the number, and every element, is in the range of the type. *)
Theorem decoded_values_are_in_range (ty : ElemType) (st s1 : State) :
  wf st ->
  (forall r,
      Reader.read ty st = (Ok r, s1) ->
      exists v, r = Some v /\ (integer_view ty -> in_range ty v)) /\
  (forall view,
      Reader.readArray ty st = (Ok view, s1) ->
      view_type view = ty /\ 0 <= view_len view /\
      Z.of_nat (length (view_elements view (buffer s1))) = view_len view /\
      (integer_view ty -> Forall (in_range ty) (view_elements view (buffer s1)))).
Proof.
  intros Hwf. split.
  - intros r. rewrite read_spec by done. destruct (_ <? _); [done|].
    intros [= <- <-]. eexists. split; [done|]. intros _.
    apply decode_in_range.
    + apply is_byte_load. by destruct Hwf.
    + unfold load_bytes. rewrite length_take. lia.
  - intros view. rewrite readArray_spec by done. cbn zeta.
    destruct (_ <? _); [done|].
    set (n := decode Uint32 _).
    assert (Hn : 0 <= n).
    { subst n. cbn [decode]. apply le_value_nonneg, is_byte_load. by destruct Hwf. }
    destruct (_ <? _); [done|]. intros [= <- <-]. cbn [view_type view_len].
    split; [done|]. split; [done|].
    destruct (view_elements_in_range
                (mkView ty (addr st (aligned ty (aligned Uint32 (offset (this st)) + 4))) n)
                (buffer st)) as [Hall Hlen]; [by destruct Hwf|].
    cbn [buffer with_offset]. split; [|intros _; exact Hall].
    rewrite Hlen. cbn [view_len]. lia.
Qed.

(** X11. Reading an integer and writing it back restores the bytes: when
    [readUint8()], [readUint32()] or [readInt32()] returns [v], the write
    of [v] with the matching method from the same cursor succeeds, stores
    the very bytes that were read and ends at the same cursor, so the
    buffer is unchanged. *)
Theorem write_after_read_restores_the_bytes (ty : ElemType) (v : Z) (st s1 : State) :
  wf st -> integer_view ty ->
  Reader.read ty st = (Ok (Some v), s1) ->
  Writer.write ty v st = (Ok tt, s1) /\
  buffer s1 = buffer st /\
  encode ty v = load_bytes (addr st (aligned ty (offset (this st)))) (width ty) (buffer st).
Proof.
  intros Hwf _. rewrite read_spec, write_spec by done.
  pose proof (aligned_in_window ty st Hwf) as Hin.
  pose proof (wf_base _ Hwf). pose proof (wf_cursor _ Hwf). pose proof (wf_fits _ Hwf).
  destruct (Z.ltb_spec (sizeInBytes (this st))
              (aligned ty (offset (this st)) + BYTES_PER_ELEMENT ty)); [done|].
  intros [= <- <-].
  set (bs := load_bytes _ _ _).
  assert (Hlen : length bs = width ty).
  { unfold bs, load_bytes, addr. rewrite length_take, length_drop.
    pose proof (width_BPE ty). lia. }
  assert (Henc : encode ty (decode ty bs) = bs).
  { apply encode_decode; [|done]. apply is_byte_load. by destruct Hwf. }
  rewrite Henc. split; [|done].
  rewrite store_bytes_same; [by destruct st as [[] ?]|unfold addr; lia|].
  by rewrite Hlen.
Qed.

(** X12. Deferred writes.  [initT()] reserves the aligned slot and returns a
    setter; the setter may be called after any further operations on the
    channel: it stores the value in the reserved slot, leaves the cursor and
    every other byte alone, and a Reader started at the cursor of the
    reservation reads that value first (when the value is in range). *)
Theorem deferred_write_fills_reserved_slot
    (ty : ElemType) (later : list Op) (v : Z) (st s1 s2 : State) (set : Z -> M unit) :
  wf st -> Forall valid later ->
  Writer.init ty st = (Ok set, s1) ->
  run_all later s1 = (Ok tt, s2) ->
  let p := aligned ty (offset (this st)) in
  exists s3,
    set v s2 = (Ok tt, s3) /\
    this s3 = this s2 /\
    load_bytes (addr st p) (width ty) (buffer s3) = encode ty v /\
    (forall i : nat,
        Z.of_nat i < addr st p \/ addr st p + BYTES_PER_ELEMENT ty <= Z.of_nat i ->
        buffer s3 !! i = buffer s2 !! i) /\
    (in_range ty v ->
     Reader.read ty (reader_at s3 (offset (this st))) =
       (Ok (Some v), reader_at s3 (p + BYTES_PER_ELEMENT ty))).
Proof.
  intros Hwf Hv Hinit Hlater p.
  rewrite init_spec in Hinit by done.
  pose proof (aligned_in_window ty st Hwf) as Hin.
  pose proof (aligned_multiple ty (offset (this st))) as Hmul.
  pose proof (BPE_pos ty) as Hw.
  pose proof (wf_base _ Hwf) as Hbase. pose proof (wf_cursor _ Hwf) as Hcur.
  destruct (Z.ltb_spec (sizeInBytes (this st))
              (aligned ty (offset (this st)) + BYTES_PER_ELEMENT ty)) as [|Hfit]; [done|].
  injection Hinit as <- <-. fold p in Hin, Hmul, Hfit.
  assert (Hwf1 : wf (with_offset st (p + BYTES_PER_ELEMENT ty)))
    by (apply wf_with_offset; [done|lia]).
  pose proof (run_all_step_ok_any _ _ _ _ Hwf1 Hv Hlater) as Hok.
  pose proof (so_wf _ _ Hok) as Hwf2. pose proof (so_base _ _ Hok) as Hb2.
  pose proof (so_size _ _ Hok) as Hs2. pose proof (wf_fits _ Hwf2) as Hfits2.
  cbn [this with_offset byteOffset sizeInBytes] in Hb2, Hs2.
  rewrite storage_set_spec by (done || lia).
  eexists. split; [reflexivity|]. split; [done|].
  unfold addr. rewrite Hb2. cbn [buffer with_buffer].
  assert (Hload : load_bytes (byteOffset (this st) + p) (width ty)
                    (store_bytes (byteOffset (this st) + p) (encode ty v) (buffer s2)) =
                  encode ty v).
  { rewrite <- (length_encode ty v) at 1. apply load_store_bytes; [lia|].
    rewrite length_encode, width_BPE. lia. }
  split; [exact Hload|]. split.
  - intros i Hi. apply lookup_store_bytes_outside; [lia|].
    rewrite length_encode, width_BPE. lia.
  - intros Hrange. unfold reader_at. rewrite read_spec.
    2:{ apply wf_with_offset; cbn [this with_buffer sizeInBytes]; [|lia].
        apply wf_with_buffer; [done|apply length_store_bytes|].
        apply Forall_inserts; [by destruct Hwf2|apply is_byte_encode]. }
    cbn [this buffer with_offset with_buffer offset sizeInBytes byteOffset].
    rewrite Hs2. fold p.
    destruct (Z.ltb_spec (sizeInBytes (this st)) (p + BYTES_PER_ELEMENT ty)); [lia|].
    unfold addr. cbn [this with_offset with_buffer byteOffset]. rewrite Hb2, Hload.
    by rewrite decode_encode.
Qed.

(** X13. The view returned by [initTArray] is a live window on the channel.
    After [initTArray(n)], assigning element [i] of the returned view
    stores the value in the channel itself: the write touches only the
    bytes of that element, and a Reader started at the cursor of the
    reservation gets, from [readTArray], a view of the same [n] elements in
    which element [i] is the value assigned (when in range) and every other
    element is as it was. *)
Theorem view_of_initArray_is_live
    (ty : ElemType) (n i x : Z) (st s1 : State) (data : View) :
  wf st -> 0 <= i < n ->
  Writer.initArray ty n st = (Ok data, s1) ->
  exists s2,
    view_set data i x s1 = (Ok tt, s2) /\
    this s2 = this s1 /\
    (forall k : nat,
        Z.of_nat k < view_offset data + i * BYTES_PER_ELEMENT ty \/
        view_offset data + (i + 1) * BYTES_PER_ELEMENT ty <= Z.of_nat k ->
        buffer s2 !! k = buffer s1 !! k) /\
    Reader.readArray ty (reader_at s2 (offset (this st))) =
      (Ok data, reader_at s2 (offset (this s1))) /\
    (in_range ty x -> view_elements data (buffer s2) !! Z.to_nat i = Some x) /\
    (forall j : nat,
        j <> Z.to_nat i ->
        view_elements data (buffer s2) !! j = view_elements data (buffer s1) !! j).
Proof.
  intros Hwf Hi. rewrite initArray_spec by (done || lia). cbn zeta.
  pose proof (aligned_in_window Uint32 st Hwf) as Hp.
  pose proof (wf_base _ Hwf) as Hbase. pose proof (wf_cursor _ Hwf) as Hcur.
  pose proof (wf_fits _ Hwf) as Hfits. pose proof (wf_size _ Hwf) as Hsize.
  pose proof (BPE_pos ty) as Hw.
  set (p := aligned Uint32 (offset (this st))) in *.
  destruct (Z.ltb_spec (sizeInBytes (this st)) (p + 4)) as [|Hfit4]; [done|].
  set (a := aligned ty (p + 4)).
  pose proof (aligned_bounds ty (p + 4)) as Ha. fold a in Ha.
  destruct (Z.ltb_spec (sizeInBytes (this st)) (a + n * BYTES_PER_ELEMENT ty)) as [|Hfit];
    [done|].
  intros [= <- <-].
  set (b1 := store_bytes (addr st p) (encode Uint32 n) (buffer st)).
  assert (Hlen1 : length b1 = length (buffer st)) by apply length_store_bytes.
  assert (Hiw : 0 <= i * BYTES_PER_ELEMENT ty /\
                (i + 1) * BYTES_PER_ELEMENT ty <= n * BYTES_PER_ELEMENT ty) by nia.
  unfold view_set. cbn [view_len view_type view_offset buffer this with_buffer with_offset].
  destruct (Z.leb_spec 0 i); [|lia]. destruct (Z.ltb_spec i n); [|lia]. cbn [andb].
  set (b2 := store_bytes (addr st a + i * BYTES_PER_ELEMENT ty) (encode ty x) b1).
  assert (Hlen2 : length b2 = length (buffer st)) by (unfold b2; by rewrite length_store_bytes).
  assert (Hout : forall k : nat,
             Z.of_nat k < addr st a + i * BYTES_PER_ELEMENT ty \/
             addr st a + (i + 1) * BYTES_PER_ELEMENT ty <= Z.of_nat k ->
             b2 !! k = b1 !! k).
  { intros k Hk. unfold b2. apply lookup_store_bytes_outside; [unfold addr; lia|].
    rewrite length_encode, width_BPE. lia. }
  assert (Hwf1 : wf (with_buffer (with_offset st (a + n * BYTES_PER_ELEMENT ty)) b1)).
  { apply wf_with_buffer; [apply wf_with_offset; [done|lia]|done|].
    apply Forall_inserts; [by destruct Hwf|apply is_byte_encode]. }
  assert (Hbytes2 : Forall is_byte b2).
  { apply Forall_inserts; [by destruct Hwf1|apply is_byte_encode]. }
  eexists. split; [reflexivity|]. split; [done|].
  cbn [buffer this]. split; [exact Hout|].
  assert (Hn32 : in_range Uint32 n) by (cbn; nia).
  split; [|split].
  - unfold reader_at. rewrite readArray_spec.
    2:{ apply wf_with_offset; cbn [this sizeInBytes with_offset with_buffer]; [|lia].
        destruct Hwf1. constructor; cbn in *; try done. by rewrite Hlen2. }
    cbn [this buffer with_offset with_buffer offset sizeInBytes byteOffset]. cbn zeta.
    fold p. destruct (Z.ltb_spec (sizeInBytes (this st)) (p + 4)); [lia|].
    unfold addr. cbn [this with_offset byteOffset].
    rewrite (load_bytes_unchanged _ _ b1); [|lia|].
    2:{ intros k Hk. apply Hout. unfold addr. change (Z.of_nat 4) with 4 in Hk. lia. }
    unfold b1, addr. change 4%nat with (length (encode Uint32 n)).
    rewrite load_store_bytes; [|lia|rewrite length_encode; change (Z.of_nat (width Uint32)) with 4; lia].
    rewrite decode_encode by done. fold a.
    destruct (Z.ltb_spec (sizeInBytes (this st)) (a + n * BYTES_PER_ELEMENT ty)); [lia|].
    reflexivity.
  - intros Hx. rewrite view_elements_lookup; cbn [view_len view_type view_offset];
      [|lia|unfold addr; lia].
    rewrite Z2Nat.id by lia. unfold b2.
    rewrite <- (length_encode ty x) at 1.
    rewrite load_store_bytes; [by rewrite decode_encode|unfold addr; lia|].
    rewrite length_encode, width_BPE, Hlen1. unfold addr. lia.
  - intros j Hj.
    destruct (decide (j < Z.to_nat n)%nat) as [Hin|Hge].
    + rewrite !view_elements_lookup; cbn [view_len view_type view_offset];
        try done; try (unfold addr; lia).
      do 2 f_equal. apply load_bytes_unchanged; [unfold addr; lia|].
      intros k Hk. apply Hout. rewrite width_BPE in Hk.
      assert (Z.of_nat j < i \/ i < Z.of_nat j) as [Hlt|Hgt] by lia; [left|right]; nia.
    + assert (Hb1 : Forall is_byte b1) by (by destruct Hwf1).
      rewrite !lookup_ge_None_2; [done| |].
      * rewrite (proj2 (view_elements_in_range _ _ Hb1)). cbn [view_len]. lia.
      * rewrite (proj2 (view_elements_in_range _ _ Hbytes2)). cbn [view_len]. lia.
Qed.

(** X14. A channel is append-only.  Whatever a sequence of operations does,
    and whether it completes or stops at a bounds error, the cursor does not
    move backward and no byte below the cursor the sequence started at (and
    none beyond the window) is changed: fields already written stay as they
    are. *)
Theorem operations_never_touch_earlier_bytes
    (ops : list Op) (st st' : State) (r : Res unit) :
  wf st -> Forall valid ops ->
  run_all ops st = (r, st') ->
  wf st' /\
  offset (this st) <= offset (this st') <= sizeInBytes (this st) /\
  (forall i : nat,
      Z.of_nat i < byteOffset (this st) + offset (this st) \/
      byteOffset (this st) + offset (this st') <= Z.of_nat i ->
      buffer st' !! i = buffer st !! i) /\
  forall x v s2,
    read_payload x (reader_at st 0) = (Ok v, s2) ->
    offset (this s2) <= offset (this st) ->
    read_payload x (reader_at st' 0) = (Ok v, reader_at st' (offset (this s2))).
Proof.
  intros Hwf Hv Hrun.
  pose proof (run_all_step_ok_any _ _ _ _ Hwf Hv Hrun) as Hok.
  pose proof (so_wf _ _ Hok) as Hwf'. pose proof (wf_cursor _ Hwf') as Hc'.
  pose proof (wf_cursor _ Hwf) as Hc.
  rewrite (so_size _ _ Hok) in Hc'.
  split; [done|]. split; [pose proof (so_mono _ _ Hok); lia|]. split.
  - intros i Hi. apply (so_frame _ _ Hok). unfold addr. lia.
  - intros x v s2 Hread Hbefore.
    apply (read_payload_local x (reader_at st 0) (reader_at st' 0) v s2).
    + apply wf_with_offset; [done|lia].
    + apply wf_with_offset; [done|]. rewrite (so_size _ _ Hok). lia.
    + unfold reader_at, with_offset. cbn. by rewrite (so_base _ _ Hok), (so_size _ _ Hok).
    + exact Hread.
    + intros i Hi. cbn in Hi. apply (so_frame _ _ Hok). left. unfold addr in *. cbn in *. lia.
Qed.

(** X15. Two channels over one buffer whose windows share no byte do not
    interfere: whatever an operation on one of them does, a field read
    through the other is read the same before and after. *)
Theorem disjoint_channels_do_not_interfere
    (op : Op) (st st' : State) (r : Res unit) (other : Channel)
    (x : Payload) (v : option Payload) (s2 : State) :
  wf st -> valid op ->
  wf (mkState other (buffer st)) ->
  disjoint_windows (this st) other ->
  exec op st = (r, st') ->
  read_payload x (mkState other (buffer st)) = (Ok v, s2) ->
  read_payload x (mkState other (buffer st')) = (Ok v, mkState (this s2) (buffer st')).
Proof.
  intros Hwf Hv Hwfo Hdis Hrun Hread.
  destruct (exec_summary op st Hwf Hv _ _ Hrun) as [Hok _].
  pose proof (read_payload_step_ok _ _ _ _ Hwfo Hread) as Hoks.
  pose proof (so_wf _ _ Hok) as Hwf'. pose proof (wf_cursor _ Hwf') as Hc'.
  pose proof (wf_cursor _ Hwf) as Hc. pose proof (wf_size _ Hwf) as Hsz.
  rewrite (so_size _ _ Hok) in Hc'.
  pose proof (wf_cursor _ (so_wf _ _ Hoks)) as Hcs.
  pose proof (so_size _ _ Hoks) as Hss. pose proof (so_base _ _ Hoks) as Hbs.
  pose proof (so_mono _ _ Hoks) as Hms.
  pose proof (wf_cursor _ Hwfo) as Hco. pose proof (wf_size _ Hwfo) as Hso.
  cbn [this buffer] in *.
  assert (Hwfo' : wf (mkState other (buffer st'))).
  { destruct Hwfo. constructor; cbn in *; try done.
    - by rewrite (so_len _ _ Hok).
    - by destruct Hwf'. }
  rewrite (read_payload_local x _ (mkState other (buffer st')) v s2 Hwfo Hwfo' eq_refl Hread).
  - f_equal. unfold with_offset. cbn. rewrite <- Hbs, <- Hss. by destruct s2 as [[] ?].
  - intros i Hi. unfold addr in Hi. cbn in Hi |- *.
    apply (so_frame _ _ Hok). unfold addr. unfold disjoint_windows in Hdis. lia.
Qed.


(** X17. A negative length is not rejected.  [readTElements(n)] and
    [initTElements(n)] with [n < 0] raise no error, whatever [n] is: the
    capacity test of [advance8] only looks upward, so the cursor moves
    backward by [|n|] elements, below where it was; while the end index
    stays non-negative the view handed back is empty. *)
Theorem negative_length_moves_cursor_backward (ty : ElemType) (n : Z) (st : State) :
  wf st -> n < 0 ->
  let p := aligned ty (offset (this st)) in
  exists v,
    Reader.readElements ty n st =
      (Ok v, with_offset st (p + n * BYTES_PER_ELEMENT ty)) /\
    Writer.initElements ty n st =
      (Ok v, with_offset st (p + n * BYTES_PER_ELEMENT ty)) /\
    p + n * BYTES_PER_ELEMENT ty < offset (this st) /\
    (0 <= p / BYTES_PER_ELEMENT ty + n -> view_len v = 0).
Proof.
  intros Hwf Hn p.
  pose proof (aligned_in_window ty st Hwf) as Hin.
  pose proof (aligned_bounds ty (offset (this st))) as Hb.
  pose proof (BPE_pos ty) as Hw. fold p in Hin, Hb.
  assert (Hback : p + n * BYTES_PER_ELEMENT ty < offset (this st)) by nia.
  assert (Hrun : Writer.initElements ty n st =
                 storage_subarray ty (p / BYTES_PER_ELEMENT ty)
                   (p / BYTES_PER_ELEMENT ty + n)
                   (with_offset st (p + n * BYTES_PER_ELEMENT ty))).
  { unfold Writer.initElements. rewrite reserve_spec by done. cbn zeta. fold p.
    destruct (Z.ltb_spec (sizeInBytes (this st)) (p + n * BYTES_PER_ELEMENT ty)); [lia|done]. }
  eexists. split; [exact Hrun|]. split; [exact Hrun|]. split; [done|].
  intros Hend. cbn [view_len]. unfold relative_index.
  destruct (Z.ltb_spec (p / BYTES_PER_ELEMENT ty) 0); [lia|].
  destruct (Z.ltb_spec (p / BYTES_PER_ELEMENT ty + n) 0); lia.
Qed.

(* ===================================================================== *)
(** * Further properties of the host instance and of the module *)
(* ===================================================================== *)

(** ** Null-terminated messages *)

Lemma before_null_app_zero (l r : list Z) :
  before_null (l ++ 0 :: r) = before_null l.
Proof.
  induction l as [|b l IH]; [done|].
  cbn [app before_null]. destruct (b =? 0); [done|]. by rewrite IH.
Qed.

Lemma before_null_nonzero (l : list Z) : Forall (fun b => b <> 0) (before_null l).
Proof.
  induction l as [|b l IH]; cbn [before_null]; [constructor|].
  destruct (Z.eqb_spec b 0); [constructor|]. by constructor.
Qed.

Lemma before_null_all (l : list Z) : Forall (fun b => b <> 0) l -> before_null l = l.
Proof.
  induction 1 as [|b l Hb _ IH]; [done|].
  cbn [before_null]. destruct (Z.eqb_spec b 0); [done|]. by rewrite IH.
Qed.

Lemma before_null_prefix (l : list Z) : before_null l `prefix_of` l.
Proof.
  induction l as [|b l IH]; cbn [before_null]; [done|].
  destruct (b =? 0); [apply prefix_nil|]. by apply prefix_cons.
Qed.

Section HostLog.
Variable MAX_LOG_SIZE : Z.

Lemma getLogData_ok i :
  log_cell_ok MAX_LOG_SIZE i -> log_region_fits MAX_LOG_SIZE i ->
  exists r i',
    getLogData MAX_LOG_SIZE i = (Ok (r, mkByteView (logPtr i) MAX_LOG_SIZE), i') /\
    memory i' = memory i /\ logPtr i' = logPtr i /\
    log_cell_ok MAX_LOG_SIZE i'.
Proof.
  intros Hcell (H0 & H1 & H2). unfold getLogData, get_view, log_cell_ok in *.
  assert (Hnew : ByteView_new (bytes (memory i)) (logPtr i) MAX_LOG_SIZE =
                 Ok (mkByteView (logPtr i) MAX_LOG_SIZE)).
  { unfold ByteView_new, byteLength in *.
    destruct (Z.ltb_spec (logPtr i) 0); [lia|].
    destruct (Z.ltb_spec MAX_LOG_SIZE 0); [lia|].
    destruct (Z.ltb_spec (Z.of_nat (length (bytes (memory i))))
                (logPtr i + MAX_LOG_SIZE)); [lia|done]. }
  destruct (cell_instance (logDataCell i)) as [[r v]|] eqn:E.
  - destruct (decide (cell_buffer (logDataCell i) = Some (buffer_ref (memory i)))).
    + subst v. exists r. eexists. split; [reflexivity|]. cbn. by rewrite E.
    + rewrite Hnew. eexists _, _. split; [reflexivity|]. done.
  - rewrite Hnew. eexists _, _. split; [reflexivity|]. done.
Qed.

Lemma hostLog_spec i :
  log_cell_ok MAX_LOG_SIZE i -> log_region_fits MAX_LOG_SIZE i ->
  exists i',
    hostLog MAX_LOG_SIZE i = (Ok (before_null (log_region MAX_LOG_SIZE i)), i') /\
    memory i' = memory i /\ log_cell_ok MAX_LOG_SIZE i'.
Proof.
  intros Hcell Hfit. unfold hostLog.
  destruct (getLogData_ok i Hcell Hfit) as (r & i' & -> & Hm & Hp & Hc).
  exists i'. rewrite Hm. unfold bv_data. cbn [bv_offset bv_length].
  fold (log_region MAX_LOG_SIZE i).
  destruct (message_of_data (log_region MAX_LOG_SIZE i)) as [-> _]. done.
Qed.

End HostLog.

(** ** handleError and createInstance *)

Lemma throwWasmError_throws MAX_ERROR_SIZE e i :
  fst (throwWasmError MAX_ERROR_SIZE e i) <> NoError.
Proof.
  unfold throwWasmError.
  destruct (getErrorData MAX_ERROR_SIZE i) as [[[r view]|x] i']; [|done].
  cbn zeta. destruct (0 <? _); [done|]. by destruct e.
Qed.

Section Bootstrap.
Variables MAX_LOG_SIZE MAX_ERROR_SIZE PAGE_SIZE DEFAULT_INITIAL_PAGES : Z.

Lemma Memory_grow_spec delta m next :
  0 < delta ->
  match Memory_grow PAGE_SIZE delta m next with
  | Ok (m', next') =>
      memory_ref m' = memory_ref m /\ maximum m' = maximum m /\
      bytes m' = bytes m ++ replicate (Z.to_nat (delta * PAGE_SIZE)) 0
  | Throw e =>
      e = RangeError /\
      exists mx, maximum m = Some mx /\ mx < byteLength m / PAGE_SIZE + delta
  end.
Proof.
  intros Hd. unfold Memory_grow.
  destruct (Z.ltb_spec delta 0); [lia|]. cbn [orb].
  destruct (maximum m) as [mx|] eqn:E; [|done].
  destruct (Z.ltb_spec mx (byteLength m / PAGE_SIZE + delta)); [|done].
  split; [done|]. by exists mx.
Qed.

Lemma grow_to_cover_outcome required m next :
  match grow_to_cover PAGE_SIZE required m next with
  | Ok (m', next') =>
      memory_ref m' = memory_ref m /\ maximum m' = maximum m /\
      bytes m `prefix_of` bytes m'
  | Throw e => e = RangeError /\ is_Some (maximum m) /\ byteLength m < required
  end.
Proof.
  unfold grow_to_cover.
  destruct (Z.ltb_spec (byteLength m) required); [|done].
  destruct (Z.ltb_spec 0 (ceil_div (required - byteLength m) PAGE_SIZE)) as [Hpos|]; [|done].
  pose proof (Memory_grow_spec _ m next Hpos) as Hg.
  destruct (Memory_grow _ _ _ _) as [[m' next']|e].
  - destruct Hg as (? & ? & ->). repeat split; try done. by apply prefix_app_r.
  - destruct Hg as (-> & mx & -> & _). done.
Qed.

Lemma createInstance_unfold instantiate options next :
  createInstance MAX_LOG_SIZE MAX_ERROR_SIZE PAGE_SIZE DEFAULT_INITIAL_PAGES
    instantiate options next =
  let memory0 := fst (initial_memory PAGE_SIZE DEFAULT_INITIAL_PAGES options next) in
  let next1 := snd (initial_memory PAGE_SIZE DEFAULT_INITIAL_PAGES options next) in
  match instantiate (instantiate_imports PAGE_SIZE DEFAULT_INITIAL_PAGES options next) with
  | Throw e => Throw e
  | Ok exports =>
      let inputPtr_ := allocateInputChannel exports (opt_inputChannelSize options) in
      let outputPtr_ := allocateOutputChannel exports (opt_outputChannelSize options) in
      match grow_to_cover PAGE_SIZE
              (requiredBytes MAX_LOG_SIZE MAX_ERROR_SIZE
                 inputPtr_ (opt_inputChannelSize options)
                 outputPtr_ (opt_outputChannelSize options)
                 (getLogPtr exports) (getErrorPtr exports))
              (effective_memory memory0 exports) (S next1) with
      | Throw e => Throw e
      | Ok (memory2, next3) =>
          Ok (mkInstance memory2 next3 (getLogPtr exports) (getErrorPtr exports)
                inputPtr_ outputPtr_
                (opt_inputChannelSize options) (opt_outputChannelSize options)
                empty_cell empty_cell empty_cell empty_cell empty_cell)
      end
  end.
Proof.
  unfold createInstance, instantiate_imports, initial_memory, effective_memory.
  destruct (opt_memory options) as [m|]; cbn [fst snd]; [reflexivity|].
  unfold Memory_new. cbn [fst snd]. reflexivity.
Qed.

Lemma createInstance_covers instantiate options next inst :
  0 < PAGE_SIZE ->
  createInstance MAX_LOG_SIZE MAX_ERROR_SIZE PAGE_SIZE DEFAULT_INITIAL_PAGES
    instantiate options next = Ok inst ->
  inputPtr inst + inputChannelSize inst <= byteLength (memory inst) /\
  outputPtr inst + outputChannelSize inst <= byteLength (memory inst) /\
  logPtr inst + MAX_LOG_SIZE <= byteLength (memory inst) /\
  errPtr inst + MAX_ERROR_SIZE <= byteLength (memory inst).
Proof.
  intros Hpage. rewrite createInstance_unfold. cbn zeta.
  destruct (instantiate _) as [exports|]; [|done].
  destruct (grow_to_cover _ _ _ _) as [[memory2 next3]|] eqn:Hgrow; [|done].
  intros [= <-]. cbn.
  apply (grow_to_cover_spec PAGE_SIZE Hpage) in Hgrow.
  set (required := requiredBytes _ _ _ _ _ _ _ _) in *.
  assert (required <= byteLength memory2) as Hcover.
  { destruct (_ <? _) eqn:Hlt; [lia|].
    apply Z.ltb_ge in Hlt. destruct Hgrow as [-> _]. lia. }
  unfold requiredBytes in required. lia.
Qed.

End Bootstrap.

(** ** Filling a buffer with a null-terminated text *)

Lemma before_null_app_zeros (l : list Z) (k : nat) :
  (0 < k)%nat -> before_null (l ++ replicate k 0) = before_null l.
Proof. destruct k as [|k]; [lia|]. intros _. apply before_null_app_zero. Qed.

Lemma writeNullTerminated_region (buffer : list Z) (offset size : Z) (data b' : list Z) :
  0 < size ->
  TestSupport.writeNullTerminated buffer offset size data = Ok b' ->
  let len := Z.to_nat (Z.min (Z.of_nat (length data)) (size - 1)) in
  0 <= offset /\ offset + size <= Z.of_nat (length buffer) /\
  length b' = length buffer /\
  take (Z.to_nat size) (drop (Z.to_nat offset) b') =
    take len data ++ replicate (Z.to_nat size - len) 0 /\
  (forall j : nat,
      Z.of_nat j < offset \/ offset + size <= Z.of_nat j -> b' !! j = buffer !! j).
Proof.
  intros Hsize. unfold TestSupport.writeNullTerminated, ByteView_new.
  destruct (Z.ltb_spec offset 0); [done|]. destruct (Z.ltb_spec size 0); [done|].
  destruct (Z.ltb_spec (Z.of_nat (length buffer)) (offset + size)); [done|]. cbn [orb].
  set (length_ := Z.min (Z.of_nat (length data)) (size - 1)).
  assert (Hl : 0 <= length_ < size /\ length_ <= Z.of_nat (length data)) by lia.
  unfold relative_index. destruct (Z.ltb_spec length_ 0); [lia|].
  rewrite Z.min_l by lia.
  assert (Hpart : length (take (Z.to_nat length_) data) = Z.to_nat length_)
    by (rewrite length_take; lia).
  rewrite Hpart.
  destruct (Z.ltb_spec size (Z.of_nat (Z.to_nat length_))); [lia|].
  destruct (Z.leb_spec 0 length_); [|lia]. destruct (Z.ltb_spec length_ size); [|lia].
  cbn [andb]. intros [= <-]. cbn zeta.
  split; [done|]. split; [done|].
  split; [by rewrite !length_store_bytes|]. split.
  - apply list_eq. intros j. unfold store_bytes. cbn [list_inserts].
    destruct (decide (j < Z.to_nat size)%nat) as [Hj|Hj].
    2:{ rewrite lookup_take_ge by lia. symmetry. apply lookup_ge_None.
        rewrite length_app, Hpart, length_replicate. lia. }
    rewrite lookup_take_lt, lookup_drop by done.
    destruct (decide (j < Z.to_nat length_)%nat) as [Hin|Hout].
    { rewrite list_lookup_insert_ne by lia.
      rewrite list_lookup_inserts by (rewrite ?Hpart, ?length_inserts; lia).
      rewrite lookup_app_l by lia. f_equal. lia. }
    rewrite lookup_app_r by lia. rewrite Hpart.
    rewrite lookup_replicate_2 by lia.
    destruct (decide (j = Z.to_nat length_)) as [->|Hne].
    { replace (Z.to_nat (offset + length_)) with (Z.to_nat offset + Z.to_nat length_)%nat by lia.
      by rewrite list_lookup_insert_eq by (rewrite !length_inserts; lia). }
    rewrite list_lookup_insert_ne by lia.
    rewrite list_lookup_inserts_ge by (rewrite ?Hpart; lia).
    rewrite list_lookup_inserts by (rewrite ?length_replicate; lia).
    apply lookup_replicate_2. lia.
  - intros j Hj.
    rewrite !lookup_store_bytes_outside; rewrite ?length_store_bytes, ?Hpart, ?length_replicate;
      cbn [length]; try done; lia.
Qed.

(** ** The statements *)

(** X18. [hostLog] hands to [log] the bytes of the log buffer before the
    first null byte, or the whole buffer of [MAX_LOG_SIZE] bytes when there
    is none; the message holds no null byte, and the memory is not
    changed. *)
Theorem hostLog_reads_up_to_the_terminator (MAX_LOG_SIZE : Z) (i : Instance) :
  log_cell_ok MAX_LOG_SIZE i -> log_region_fits MAX_LOG_SIZE i ->
  exists message i',
    hostLog MAX_LOG_SIZE i = (Ok message, i') /\
    memory i' = memory i /\
    message = before_null (log_region MAX_LOG_SIZE i) /\
    message `prefix_of` log_region MAX_LOG_SIZE i /\
    Forall (fun b => b <> 0) message /\
    (Forall (fun b => b <> 0) (log_region MAX_LOG_SIZE i) ->
     message = log_region MAX_LOG_SIZE i /\ Z.of_nat (length message) = MAX_LOG_SIZE).
Proof.
  intros Hcell Hfit.
  destruct (hostLog_spec MAX_LOG_SIZE i Hcell Hfit) as (i' & Hrun & Hm & _).
  eexists _, i'. split; [exact Hrun|]. split; [done|]. split; [done|].
  split; [apply before_null_prefix|]. split; [apply before_null_nonzero|].
  intros Hall. rewrite before_null_all by done. split; [done|].
  destruct Hfit as (H0 & H1 & H2). unfold log_region, byteLength in *.
  rewrite length_take, length_drop. lia.
Qed.

(** X19. From the module to the host.  When the module calls [log(msg)], the
    host's [log] receives the message truncated to 2047 bytes and cut at
    its first null byte ([msg] itself when it is shorter than 2048 bytes
    and holds no null byte).  The module stores only inside the 2048 bytes
    of [logStorage], terminator included. *)
Theorem module_log_reaches_the_host (MAX_LOG_SIZE : Z) (msg : list Z) (i : Instance) :
  log_cell_ok MAX_LOG_SIZE i -> log_region_fits MAX_LOG_SIZE i ->
  logPtr i + Log.logStorage_len <= byteLength (memory i) ->
  Z.min (Z.of_nat (length msg)) (Log.logStorage_len - 1) < MAX_LOG_SIZE ->
  exists i',
    module_log MAX_LOG_SIZE msg i = (Ok (before_null (take 2047 msg)), i') /\
    byteLength (memory i') = byteLength (memory i) /\
    (forall j : nat,
        Z.of_nat j < logPtr i \/ logPtr i + Log.logStorage_len <= Z.of_nat j ->
        bytes (memory i') !! j = bytes (memory i) !! j) /\
    (Z.of_nat (length msg) < Log.logStorage_len -> Forall (fun b => b <> 0) msg ->
     module_log MAX_LOG_SIZE msg i = (Ok msg, i')).
Proof.
  intros Hcell (H0 & H1 & H2) Hstorage Hmax.
  unfold module_log, Log.log, Log.logStorage_len in *.
  set (len := Z.min (Z.of_nat (length msg)) (2048 - 1)) in *.
  set (mem1 := store_bytes (logPtr i) (take (Z.to_nat len) msg) (bytes (memory i))).
  set (mem2 := store_bytes (logPtr i + len) [0] mem1).
  assert (Hlen_take : length (take (Z.to_nat len) msg) = Z.to_nat len)
    by (rewrite length_take; lia).
  assert (Hlen2 : length mem2 = length (bytes (memory i)))
    by (unfold mem2, mem1; by rewrite !length_store_bytes).
  unfold byteLength in *.
  assert (Hregion : log_region MAX_LOG_SIZE (with_bytes i mem2) =
                    take (Z.to_nat len) msg ++
                    0 :: take (Z.to_nat MAX_LOG_SIZE - Z.to_nat len - 1)
                           (drop (Z.to_nat (logPtr i) + Z.to_nat len + 1) (bytes (memory i)))).
  { unfold log_region, with_bytes. cbn.
    apply list_eq. intros j. unfold mem2, mem1, store_bytes.
    destruct (decide (j < Z.to_nat MAX_LOG_SIZE)%nat) as [Hj|Hj].
    2:{ rewrite lookup_take_ge by lia. symmetry. apply lookup_ge_None.
        rewrite length_app, Hlen_take. cbn [length]. rewrite length_take. lia. }
    rewrite lookup_take_lt, lookup_drop by done.
    destruct (decide (j < Z.to_nat len)%nat) as [Hin|Hout].
    { rewrite list_lookup_insert_ne by lia.
      rewrite list_lookup_inserts by (rewrite ?Hlen_take; lia).
      rewrite lookup_app_l by lia. f_equal. lia. }
    rewrite lookup_app_r by lia. rewrite Hlen_take.
    destruct (decide (j = Z.to_nat len)) as [->|Hne].
    { replace (Z.to_nat (logPtr i + len)) with (Z.to_nat (logPtr i) + Z.to_nat len)%nat by lia.
      rewrite list_lookup_insert_eq by (rewrite length_inserts; lia).
      by rewrite Nat.sub_diag. }
    rewrite list_lookup_insert_ne by lia.
    rewrite list_lookup_inserts_ge by (rewrite ?Hlen_take; lia).
    replace (j - Z.to_nat len)%nat with (S (j - Z.to_nat len - 1)) by lia.
    rewrite lookup_cons_ne_0 by lia. cbn [pred].
    rewrite lookup_take_lt, lookup_drop by lia. f_equal. lia. }
  assert (Hcell' : log_cell_ok MAX_LOG_SIZE (with_bytes i mem2)) by exact Hcell.
  assert (Hfit' : log_region_fits MAX_LOG_SIZE (with_bytes i mem2)).
  { unfold log_region_fits, byteLength.
    change (bytes (memory (with_bytes i mem2))) with mem2.
    change (logPtr (with_bytes i mem2)) with (logPtr i). rewrite Hlen2. lia. }
  destruct (hostLog_spec MAX_LOG_SIZE _ Hcell' Hfit') as (i' & Hrun & Hm & _).
  rewrite Hregion, before_null_app_zero in Hrun.
  assert (Htake : take (Z.to_nat len) msg = take 2047 msg).
  { unfold len. destruct (Z.min_spec (Z.of_nat (length msg)) (2048 - 1)) as [[Hlt ->]|[Hge ->]].
    - rewrite Nat2Z.id, !take_ge by lia. done.
    - reflexivity. }
  rewrite Htake in Hrun.
  exists i'. split; [exact Hrun|]. rewrite Hm.
  change (bytes (memory (with_bytes i mem2))) with mem2.
  split; [by rewrite Hlen2|]. split.
  - intros j Hj. unfold mem2, mem1.
    rewrite !lookup_store_bytes_outside; rewrite ?length_store_bytes, ?Hlen_take;
      cbn [length]; try done; lia.
  - intros Hshort Hnz. rewrite Hrun. rewrite take_ge by lia. by rewrite before_null_all.
Qed.

(** X20. [handleError] returns normally exactly when the raw call returns 0.
    A raised exception or a non-zero code always ends in a throw, whatever
    the error buffer holds and even when the error view cannot be built;
    and on a zero code the error buffer is not looked at: the instance is
    as the call left it. *)
Theorem handleError_returns_iff_zero (MAX_ERROR_SIZE : Z)
    (func : Instance -> RawResult * Instance) (i : Instance) :
  (fst (handleError MAX_ERROR_SIZE func i) = NoError <-> fst (func i) = Returned 0) /\
  (fst (func i) = Returned 0 ->
   handleError MAX_ERROR_SIZE func i = (NoError, snd (func i))) /\
  (forall e, fst (func i) = Raised e ->
     handleError MAX_ERROR_SIZE func i = throwWasmError MAX_ERROR_SIZE e (snd (func i))) /\
  (forall code, fst (func i) = Returned code -> code <> 0 ->
     handleError MAX_ERROR_SIZE func i = throwWasmError MAX_ERROR_SIZE None (snd (func i))).
Proof.
  unfold handleError. destruct (func i) as [[code|e] i1]; cbn [fst snd].
  - destruct (Z.eqb_spec code 0) as [->|Hne]; cbn [negb].
    + repeat split; try done. intros code' [= <-] Hc. done.
    + repeat split; try done.
      * intros H. by apply throwWasmError_throws in H.
      * intros [= ->]. done.
      * intros [= ->]. done.
  - repeat split; try done.
    + intros H. by apply throwWasmError_throws in H.
    + by intros e' [= <-].
Qed.

Section CreatedInstance.
Variables MAX_LOG_SIZE MAX_ERROR_SIZE PAGE_SIZE DEFAULT_INITIAL_PAGES : Z.

#[local] Abbreviation create :=
  (createInstance MAX_LOG_SIZE MAX_ERROR_SIZE PAGE_SIZE DEFAULT_INITIAL_PAGES).

(** X21. What [createInstance] returns.  The addresses of the instance are
    the ones the four bootstrap exports returned, the channel sizes are the
    ones of the options, no view is built yet, and the memory is the one the
    module exports if it exports one, else the memory it was given (or the
    fresh one): the same object, never shortened, grown at most. *)
Theorem createInstance_records_the_bootstrap
    (instantiate : Imports -> Res Exports) (options : InstanceOptions)
    (next : Ref) (inst : Instance) :
  create instantiate options next = Ok inst ->
  exists exports,
    instantiate (instantiate_imports PAGE_SIZE DEFAULT_INITIAL_PAGES options next) =
      Ok exports /\
    logPtr inst = getLogPtr exports /\
    errPtr inst = getErrorPtr exports /\
    inputPtr inst = allocateInputChannel exports (opt_inputChannelSize options) /\
    outputPtr inst = allocateOutputChannel exports (opt_outputChannelSize options) /\
    inputChannelSize inst = opt_inputChannelSize options /\
    outputChannelSize inst = opt_outputChannelSize options /\
    fresh_views inst /\
    let memory1 :=
      effective_memory
        (fst (initial_memory PAGE_SIZE DEFAULT_INITIAL_PAGES options next)) exports in
    memory_ref (memory inst) = memory_ref memory1 /\
    bytes memory1 `prefix_of` bytes (memory inst).
Proof.
  rewrite createInstance_unfold. cbn zeta.
  destruct (instantiate _) as [exports|] eqn:E; [|done].
  pose proof (grow_to_cover_outcome PAGE_SIZE
                (requiredBytes MAX_LOG_SIZE MAX_ERROR_SIZE
                   (allocateInputChannel exports (opt_inputChannelSize options))
                   (opt_inputChannelSize options)
                   (allocateOutputChannel exports (opt_outputChannelSize options))
                   (opt_outputChannelSize options) (getLogPtr exports) (getErrorPtr exports))
                (effective_memory
                   (fst (initial_memory PAGE_SIZE DEFAULT_INITIAL_PAGES options next)) exports)
                (S (snd (initial_memory PAGE_SIZE DEFAULT_INITIAL_PAGES options next))))
    as Hgrow.
  destruct (grow_to_cover _ _ _ _) as [[memory2 next3]|]; [|done].
  destruct Hgrow as (Href & _ & Hpre).
  intros [= <-]. exists exports. cbn. repeat split; done.
Qed.


(** X23. The channels of a created instance.  When the module returned
    non-negative 8-aligned addresses and the channel sizes are non-negative
    multiples of 8, the first [getInput()] and the first [getOutput()]
    build their channel over the window the bootstrap recorded, with the
    cursor at 0: the growth of the memory has made the window fit.  When a
    channel size or address is not a multiple of 8 the retrieval fails the
    assertion of the constructor, and no channel is kept. *)
Theorem created_instance_channels
    (instantiate : Imports -> Res Exports) (options : InstanceOptions)
    (next : Ref) (inst : Instance) :
  0 < PAGE_SIZE ->
  create instantiate options next = Ok inst ->
  (0 <= inputPtr inst -> 0 <= inputChannelSize inst ->
   inputPtr inst mod 8 = 0 -> inputChannelSize inst mod 8 = 0 ->
   exists i',
     getInput inst = (Ok (next_ref inst), i') /\
     cell_instance (inputChannelCell i') =
       Some (next_ref inst, mkChannel (inputPtr inst) (inputChannelSize inst) 0) /\
     memory i' = memory inst) /\
  (0 <= outputPtr inst -> 0 <= outputChannelSize inst ->
   outputPtr inst mod 8 = 0 -> outputChannelSize inst mod 8 = 0 ->
   exists i',
     getOutput inst = (Ok (next_ref inst), i') /\
     cell_instance (outputChannelCell i') =
       Some (next_ref inst, mkChannel (outputPtr inst) (outputChannelSize inst) 0) /\
     memory i' = memory inst) /\
  (Z.rem (inputPtr inst) 8 <> 0 \/ Z.rem (inputChannelSize inst) 8 <> 0 ->
   exists i',
     getInput inst = (Throw AssertionFailed, i') /\
     cell_instance (inputChannelCell i') = None) /\
  (Z.rem (outputPtr inst) 8 <> 0 \/ Z.rem (outputChannelSize inst) 8 <> 0 ->
   exists i',
     getOutput inst = (Throw AssertionFailed, i') /\
     cell_instance (outputChannelCell i') = None).
Proof.
  intros Hpage Hcreate.
  destruct (createInstance_covers _ _ _ _ _ _ _ _ Hpage Hcreate) as (Hin & Hout & _ & _).
  assert (Hfresh : cell_instance (inputChannelCell inst) = None /\
                   cell_instance (outputChannelCell inst) = None).
  { revert Hcreate. rewrite createInstance_unfold. cbn zeta.
    destruct (instantiate _); [|done]. destruct (grow_to_cover _ _ _ _) as [[? ?]|]; [|done].
    by intros [= <-]. }
  destruct Hfresh as [Hci Hco]. unfold byteLength in *.
  assert (Hok : forall buf o s, 0 <= o -> 0 <= s -> o mod 8 = 0 -> s mod 8 = 0 ->
                  o + s <= Z.of_nat (length buf) ->
                  Channel_new buf (Some o) (Some s) = Ok (mkChannel o s 0)).
  { clear. intros buf o s Ho Hs Ho8 Hs8 Hfit. unfold Channel_new, assert. cbn.
    rewrite !Z.rem_mod_nonneg, Ho8, Hs8 by lia. cbn.
    destruct (Z.leb_spec (o + s) (Z.of_nat (length buf))); cbn; [|lia].
    destruct (Z.ltb_spec o 0); cbn; [lia|]. destruct (Z.ltb_spec s 0); cbn; [lia|]. done. }
  assert (Hbad : forall buf o s, Z.rem o 8 <> 0 \/ Z.rem s 8 <> 0 ->
                   Channel_new buf (Some o) (Some s) = Throw AssertionFailed).
  { clear. intros buf o s Hne. unfold Channel_new, assert. cbn.
    destruct (Z.eqb_spec (Z.rem o 8) 0); cbn; [|done].
    destruct (Z.eqb_spec (Z.rem s 8) 0); cbn; [|done]. lia. }
  split; [|split; [|split]].
  - intros H1 H2 H3 H4. unfold getInput, getInputChannel, get_view.
    rewrite Hci, (Hok _ _ _ H1 H2 H3 H4 Hin). cbn. eexists. split; [reflexivity|]. done.
  - intros H1 H2 H3 H4. unfold getOutput, getOutputChannel, get_view.
    rewrite Hco, (Hok _ _ _ H1 H2 H3 H4 Hout). cbn. eexists. split; [reflexivity|]. done.
  - intros Hne. unfold getInput, getInputChannel, get_view.
    rewrite Hci, (Hbad _ _ _ Hne). cbn. eexists. split; [reflexivity|]. done.
  - intros Hne. unfold getOutput, getOutputChannel, get_view.
    rewrite Hco, (Hbad _ _ _ Hne). cbn. eexists. split; [reflexivity|]. done.
Qed.

End CreatedInstance.

Section CreatedInstanceBuffers.
Variables MAX_LOG_SIZE MAX_ERROR_SIZE PAGE_SIZE DEFAULT_INITIAL_PAGES : Z.

(** X24. The buffers of a created instance can always be read.  On an
    instance that [createInstance] returned, with non-negative buffer
    addresses and sizes: [getBytes()] is a view of the whole memory; and
    whatever the module has written into the memory, [hostLog] hands over
    the message of the log buffer, and [handleError] resolves the raw call
    against the message of the error buffer (never failing to build a
    view): the growth of the memory at bootstrap has made both buffers
    fit. *)
Theorem created_instance_reads_its_buffers
    (instantiate : Imports -> Res Exports) (options : InstanceOptions)
    (next : Ref) (inst : Instance) :
  0 < PAGE_SIZE -> 0 <= MAX_LOG_SIZE -> 0 <= MAX_ERROR_SIZE ->
  createInstance MAX_LOG_SIZE MAX_ERROR_SIZE PAGE_SIZE DEFAULT_INITIAL_PAGES
    instantiate options next = Ok inst ->
  (exists i',
      getBytes inst =
        (Ok (next_ref inst, mkByteView 0 (byteLength (memory inst))), i') /\
      bv_data (mkByteView 0 (byteLength (memory inst))) (bytes (memory inst)) =
        bytes (memory inst)) /\
  (0 <= logPtr inst ->
   forall b, length b = length (bytes (memory inst)) ->
     fst (hostLog MAX_LOG_SIZE (with_bytes inst b)) =
     Ok (before_null (log_region MAX_LOG_SIZE (with_bytes inst b)))) /\
  (0 <= errPtr inst ->
   forall b raw, length b = length (bytes (memory inst)) ->
     fst (handleError MAX_ERROR_SIZE (fun i => (raw, with_bytes i b)) inst) =
     handled_outcome (error_message MAX_ERROR_SIZE (with_bytes inst b)) raw).
Proof.
  intros Hpage Hlog Herr Hcreate.
  destruct (createInstance_covers _ _ _ _ _ _ _ _ Hpage Hcreate) as (_ & _ & Hl & He).
  assert (Hfresh : fresh_views inst).
  { revert Hcreate. rewrite createInstance_unfold. cbn zeta.
    destruct (instantiate _); [|done]. destruct (grow_to_cover _ _ _ _) as [[? ?]|]; [|done].
    by intros [= <-]. }
  destruct Hfresh as (Hcb & Hcl & Hce & _ & _).
  split; [|split].
  - unfold getBytes, get_view, ByteView_whole. rewrite Hcb. cbn.
    eexists. split; [reflexivity|].
    unfold bv_data, byteLength. cbn. by rewrite Nat2Z.id, firstn_all.
  - intros Hp b Hb.
    destruct (hostLog_spec MAX_LOG_SIZE (with_bytes inst b)) as (i' & -> & _); [| |done].
    + unfold log_cell_ok. change (logDataCell (with_bytes inst b)) with (logDataCell inst).
      by rewrite Hcl.
    + unfold log_region_fits, byteLength in *.
      change (bytes (memory (with_bytes inst b))) with b.
      change (logPtr (with_bytes inst b)) with (logPtr inst). rewrite Hb. lia.
  - intros Hp b raw Hb. unfold handleError.
    assert (Hout : fst (throwWasmError MAX_ERROR_SIZE
                          (match raw with Raised e => e | Returned _ => None end)
                          (with_bytes inst b)) =
                   if is_empty (error_message MAX_ERROR_SIZE (with_bytes inst b)) then
                     match (match raw with Raised e => e | Returned _ => None end) with
                     | Some x => Rethrow x
                     | None => ThrowUnknown
                     end
                   else ThrowMessage (error_message MAX_ERROR_SIZE (with_bytes inst b))).
    { apply throwWasmError_outcome.
      - unfold error_cell_ok.
        change (errorDataCell (with_bytes inst b)) with (errorDataCell inst). by rewrite Hce.
      - unfold error_region_fits, byteLength in *.
        change (bytes (memory (with_bytes inst b))) with b.
        change (errPtr (with_bytes inst b)) with (errPtr inst). rewrite Hb. lia. }
    destruct raw as [code|e]; cbn [handled_outcome].
    + destruct (Z.eqb_spec code 0); cbn [negb]; [done|].
      rewrite Hout. by destruct (is_empty _).
    + rewrite Hout. by destruct (is_empty _).
Qed.

End CreatedInstanceBuffers.

Section Reallocation.
Variable Heap : Type.
Variable alloc : Z -> Heap -> option (Z * Heap).
Variable free : Zig.Slice -> Heap -> Heap.

(** X25. Allocating a channel of the same role a second time.  The second
    call releases exactly the storage the first call allocated (its address
    and its length in [u64]s) before it allocates; afterwards the role is
    bound to the second storage, its accessor returns the channel over that
    storage with the cursor at 0, and the other role is as it was. *)
Theorem reallocation_releases_the_previous_storage
    (role : Role) (size1 size2 : Z) (s s1 s2 : Zig.ModuleState Heap) (ptr1 ptr2 : Z) :
  0 < size1 < 2 ^ 31 -> 0 < size2 < 2 ^ 31 ->
  allocateChannel Heap alloc free role size1 s = Zig.Return ptr1 s1 ->
  allocateChannel Heap alloc free role size2 s1 = Zig.Return ptr2 s2 ->
  let storage1 := Zig.mkSlice ptr1 (round_up size1 8 / 8) in
  let storage2 := Zig.mkSlice ptr2 (round_up size2 8 / 8) in
  alloc (round_up size2 8 / 8) (free storage1 (Zig.heap Heap s1)) =
    Some (ptr2, Zig.heap Heap s2) /\
  storage_of Heap role s2 = Some storage2 /\
  match role with
  | InputRole => Zig.getInput Heap s2 = Some (Zig.Reader_from storage2, s2)
  | OutputRole => Zig.getOutput Heap s2 = Some (Zig.Writer_from storage2, s2)
  end /\
  storage_of Heap (other role) s2 = storage_of Heap (other role) s /\
  channel_of Heap (other role) s2 = channel_of Heap (other role) s.
Proof.
  intros H1 H2. cbn zeta.
  destruct role; cbn [allocateChannel storage_of channel_of other];
    unfold Zig.allocateInputChannel, Zig.allocateOutputChannel, Zig.getInput, Zig.getOutput;
    (destruct (Z.leb_spec size1 0); [lia|]); (destruct (Z.leb_spec size2 0); [lia|]);
    rewrite !align8_round_up by lia;
    (destruct (alloc (round_up size1 8 / 8) _) as [[p h]|]; [|done]);
    (destruct (Z.leb_spec (2 ^ 31) p); [done|]);
    intros [= <- <-]; cbn;
    (destruct (alloc (round_up size2 8 / 8) _) as [[p' h']|]; [|done]);
    (destruct (Z.leb_spec (2 ^ 31) p'); [done|]);
    intros [= <- <-]; cbn; done.
Qed.

End Reallocation.

(** X26. The helper that fills a buffer with a null-terminated text.
    [writeNullTerminated(buffer, offset, size, text)] leaves in the region
    the encoded text cut to [size - 1] bytes, followed by null bytes up to
    the end of the region, and touches nothing else.  On the log buffer,
    [hostLog] then hands over that text up to its first null byte; on the
    error buffer, [handleError] of a call that returns a non-zero code
    raises that text, or the unknown error when the text is empty. *)
Theorem null_terminated_text_reaches_the_host
    (MAX_LOG_SIZE MAX_ERROR_SIZE : Z) (i : Instance) (offset size : Z)
    (data b' : list Z) :
  0 < size ->
  TestSupport.writeNullTerminated (bytes (memory i)) offset size data = Ok b' ->
  let text := take (Z.to_nat (size - 1)) data in
  (take (Z.to_nat size) (drop (Z.to_nat offset) b') =
     text ++ replicate (Z.to_nat size - length text) 0 /\
   length b' = length (bytes (memory i)) /\
   forall j : nat,
     Z.of_nat j < offset \/ offset + size <= Z.of_nat j ->
     b' !! j = bytes (memory i) !! j) /\
  (offset = logPtr i -> size = MAX_LOG_SIZE -> log_cell_ok MAX_LOG_SIZE i ->
   fst (hostLog MAX_LOG_SIZE (with_bytes i b')) = Ok (before_null text)) /\
  (offset = errPtr i -> size = MAX_ERROR_SIZE -> error_cell_ok MAX_ERROR_SIZE i ->
   forall code, code <> 0 ->
     fst (handleError MAX_ERROR_SIZE (fun i0 => (Returned code, i0)) (with_bytes i b')) =
     if is_empty (before_null text) then ThrowUnknown
     else ThrowMessage (before_null text)).
Proof.
  intros Hsize Hwrite text.
  destruct (writeNullTerminated_region _ _ _ _ _ Hsize Hwrite)
    as (Hoff & Hfit & Hlen & Hregion & Hout).
  assert (Htext : take (Z.to_nat (Z.min (Z.of_nat (length data)) (size - 1))) data = text).
  { unfold text. destruct (Z.min_spec (Z.of_nat (length data)) (size - 1)) as [[Hlt ->]|[Hge ->]].
    - rewrite Nat2Z.id, !take_ge by lia. done.
    - reflexivity. }
  assert (Hshort : (length text < Z.to_nat size)%nat).
  { unfold text. rewrite length_take. lia. }
  assert (Hlen_text : Z.to_nat (Z.min (Z.of_nat (length data)) (size - 1)) = length text).
  { unfold text. rewrite length_take. lia. }
  cbn zeta in Hregion. rewrite Htext, Hlen_text in Hregion.
  split; [done|]. split.
  - intros -> -> Hcell.
    destruct (hostLog_spec MAX_LOG_SIZE (with_bytes i b')) as (i' & -> & _).
    + exact Hcell.
    + unfold log_region_fits, byteLength.
      change (bytes (memory (with_bytes i b'))) with b'.
      change (logPtr (with_bytes i b')) with (logPtr i). rewrite Hlen. lia.
    + cbn [fst]. unfold log_region.
      change (bytes (memory (with_bytes i b'))) with b'.
      change (logPtr (with_bytes i b')) with (logPtr i).
      rewrite Hregion, before_null_app_zeros by lia. done.
  - intros -> -> Hcell code Hcode. unfold handleError.
    destruct (Z.eqb_spec code 0); [done|]. cbn [negb].
    rewrite throwWasmError_outcome.
    + unfold error_message, error_region.
      change (bytes (memory (with_bytes i b'))) with b'.
      change (errPtr (with_bytes i b')) with (errPtr i).
      rewrite Hregion, before_null_app_zeros by lia. done.
    + exact Hcell.
    + unfold error_region_fits, byteLength.
      change (bytes (memory (with_bytes i b'))) with b'.
      change (errPtr (with_bytes i b')) with (errPtr i). rewrite Hlen. lia.
Qed.

(** X27. The helper that fills a buffer with one byte.  After
    [writeFilled(buffer, logPtr, MAX_LOG_SIZE, byte)] with a non-null byte
    there is no terminator in the log buffer, and [hostLog] hands over the
    whole buffer: [MAX_LOG_SIZE] copies of the byte. *)
Theorem filled_log_buffer_is_logged_whole
    (MAX_LOG_SIZE : Z) (i : Instance) (byte : Z) (b' : list Z) :
  0 < byte < 256 -> log_cell_ok MAX_LOG_SIZE i ->
  TestSupport.writeFilled (bytes (memory i)) (logPtr i) MAX_LOG_SIZE byte = Ok b' ->
  fst (hostLog MAX_LOG_SIZE (with_bytes i b')) =
    Ok (replicate (Z.to_nat MAX_LOG_SIZE) byte) /\
  length b' = length (bytes (memory i)).
Proof.
  intros Hbyte Hcell. unfold TestSupport.writeFilled, ByteView_new.
  destruct (Z.ltb_spec (logPtr i) 0); [done|].
  destruct (Z.ltb_spec MAX_LOG_SIZE 0); [done|].
  destruct (Z.ltb_spec (Z.of_nat (length (bytes (memory i)))) (logPtr i + MAX_LOG_SIZE));
    [done|].
  cbn [orb]. rewrite Z.mod_small by lia. intros [= <-].
  split; [|apply length_store_bytes].
  destruct (hostLog_spec MAX_LOG_SIZE
              (with_bytes i (store_bytes (logPtr i) (replicate (Z.to_nat MAX_LOG_SIZE) byte)
                               (bytes (memory i))))) as (i' & -> & _).
  - exact Hcell.
  - unfold log_region_fits, byteLength. cbn. rewrite length_store_bytes. lia.
  - cbn [fst]. unfold log_region. cbn.
    rewrite <- (length_replicate (Z.to_nat MAX_LOG_SIZE) byte) at 1.
    fold (load_bytes (logPtr i) (length (replicate (Z.to_nat MAX_LOG_SIZE) byte))
            (store_bytes (logPtr i) (replicate (Z.to_nat MAX_LOG_SIZE) byte)
               (bytes (memory i)))).
    rewrite load_store_bytes by (rewrite ?length_replicate; lia).
    rewrite before_null_all; [done|].
    apply Forall_replicate. lia.
Qed.

(* ===================================================================== *)
(** * The further statements at sample inputs *)
(* ===================================================================== *)

Lemma message_round_trip_witness :
  exists st2,
    read_all sample_message (reader_at (snd (write_all sample_message sample_state)) 0) =
    (Ok (Some <$> sample_message), st2).
Proof.
  destruct (message_round_trip sample_message sample_state
              (snd (write_all sample_message sample_state)))
    as (st2 & Hread & _).
  - apply wf_check_sound. vm_compute. reflexivity.
  - repeat constructor; cbn; lia.
  - vm_compute. reflexivity.
  - exists st2. exact Hread.
Defined.

Lemma readArrays_round_trip_witness :
  exists vs,
    Reader.readArrays Uint8 2
      (reader_at (snd (write_all (PArray Uint8 <$> [[1; 2]; [3]]) sample_state)) 0) =
    (Ok vs, reader_at (snd (write_all (PArray Uint8 <$> [[1; 2]; [3]]) sample_state)) 13) /\
    length vs = 2%nat.
Proof.
  destruct (readArrays_round_trip Uint8 [[1; 2]; [3]] sample_state
              (snd (write_all (PArray Uint8 <$> [[1; 2]; [3]]) sample_state)))
    as (vs & Hread & Hlen & _).
  - apply wf_check_sound. vm_compute. reflexivity.
  - repeat constructor; cbn; lia.
  - vm_compute. reflexivity.
  - exists vs. split; [exact Hread | exact Hlen].
Defined.

Lemma writeAsciiString_witness :
  Writer.writeAsciiString [104; 105; 8364] sample_state =
  Writer.copyUint8Array [104; 105; 8364] sample_state.
Proof.
  refine (proj1 (writeAsciiString_stores_low_bytes (fun bs : list Z => bs)
                   [104; 105; 8364] sample_state sample_state _)).
  apply wf_check_sound. vm_compute. reflexivity.
Defined.

Lemma utf8_string_round_trip_witness :
  Reader.readUtf8String (fun bs : list Z => bs)
    (reader_at (snd (Writer.writeUtf8String (fun s : list Z => s) [226; 130; 172]
                       sample_state)) 0) =
  (Ok [226; 130; 172],
   reader_at (snd (Writer.writeUtf8String (fun s : list Z => s) [226; 130; 172]
                     sample_state)) 7).
Proof.
  refine (proj1 (utf8_string_round_trip (fun s : list Z => s) (fun bs : list Z => bs)
                   (fun bs : list Z => bs) [226; 130; 172] sample_state
                   (snd (Writer.writeUtf8String (fun s : list Z => s) [226; 130; 172]
                           sample_state)) _ _ _)).
  - apply wf_check_sound. vm_compute. reflexivity.
  - repeat constructor; cbn; lia.
  - vm_compute. reflexivity.
Defined.

Lemma integer_write_wraps_witness :
  Reader.read Uint8 (reader_at (snd (Writer.write Uint8 300 sample_state)) 0) =
  (Ok (Some (wrap Uint8 300)), reader_at (snd (Writer.write Uint8 300 sample_state)) 1).
Proof.
  refine (proj1 (integer_write_wraps Uint8 300 sample_state
                   (snd (Writer.write Uint8 300 sample_state)) _ _ _)).
  - apply wf_check_sound. vm_compute. reflexivity.
  - exact I.
  - vm_compute. reflexivity.
Defined.

Lemma deferred_write_witness :
  exists s3,
    load_bytes (addr sample_state_5 8) 4 (buffer s3) = encode Uint32 258.
Proof.
  destruct (deferred_write_fills_reserved_slot Uint32 [Write Uint8 1] 258 sample_state_5
              (snd (Writer.init Uint32 sample_state_5))
              (snd (run_all [Write Uint8 1] (snd (Writer.init Uint32 sample_state_5))))
              (fun value => storage_set Uint32 2 value))
    as (s3 & _ & _ & Hload & _).
  - apply wf_check_sound. vm_compute. reflexivity.
  - repeat constructor.
  - vm_compute. reflexivity.
  - vm_compute. reflexivity.
  - exists s3. exact Hload.
Defined.

Lemma append_only_witness :
  wf (snd (run_all [Write Uint32 1; Write Float64 2] sample_state_5)) /\
  5 <= offset (this (snd (run_all [Write Uint32 1; Write Float64 2] sample_state_5))) <= 16.
Proof.
  destruct (operations_never_touch_earlier_bytes [Write Uint32 1; Write Float64 2]
              sample_state_5
              (snd (run_all [Write Uint32 1; Write Float64 2] sample_state_5))
              (fst (run_all [Write Uint32 1; Write Float64 2] sample_state_5)))
    as (Hwf & Hcur & _).
  - apply wf_check_sound. vm_compute. reflexivity.
  - repeat constructor.
  - vm_compute. reflexivity.
  - split; [exact Hwf | exact Hcur].
Defined.

Lemma disjoint_channels_witness :
  read_payload (PScalar Uint32 0)
    (mkState sample_other (buffer (snd (exec (Write Uint32 9) sample_state)))) =
  (Ok (Some (PScalar Uint32 0)),
   mkState (mkChannel 0 8 4) (buffer (snd (exec (Write Uint32 9) sample_state)))).
Proof.
  refine (disjoint_channels_do_not_interfere (Write Uint32 9) sample_state
            (snd (exec (Write Uint32 9) sample_state))
            (fst (exec (Write Uint32 9) sample_state))
            sample_other (PScalar Uint32 0) (Some (PScalar Uint32 0))
            (mkState (mkChannel 0 8 4) (buffer sample_state)) _ _ _ _ _ _).
  - apply wf_check_sound. vm_compute. reflexivity.
  - exact I.
  - apply wf_check_sound. vm_compute. reflexivity.
  - right. vm_compute. discriminate.
  - vm_compute. reflexivity.
  - vm_compute. reflexivity.
Defined.

Lemma negative_length_witness :
  exists v,
    Reader.readElements Uint8 (-3) sample_state_5 = (Ok v, with_offset sample_state_5 2).
Proof.
  destruct (negative_length_moves_cursor_backward Uint8 (-3) sample_state_5)
    as (v & Hread & _).
  - apply wf_check_sound. vm_compute. reflexivity.
  - lia.
  - exists v. exact Hread.
Defined.

Lemma alignUp_witness : alignUp 13 8 mod 8 = 0 /\ 13 <= alignUp 13 8 < 13 + 8.
Proof.
  destruct (alignUp_is_least_multiple_within_i32 13 8) as [Hin _].
  - right. reflexivity.
  - destruct (Hin ltac:(lia) ltac:(lia)) as (Hmul & Hbounds & _).
    split; [exact Hmul | exact Hbounds].
Defined.

Lemma decoded_values_witness :
  exists v,
    fst (Reader.read Int32 sample_state_5) = Ok (Some v) /\ in_range Int32 v.
Proof.
  destruct (decoded_values_are_in_range Int32 sample_state_5
              (snd (Reader.read Int32 sample_state_5))) as [Hscalar _].
  - apply wf_check_sound. vm_compute. reflexivity.
  - destruct (Hscalar (Some 0)) as (v & Hv & Hr).
    + vm_compute. reflexivity.
    + exists v. split; [|exact (Hr I)]. rewrite <- Hv. vm_compute. reflexivity.
Defined.

Lemma write_after_read_witness :
  Writer.write Uint32 0 sample_state_5 = (Ok tt, snd (Reader.read Uint32 sample_state_5)).
Proof.
  refine (proj1 (write_after_read_restores_the_bytes Uint32 0 sample_state_5
                   (snd (Reader.read Uint32 sample_state_5)) _ _ _)).
  - apply wf_check_sound. vm_compute. reflexivity.
  - exact I.
  - vm_compute. reflexivity.
Defined.

Lemma view_of_initArray_witness :
  exists s2,
    view_set (mkView Uint32 12 2) 1 258 (snd (Writer.initArray Uint32 2 sample_state)) =
      (Ok tt, s2) /\
    (in_range Uint32 258 ->
     view_elements (mkView Uint32 12 2) (buffer s2) !! Z.to_nat 1 = Some 258).
Proof.
  destruct (view_of_initArray_is_live Uint32 2 1 258 sample_state
              (snd (Writer.initArray Uint32 2 sample_state)) (mkView Uint32 12 2))
    as (s2 & Hset & _ & _ & _ & Hel & _).
  - apply wf_check_sound. vm_compute. reflexivity.
  - lia.
  - vm_compute. reflexivity.
  - exists s2. split; [exact Hset | exact Hel].
Defined.

Lemma string_lists_round_trip_witness :
  Reader.readUtf8Strings (fun bs : list Z => bs) (length [[104; 105]; [226; 130; 172]])
    (reader_at (snd (write_strings (fun s : list Z => s) [[104; 105]; [226; 130; 172]]
                       sample_state)) 0) =
  (Ok ((fun value : list Z => value) <$> [[104; 105]; [226; 130; 172]]),
   reader_at (snd (write_strings (fun s : list Z => s) [[104; 105]; [226; 130; 172]]
                     sample_state)) 15).
Proof.
  refine (proj1 (string_lists_round_trip (fun s : list Z => s) (fun bs : list Z => bs)
                   (fun bs : list Z => bs) [[104; 105]; [226; 130; 172]] sample_state
                   (snd (write_strings (fun s : list Z => s) [[104; 105]; [226; 130; 172]]
                           sample_state)) _ _ _)).
  - apply wf_check_sound. vm_compute. reflexivity.
  - repeat constructor; cbn; lia.
  - vm_compute. reflexivity.
Defined.


Lemma hostLog_witness :
  exists message i',
    hostLog 16 stale_error_instance = (Ok message, i') /\
    Forall (fun b => b <> 0) message.
Proof.
  destruct (hostLog_reads_up_to_the_terminator 16 stale_error_instance)
    as (message & i' & Hrun & _ & _ & _ & Hnz & _).
  - exact I.
  - unfold log_region_fits. vm_compute. repeat split; discriminate.
  - exists message, i'. split; [exact Hrun | exact Hnz].
Defined.

Lemma module_log_witness :
  exists i',
    module_log 256 [104; 105] sample_module_instance =
    (Ok (before_null (take 2047 [104; 105])), i').
Proof.
  destruct (module_log_reaches_the_host 256 [104; 105] sample_module_instance)
    as (i' & Hrun & _).
  - exact I.
  - unfold log_region_fits. vm_compute. repeat split; discriminate.
  - vm_compute. discriminate.
  - vm_compute. reflexivity.
  - exists i'. exact Hrun.
Defined.

Lemma createInstance_witness :
  logPtr sample_created = 0 /\ errPtr sample_created = 256 /\
  inputPtr sample_created = 512 /\ outputPtr sample_created = 1024 /\
  fresh_views sample_created.
Proof.
  destruct (createInstance_records_the_bootstrap 256 256 1024 1
              sample_instantiate sample_options 0%nat sample_created)
    as (exports & Hinst & Hlog & Herr & Hin & Hout & _ & _ & Hfresh & _).
  - vm_compute. reflexivity.
  - injection Hinst as <-.
    split; [exact Hlog|]. split; [exact Herr|]. split; [exact Hin|].
    split; [exact Hout | exact Hfresh].
Defined.

Lemma created_instance_channels_witness :
  exists i',
    getInput sample_created = (Ok (next_ref sample_created), i') /\
    cell_instance (inputChannelCell i') =
      Some (next_ref sample_created,
            mkChannel (inputPtr sample_created) (inputChannelSize sample_created) 0).
Proof.
  destruct (created_instance_channels 256 256 1024 1
              sample_instantiate sample_options 0%nat sample_created)
    as (Hinput & _).
  - lia.
  - vm_compute. reflexivity.
  - destruct Hinput as (i' & Hget & Hcell & _).
    + vm_compute. discriminate.
    + vm_compute. discriminate.
    + vm_compute. reflexivity.
    + vm_compute. reflexivity.
    + exists i'. split; [exact Hget | exact Hcell].
Defined.

Lemma reallocation_witness :
  bump_alloc (round_up 100 8 / 8)
    (bump_free (Zig.mkSlice 1024 (round_up 13 8 / 8)) 1040) = Some (1040, 1144).
Proof.
  refine (proj1 (reallocation_releases_the_previous_storage Z bump_alloc bump_free
                   InputRole 13 100 fresh_module
                   (Zig.mkModuleState Z (Some (Zig.Reader_from (Zig.mkSlice 1024 2))) None
                      (Some (Zig.mkSlice 1024 2)) None 1040)
                   (Zig.mkModuleState Z (Some (Zig.Reader_from (Zig.mkSlice 1040 13))) None
                      (Some (Zig.mkSlice 1040 13)) None 1144)
                   1024 1040 _ _ _ _)).
  - lia.
  - lia.
  - vm_compute. reflexivity.
  - vm_compute. reflexivity.
Defined.

Lemma null_terminated_text_witness :
  fst (hostLog 16
         (with_bytes stale_error_instance
            (match TestSupport.writeNullTerminated (bytes (memory stale_error_instance))
                     0 16 [108; 111; 103] with
             | Ok b => b
             | Throw _ => []
             end))) =
  Ok (before_null (take (Z.to_nat (16 - 1)) [108; 111; 103])).
Proof.
  refine (proj1 (proj2 (null_terminated_text_reaches_the_host 16 16 stale_error_instance
                          0 16 [108; 111; 103] _ _ _)) _ _ _).
  - lia.
  - vm_compute. reflexivity.
  - reflexivity.
  - reflexivity.
  - exact I.
Defined.

Lemma filled_log_buffer_witness :
  fst (hostLog 16
         (with_bytes stale_error_instance
            (match TestSupport.writeFilled (bytes (memory stale_error_instance)) 0 16 97 with
             | Ok b => b
             | Throw _ => []
             end))) =
  Ok (replicate (Z.to_nat 16) 97).
Proof.
  refine (proj1 (filled_log_buffer_is_logged_whole 16 stale_error_instance 97 _ _ _ _)).
  - lia.
  - exact I.
  - vm_compute. reflexivity.
Defined.

Lemma created_instance_buffers_witness :
  fst (handleError 256 (fun i => (Returned 1, with_bytes i (bytes (memory sample_created))))
         sample_created) =
  handled_outcome
    (error_message 256 (with_bytes sample_created (bytes (memory sample_created))))
    (Returned 1).
Proof.
  destruct (created_instance_reads_its_buffers 256 256 1024 1
              sample_instantiate sample_options 0%nat sample_created)
    as (_ & _ & Herr).
  - lia.
  - lia.
  - lia.
  - vm_compute. reflexivity.
  - refine (Herr _ (bytes (memory sample_created)) (Returned 1) eq_refl).
    vm_compute. discriminate.
Defined.
